(** * The Human Behavior Simulation Engine, embedded in Rocq

    A shallow embedding of the repository's Python modules

      - [temporal_entropy.py]   (Gaussian activity delays, the timing budget),
      - [reading_mimicry.py]    (honeypot and visibility checks, burst scrolling),
      - [kinematic_mouse.py]    (Fitts's law, Bezier paths, overshoot),
      - [infiltrator_complete.py] (the orchestrator's random interaction),

    followed by the properties of the written specification, each stated over
    these definitions.

    Numbers.  The timing and page-inspection code uses only IEEE-754 arithmetic
    and comparisons, so a Python [float] (and a JavaScript number) is a
    primitive binary64 float there: NaN and the infinities are part of the
    model and the definitions compute.  Python [int] is [Z]; where the code
    brings an [int] into float arithmetic the conversion is written out, with
    the [OverflowError] of an integer beyond the binary64 range.  The pointer
    planner calls [math.sqrt], [math.log2] and [pow]; it is embedded over the
    real numbers.  A real stands for a finite float and every operation is
    read exactly; the [OverflowError] of a power that leaves the binary64
    range is kept.  The planner's properties are stated for coordinates of
    magnitude [2^508] at most and target sizes of [2^-511] at least, where
    no intermediate result of the code leaves the range, and their
    conclusions are written as the code computes them.

    Text.  A Python [str] is a sequence of Unicode code points, and white
    space is what [str.isspace] says it is.

    Randomness.  The module [random] is a source of draws consumed one call at
    a time.  It is embedded as two tapes, one for [random.random()] and one
    for the standard normal deviate behind [random.gauss]; a statement about
    every tape is a statement about every draw. *)

From Stdlib Require Import ZArith Bool String Ascii List Lia.
From Stdlib Require Import Floats.
From Stdlib Require Import Reals Lra Sorted.
Import ListNotations.

Set Warnings "-inexact-float,-level-tolerance,-abstract-large-number,-register-all".

(* ================================================================== *)
(** * Part I.  The embedding                                           *)
(* ================================================================== *)

(** ** Python control: exceptions and state *)

Module Py.

(** The exceptions the embedded code can meet.  [CancelledError] derives
    from [BaseException] only, so [except Exception] lets it through. *)
Inductive exn : Type :=
| ZeroDivisionError
| ValueError
| OverflowError
| TypeError
| KeyError
| IndexError
| PlaywrightError (msg : string)
| CancelledError.

Definition is_Exception (e : exn) : bool :=
  match e with
  | CancelledError => false
  | _ => true
  end.

(** [str(e)] *)
Definition str_exn (e : exn) : string :=
  match e with
  | ZeroDivisionError => "division by zero"
  | ValueError => "cannot convert float NaN to integer"
  | OverflowError => "cannot convert float infinity to integer"
  | TypeError => "object is not subscriptable"
  | KeyError => "key"
  | IndexError => "list index out of range"
  | PlaywrightError msg => msg
  | CancelledError => ""
  end.

Inductive result (A : Type) : Type :=
| Ok (a : A)
| Raise (e : exn).
Arguments Ok {A} a.
Arguments Raise {A} e.

(** A computation over a mutable store [S] that may raise.  The store is
    returned in both cases: what was mutated before an exception stays
    mutated, as in Python. *)
Definition M (S A : Type) : Type := S -> result A * S.

Definition ret {S A} (a : A) : M S A := fun s => (Ok a, s).
Definition raise {S A} (e : exn) : M S A := fun s => (Raise e, s).
Definition bind {S A B} (m : M S A) (k : A -> M S B) : M S B :=
  fun s =>
    match m s with
    | (Ok a, s') => k a s'
    | (Raise e, s') => (Raise e, s')
    end.
Definition get {S} : M S S := fun s => (Ok s, s).
Definition put {S} (s : S) : M S unit := fun _ => (Ok tt, s).
Definition lift_result {S A} (r : result A) : M S A := fun s => (r, s).

(** Run a computation on a component of a larger store. *)
Definition zoom {S T A} (proj : T -> S) (upd : S -> T -> T) (m : M S A) : M T A :=
  fun t => let '(r, s') := m (proj t) in (r, upd s' t).

(** [try: body  except Exception as e: handler(e)] *)
Definition try_except {S A} (body : M S A) (handler : exn -> M S A) : M S A :=
  fun s =>
    match body s with
    | (Ok a, s') => (Ok a, s')
    | (Raise e, s') => if is_Exception e then handler e s' else (Raise e, s')
    end.

(** [try: body  except: handler()] -- the bare clause catches everything. *)
Definition try_except_all {S A} (body : M S A) (handler : M S A) : M S A :=
  fun s =>
    match body s with
    | (Ok a, s') => (Ok a, s')
    | (Raise _, s') => handler s'
    end.

End Py.

Declare Scope py_scope.
Delimit Scope py_scope with py.
Notation "x <- c1 ;; c2" := (Py.bind c1 (fun x => c2))
  (at level 61, c1 at next level, right associativity) : py_scope.
Notation "' pat <- c1 ;; c2" := (Py.bind c1 (fun x => match x with pat => c2 end))
  (at level 61, pat pattern, c1 at next level, right associativity) : py_scope.
Notation "c1 ;;; c2" := (Py.bind c1 (fun _ => c2))
  (at level 61, right associativity) : py_scope.

(** ** Python builtins on binary64 floats *)

Module PyFloat.
Import Py.
Local Open Scope float_scope.

(** [min(a, b)]: the first argument is kept unless the second is smaller. *)
Definition py_min (a b : float) : float := if b <? a then b else a.

(** [max(a, b)]: the first argument is kept unless the second is greater. *)
Definition py_max (a b : float) : float := if a <? b then b else a.

(** The binary64 nearest to an integer, ties to even; infinity beyond the
    range. *)
Definition nearest_float (z : Z) : float :=
  SF2Prim (binary_normalize prec emax z 0 false).

(** Where rounding to nearest leaves the binary64 range: half a unit in
    the last place above the largest float, [2^1024 - 2^971]. *)
Definition float_overflow_threshold : Z := 2 ^ 1024 - 2 ^ 970.

(** [float(z)] for an [int] operand of a mixed operation: the nearest
    binary64, ties to even; [OverflowError] ("int too large to convert to
    float") when that is beyond the largest float. *)
Definition float_of_int (z : Z) : result float :=
  if (Z.abs z <? float_overflow_threshold)%Z then Ok (nearest_float z)
  else Raise OverflowError.

(** [int(x)]: truncation toward zero; NaN and the infinities raise. *)
Definition py_int (x : float) : result Z :=
  match Prim2SF x with
  | S754_zero _ => Ok 0%Z
  | S754_finite s m e =>
      let a := if (0 <=? e)%Z then (Zpos m * 2 ^ e)%Z else (Zpos m / 2 ^ (- e))%Z in
      Ok (if s then (- a)%Z else a)
  | S754_infinity _ => Raise OverflowError
  | S754_nan => Raise ValueError
  end.

(** [a / b] on floats: a zero divisor raises. *)
Definition py_truediv (a b : float) : result float :=
  if b =? 0 then Raise ZeroDivisionError else Ok (a / b).

(** An [int] as an operand of the exact division: a significand of any
    length with exponent 0. *)
Definition int_operand (z : Z) : spec_float :=
  match z with
  | Z0 => S754_zero false
  | Zpos m => S754_finite false m 0
  | Zneg m => S754_finite true m 0
  end.

(** [a / b] for two [int]s: a zero divisor raises; otherwise the exact
    quotient rounded once to the nearest binary64, ties to even (the
    operands are not converted first), and [OverflowError] ("integer
    division result too large for a float") when the quotient rounds
    beyond the largest float. *)
Definition py_int_truediv (a b : Z) : result float :=
  if (b =? 0)%Z then Raise ZeroDivisionError
  else if (float_overflow_threshold * Z.abs b <=? Z.abs a)%Z then Raise OverflowError
  else Ok (SF2Prim (SFdiv prec emax (int_operand a) (int_operand b))).

(** [a / b] for a [float] and an [int]: the divisor is converted first,
    then tested for zero (an [int] converts to 0.0 only when it is 0). *)
Definition py_truediv_int (a : float) (b : Z) : result float :=
  match float_of_int b with
  | Raise e => Raise e
  | Ok divisor => if (b =? 0)%Z then Raise ZeroDivisionError else Ok (a / divisor)
  end.

(** [a * b] for a [float] and an [int]. *)
Definition py_mul_int (a : float) (b : Z) : result float :=
  match float_of_int b with
  | Raise e => Raise e
  | Ok factor => Ok (a * factor)
  end.

(** [a * b] for an [int] and a [float]. *)
Definition py_int_mul (a : Z) (b : float) : result float :=
  match float_of_int a with
  | Raise e => Raise e
  | Ok factor => Ok (factor * b)
  end.

End PyFloat.

(** ** The random source: [import random] *)

Module random.
Import Py.
Local Open Scope float_scope.
Local Open Scope py_scope.

(** The generator's state: what [random()] will return next, and the
    standard normal deviates [gauss] will scale next. *)
Record Rng : Type := mkRng {
  unit_tape : nat -> float;
  normal_tape : nat -> float
}.

Definition tape_tail {A} (t : nat -> A) : nat -> A := fun n => t (S n).

(** [random.random()] *)
Definition random : M Rng float :=
  fun g => (Ok (unit_tape g 0%nat),
            mkRng (tape_tail (unit_tape g)) (normal_tape g)).

(** [random.uniform(a, b)] is [a + (b - a) * random()]. *)
Definition uniform (a b : float) : M Rng float :=
  u <- random ;; ret (a + (b - a) * u).

(** [random.gauss(mu, sigma)] is [mu + z * sigma] for a standard normal
    deviate [z]. *)
Definition gauss (mu sigma : float) : M Rng float :=
  fun g => (Ok (mu + normal_tape g 0%nat * sigma),
            mkRng (unit_tape g) (tape_tail (normal_tape g))).

(** [random.sample(population, k)], by selection from a shrinking pool:
    each pick takes [pool[j]] for a random [j] below the pool's size and
    moves the pool's last item into the vacancy.  The random index is read
    off the [random()] tape as [int(random() * size)]. *)
Fixpoint sample_pool {A} (pool : list A) (k : nat) : M Rng (list A) :=
  match k with
  | O => ret []
  | S k' =>
      u <- random ;;
      j <- lift_result (PyFloat.py_int (u * PyFloat.nearest_float (Z.of_nat (length pool)))) ;;
      match nth_error pool (Z.to_nat j), rev pool with
      | Some picked, last :: _ =>
          let pool' :=
            firstn (length pool - 1)
                   (firstn (Z.to_nat j) pool ++ last :: skipn (S (Z.to_nat j)) pool) in
          rest <- sample_pool pool' k' ;;
          ret (picked :: rest)
      | _, _ => raise IndexError
      end
  end.

Definition sample {A} (population : list A) (k : nat) : M Rng (list A) :=
  if (length population <? k)%nat then raise ValueError
  else sample_pool population k.

(** A tape of [random()] values: each lies in [0.0, 1.0). *)
Definition unit_draws (t : nat -> float) : Prop :=
  forall n, (0 <=? t n) = true /\ (t n <? 1) = true.

End random.

(** ** Python [str] methods

    A [str] is a sequence of Unicode code points.  Where the code only
    counts words and characters the text is a list of code points; the
    configuration and the page's attributes are texts of code points below
    256, one [ascii] each. *)

Module PyStr.
Local Open Scope N_scope.

(** A [str] as its code points. *)
Definition str : Type := list N.

(** [c.isspace()] for a code point: the characters Unicode gives the
    bidirectional class WS, B or S or the category Zs. *)
Definition is_space_code (c : N) : bool :=
  ((0x09 <=? c) && (c <=? 0x0D))
  || ((0x1C <=? c) && (c <=? 0x20))
  || (c =? 0x85) || (c =? 0xA0) || (c =? 0x1680)
  || ((0x2000 <=? c) && (c <=? 0x200A))
  || (c =? 0x2028) || (c =? 0x2029) || (c =? 0x202F) || (c =? 0x205F)
  || (c =? 0x3000).

(** The same for a character below 256. *)
Definition is_space (c : ascii) : bool := is_space_code (N_of_ascii c).

(** [text.split()], scanning left to right; [word] is the word being read. *)
Fixpoint split_from (word : option str) (text : str) : list str :=
  match text with
  | [] =>
      match word with
      | Some w => [w]
      | None => []
      end
  | c :: rest =>
      if is_space_code c then
        match word with
        | Some w => w :: split_from None rest
        | None => split_from None rest
        end
      else
        match word with
        | Some w => split_from (Some (w ++ [c])%list) rest
        | None => split_from (Some [c]) rest
        end
  end.

Definition split (text : str) : list str := split_from None text.

(** [len(text)] *)
Definition len (text : str) : Z := Z.of_nat (length text).

(** The code points of a text written with characters below 256. *)
Definition of_string (s : string) : str := map N_of_ascii (list_ascii_of_string s).

End PyStr.

(** ** temporal_entropy.py *)

Module temporal_entropy.
Import Py PyFloat.
Local Open Scope float_scope.
Local Open Scope py_scope.

Inductive ActivityType : Type :=
| READING_WORD
| READING_SENTENCE
| READING_PARAGRAPH
| THINKING
| TYPING_CHAR
| TYPING_WORD
| MOUSE_MOVE
| CLICK_DELAY
| PAGE_LOAD
| FORM_FILL
| DECISION
| SCROLL_PAUSE.

Record TimingProfile : Type := mkTimingProfile {
  mean : float;
  std_dev : float;
  min_value : float;
  max_value : float
}.

(** [TemporalEntropy.PROFILES]: one entry per member of the enumeration. *)
Definition PROFILES (activity : ActivityType) : TimingProfile :=
  match activity with
  | READING_WORD => mkTimingProfile 0.24 0.08 0.10 0.50
  | READING_SENTENCE => mkTimingProfile 2.5 0.8 1.0 5.0
  | READING_PARAGRAPH => mkTimingProfile 8.0 2.5 3.0 15.0
  | THINKING => mkTimingProfile 1.5 0.5 0.5 3.0
  | DECISION => mkTimingProfile 2.5 1.0 0.8 5.0
  | TYPING_CHAR => mkTimingProfile 0.15 0.05 0.08 0.30
  | TYPING_WORD => mkTimingProfile 0.75 0.25 0.30 1.50
  | MOUSE_MOVE => mkTimingProfile 0.50 0.15 0.20 1.00
  | CLICK_DELAY => mkTimingProfile 0.15 0.05 0.05 0.40
  | PAGE_LOAD => mkTimingProfile 2.0 0.5 1.0 4.0
  | FORM_FILL => mkTimingProfile 1.5 0.5 0.5 3.0
  | SCROLL_PAUSE => mkTimingProfile 1.2 0.4 0.3 2.5
  end.

(** [TemporalEntropy.generate_delay(activity, multiplier, randomness_factor)] *)
Definition generate_delay (activity : ActivityType)
    (multiplier randomness_factor : float) : M random.Rng float :=
  let profile := PROFILES activity in
  delay <- random.gauss (mean profile * multiplier)
                        (std_dev profile * randomness_factor) ;;
  ret (py_max (min_value profile) (py_min (max_value profile) delay)).

(** [class TimingBudget] *)
Record TimingBudget : Type := mkTimingBudget {
  total_budget : float;
  remaining_budget : float;
  actions_taken : Z
}.

Definition TimingBudget_init (total_budget_seconds : float) : TimingBudget :=
  mkTimingBudget total_budget_seconds total_budget_seconds 0.

(** The body of [for _ in range(count)] in [allocate], [n] rounds of it:
    draw a delay, append it, charge it to the budget, count the action. *)
Fixpoint allocate_loop (activity : ActivityType) (scale : float) (n : nat)
    (delays : list float) (self : TimingBudget)
    : M random.Rng (list float * TimingBudget) :=
  match n with
  | O => ret (delays, self)
  | S n' =>
      delay <- generate_delay activity scale 1.0 ;;
      allocate_loop activity scale n' (delays ++ [delay])
        (mkTimingBudget (total_budget self)
                        (remaining_budget self - delay)
                        (actions_taken self + 1))
  end.

(** [TimingBudget.allocate(self, activity, count)]: the returned list and
    the object after the call. *)
Definition allocate (self : TimingBudget) (activity : ActivityType) (count : Z)
    : M random.Rng (list float * TimingBudget) :=
  if remaining_budget self <=? 0 then
    ret (repeat 0.0 (Z.to_nat count), self)
  else
    let profile := PROFILES activity in
    ideal_time <- lift_result (py_mul_int (mean profile) count) ;;
    scale <- (if remaining_budget self <? ideal_time
              then lift_result (py_truediv (remaining_budget self) ideal_time)
              else ret 1.0) ;;
    allocate_loop activity scale (Z.to_nat count) [] self.

(** [TimingBudget.get_remaining_time(self)] *)
Definition get_remaining_time (self : TimingBudget) : float :=
  py_max 0.0 (remaining_budget self).

(** [TemporalEntropy.generate_custom_delay(mean, std_dev, min_value, max_value)] *)
Definition generate_custom_delay (mean_ std_dev_ : float)
    (min_value_ max_value_ : option float) : M random.Rng float :=
  delay <- random.gauss mean_ std_dev_ ;;
  let delay :=
    match min_value_ with
    | Some lo => py_max lo delay
    | None => delay
    end in
  let delay :=
    match max_value_ with
    | Some hi => py_min hi delay
    | None => delay
    end in
  ret delay.

(** [TemporalEntropy.generate_reading_time(text, wpm)] *)
Definition generate_reading_time (text : PyStr.str) (wpm : Z) : M random.Rng float :=
  let word_count := Z.of_nat (length (PyStr.split text)) in
  if (word_count =? 0)%Z then ret 0.0
  else
    per_minute <- lift_result (py_int_truediv word_count wpm) ;;
    let base_time := per_minute * 60 in
    let variance := base_time * 0.2 in
    reading_time <- random.gauss base_time variance ;;
    min_time <- lift_result (py_int_mul word_count 0.15) ;;
    ret (py_max min_time reading_time).

(** [TemporalEntropy.generate_typing_time(text, wpm)] *)
Definition generate_typing_time (text : PyStr.str) (wpm : Z) : M random.Rng float :=
  let char_count := PyStr.len text in
  if (char_count =? 0)%Z then ret 0.0
  else
    words <- lift_result (py_int_truediv char_count 5) ;;
    per_minute <- lift_result (py_truediv_int words wpm) ;;
    let base_time := per_minute * 60 in
    let variance := base_time * 0.25 in
    typing_time <- random.gauss base_time variance ;;
    min_time <- lift_result (py_int_mul char_count 0.08) ;;
    ret (py_max min_time typing_time).

(** The loop of [burst_activity] over the indices still to come. *)
Fixpoint burst_activity_loop (activity : ActivityType) (count : Z)
    (burst_randomness : float) (indices : list nat) : M random.Rng (list float) :=
  match indices with
  | [] => ret []
  | i :: rest =>
      multiplier <-
        (if (Z.of_nat i =? 0)%Z || (Z.of_nat i =? count - 1)%Z
         then random.uniform 1.2 1.5
         else random.uniform 0.8 1.2) ;;
      delay <- generate_delay activity multiplier burst_randomness ;;
      delays <- burst_activity_loop activity count burst_randomness rest ;;
      ret (delay :: delays)
  end.

(** [TemporalEntropy.burst_activity(activity, count, burst_randomness)] *)
Definition burst_activity (activity : ActivityType) (count : Z)
    (burst_randomness : float) : M random.Rng (list float) :=
  burst_activity_loop activity count burst_randomness (seq 0 (Z.to_nat count)).

End temporal_entropy.

(** ** reading_mimicry.py *)

(** Strings as JavaScript and Python test them here. *)
Module Text.
Local Open Scope string_scope.

(** ASCII lower-casing: [str.lower()] on ASCII text, and the case folding
    of a regular expression's [i] flag (which never folds a non-ASCII
    character onto an ASCII one). *)
Definition lower_ascii (c : ascii) : ascii :=
  let n := nat_of_ascii c in
  if (65 <=? n)%nat && (n <=? 90)%nat then ascii_of_nat (n + 32) else c.

Fixpoint lower (s : string) : string :=
  match s with
  | EmptyString => EmptyString
  | String c s' => String (lower_ascii c) (lower s')
  end.

(** [pat in s] *)
Fixpoint contains (pat s : string) : bool :=
  prefix pat s ||
  match s with
  | EmptyString => false
  | String _ s' => contains pat s'
  end.

(** [s.match(/a1|a2|.../i) !== null] for literal alternatives. *)
Definition matches_any_ci (alternatives : list string) (s : string) : bool :=
  existsb (fun a => contains a (lower s)) alternatives.

End Text.

Module reading_mimicry.
Import Py PyFloat.
Local Open Scope string_scope.
Local Open Scope float_scope.
Local Open Scope py_scope.

(** [@dataclass class ViewportInfo] *)
Record ViewportInfo : Type := mkViewportInfo {
  width : Z;
  height : Z;
  scroll_y : Z;
  scroll_x : Z;
  max_scroll_y : Z;
  max_scroll_x : Z
}.

(** The parameters of the [__init__] that [@dataclass] generates. *)
Definition ViewportInfo_fields : list string :=
  ["width"; "height"; "scroll_y"; "scroll_x"; "max_scroll_y"; "max_scroll_x"].

(** [kwargs[name]] for a parameter without a default: a missing argument
    is a [TypeError]. *)
Fixpoint keyword_argument (kwargs : list (string * Z)) (name : string) : result Z :=
  match kwargs with
  | [] => Raise TypeError
  | (k, v) :: rest => if (k =? name)%string then Ok v else keyword_argument rest name
  end.

(** [ViewportInfo] called with the items of [kwargs] as keyword
    arguments: a keyword that names no parameter is a
    [TypeError] ("got an unexpected keyword argument"), and so is a
    parameter left without an argument. *)
Definition ViewportInfo_init (kwargs : list (string * Z)) : result ViewportInfo :=
  if forallb (fun kv => existsb (String.eqb (fst kv)) ViewportInfo_fields) kwargs then
    match keyword_argument kwargs "width", keyword_argument kwargs "height",
          keyword_argument kwargs "scroll_y", keyword_argument kwargs "scroll_x",
          keyword_argument kwargs "max_scroll_y", keyword_argument kwargs "max_scroll_x" with
    | Ok w, Ok h, Ok sy, Ok sx, Ok my, Ok mx => Ok (mkViewportInfo w h sy sx my mx)
    | _, _, _, _, _, _ => Raise TypeError
    end
  else Raise TypeError.

(** *** What the page's JavaScript reads of an element

    [getBoundingClientRect()], and [getComputedStyle()] with its numeric
    properties already passed through [parseFloat] / [parseInt] (NaN when
    the text does not parse, as for [z-index: auto]). *)
Record DOMRect : Type := mkDOMRect {
  rect_x : float;
  rect_y : float;
  rect_width : float;
  rect_height : float;
  rect_left : float;
  rect_top : float;
  rect_right : float;
  rect_bottom : float
}.

Record ComputedStyle : Type := mkComputedStyle {
  style_display : string;
  style_visibility : string;
  style_opacity : float;      (* parseFloat(style.opacity) *)
  style_zIndex : float;       (* parseInt(style.zIndex) *)
  style_position : string;
  style_left : float;         (* parseInt(style.left) *)
  style_top : float           (* parseInt(style.top) *)
}.

Record Element : Type := mkElement {
  style : ComputedStyle;
  rect : DOMRect;
  className : string;
  id : string
}.

Record Window : Type := mkWindow {
  innerWidth : float;
  innerHeight : float
}.

(** JavaScript [x || 0] on a number: 0, -0 and NaN are falsy. *)
Definition js_or_zero (x : float) : float :=
  if (x =? 0) || negb (x =? x) then 0 else x.

(** *** The Playwright page, as the code drives it

    Every method of the page or of an element handle is one call across
    the driver's transport, awaited by the caller; the page says which of
    the awaits fail, and with what.  [events] is the trace of what the
    calls did to the browser. *)
Record ElementHandle : Type := mkElementHandle {
  eh_is_visible : bool;              (* element.is_visible() *)
  eh_id : option string;             (* element.get_attribute('id') *)
  eh_class : option string           (* element.get_attribute('class') *)
}.

Inductive Event : Type :=
| ScrollTo (y : Z)                   (* window.scrollTo(0, y) *)
| WaitForTimeout (ms : Z)            (* page.wait_for_timeout(ms) *)
| Hover (selector : string) (element : ElementHandle).
                                     (* element.hover(), found under selector *)

Record Page : Type := mkPage {
  window : Window;
  dom : string -> option Element;             (* what query_selector finds *)
  dom_all : string -> list ElementHandle;     (* what query_selector_all finds *)
  viewport_at : nat -> ViewportInfo;          (* the window's metrics at the n-th call *)
  faults : nat -> option exn;                 (* the exception of the n-th await *)
  calls : nat;
  events : list Event
}.

(** One call across the transport: it is counted, it fails if the page
    says so, and otherwise it answers [f page] and leaves [happened] in
    the trace. *)
Definition api_call {A} (f : Page -> A) (happened : list Event) : M Page A :=
  fun p =>
    let counted ev :=
      mkPage (window p) (dom p) (dom_all p) (viewport_at p) (faults p)
             (S (calls p)) (events p ++ ev) in
    match faults p (calls p) with
    | Some e => (Raise e, counted [])
    | None => (Ok (f p), counted happened)
    end.

(** [await page.query_selector(selector)] *)
Definition query_selector (selector : string) : M Page (option Element) :=
  api_call (fun p => dom p selector) [].

(** [await page.evaluate(script, element)] for a script of one argument. *)
Definition evaluate {A} (script : Window -> option Element -> A)
    (element : Element) : M Page A :=
  api_call (fun p => script (window p) (Some element)) [].

Module HoneypotDetector.

(** *** JS_VISIBILITY_CHECK *)
Record VisibilityChecks : Type := mkVisibilityChecks {
  chk_display : bool;
  chk_visibility : bool;
  chk_opacity : bool;
  chk_zIndex : float;
  chk_width : bool;
  chk_height : bool;
  chk_inViewport : bool
}.

(** The value of the script: [false] for a missing element, the object
    of checks otherwise. *)
Inductive VisibilityValue : Type :=
| VisFalse
| VisObject (checks : VisibilityChecks).

Definition JS_VISIBILITY_CHECK (window : Window) (element : option Element)
    : VisibilityValue :=
  match element with
  | None => VisFalse
  | Some element =>
      let style := style element in
      let rect := rect element in
      VisObject {|
        chk_display := negb (style_display style =? "none")%string;
        chk_visibility := negb (style_visibility style =? "hidden")%string;
        chk_opacity := 0 <? style_opacity style;
        chk_zIndex := js_or_zero (style_zIndex style);
        chk_width := 0 <? rect_width rect;
        chk_height := 0 <? rect_height rect;
        chk_inViewport := (rect_top rect <? innerHeight window)
                          && (0 <? rect_bottom rect)
      |}
  end.

(** *** JS_HONEYPOT_DETECTION *)
Record HoneypotIndicators : Type := mkHoneypotIndicators {
  displayNone : bool;
  visibilityHidden : bool;
  opacityZero : bool;
  offScreenLeft : bool;
  offScreenTop : bool;
  offScreenRight : bool;
  negativeZIndex : bool;
  zeroWidth : bool;
  zeroHeight : bool;
  tinyElement : bool;
  suspiciousClass : bool;
  suspiciousId : bool;
  fixedNegative : bool
}.

(** [Object.values(honeypotIndicators)], in insertion order. *)
Definition indicator_values (i : HoneypotIndicators) : list bool :=
  [ displayNone i; visibilityHidden i; opacityZero i;
    offScreenLeft i; offScreenTop i; offScreenRight i;
    negativeZIndex i; zeroWidth i; zeroHeight i; tinyElement i;
    suspiciousClass i; suspiciousId i; fixedNegative i ].

Record HoneypotReport : Type := mkHoneypotReport {
  isHoneypot : bool;
  indicators : HoneypotIndicators;
  rep_zIndex : float;
  rep_visibility : string;
  rep_opacity : float;
  rep_display : string;
  rep_rect : float * float * float * float      (* x, y, width, height *)
}.

(** The value of the script: [true] for a missing element, the report
    otherwise. *)
Inductive HoneypotValue : Type :=
| HpTrue
| HpObject (report : HoneypotReport).

(** [/hidden|trap|honeypot|bot-trap/i] *)
Definition trap_lexicon : list string :=
  ["hidden"; "trap"; "honeypot"; "bot-trap"].

Definition honeypotIndicators (window : Window) (element : Element)
    : HoneypotIndicators :=
  let style := style element in
  let rect := rect element in
  {| displayNone := (style_display style =? "none")%string;
     visibilityHidden := (style_visibility style =? "hidden")%string;
     opacityZero := style_opacity style =? 0;
     offScreenLeft := rect_left rect <? -100;
     offScreenTop := rect_top rect <? -100;
     offScreenRight := innerWidth window + 100 <? rect_right rect;
     negativeZIndex := style_zIndex style <? 0;
     zeroWidth := rect_width rect =? 0;
     zeroHeight := rect_height rect =? 0;
     tinyElement := (rect_width rect <? 2) && (rect_height rect <? 2);
     suspiciousClass := Text.matches_any_ci trap_lexicon (className element);
     suspiciousId := Text.matches_any_ci trap_lexicon (id element);
     fixedNegative := (style_position style =? "fixed")%string
                      && ((style_left style <? -50) || (style_top style <? -50))
  |}.

Definition JS_HONEYPOT_DETECTION (window : Window) (element : option Element)
    : HoneypotValue :=
  match element with
  | None => HpTrue
  | Some element =>
      let style := style element in
      let rect := rect element in
      let honeypotIndicators := honeypotIndicators window element in
      let isHoneypot :=
        existsb (fun v => Bool.eqb v true) (indicator_values honeypotIndicators) in
      HpObject {|
        isHoneypot := isHoneypot;
        indicators := honeypotIndicators;
        rep_zIndex := js_or_zero (style_zIndex style);
        rep_visibility := style_visibility style;
        rep_opacity := style_opacity style;
        rep_display := style_display style;
        rep_rect := (rect_x rect, rect_y rect, rect_width rect, rect_height rect)
      |}
  end.

(** The second component of the returned tuples: [{"error": msg}] or
    the value the script returned. *)
Inductive Details (V : Type) : Type :=
| error (msg : string)
| value (v : V).
Arguments error {V} msg.
Arguments value {V} v.

(** [result['isHoneypot']]: a bare boolean is not subscriptable. *)
Definition get_isHoneypot (v : HoneypotValue) : result bool :=
  match v with
  | HpObject report => Ok (isHoneypot report)
  | HpTrue => Raise TypeError
  end.

(** [HoneypotDetector.is_element_safe(page, selector)] *)
Definition is_element_safe (selector : string)
    : M Page (bool * Details HoneypotValue) :=
  try_except
    (element <- query_selector selector ;;
     match element with
     | None => ret (false, error "Element not found")
     | Some element =>
         result <- evaluate JS_HONEYPOT_DETECTION element ;;
         is_honeypot <- lift_result (get_isHoneypot result) ;;
         let is_safe := negb is_honeypot in
         ret (is_safe, value result)
     end)
    (fun e => ret (false, error (str_exn e))).

(** [checks[...]]: a bare boolean is not subscriptable. *)
Definition get_checks (v : VisibilityValue) : result VisibilityChecks :=
  match v with
  | VisObject c => Ok c
  | VisFalse => Raise TypeError
  end.

(** [HoneypotDetector.is_element_visible(page, selector)] *)
Definition is_element_visible (selector : string)
    : M Page (bool * Details VisibilityValue) :=
  try_except
    (element <- query_selector selector ;;
     match element with
     | None => ret (false, error "Element not found")
     | Some element =>
         checks <- evaluate JS_VISIBILITY_CHECK element ;;
         c <- lift_result (get_checks checks) ;;
         let is_visible :=
           forallb (fun b => b)
             [ chk_display c; chk_visibility c; chk_opacity c;
               chk_width c; chk_height c; 0 <=? chk_zIndex c ] in
         ret (is_visible, value checks)
     end)
    (fun e => ret (false, error (str_exn e))).

End HoneypotDetector.

(** *** class ScrollBehavior

    The store of a scrolling session: the shared generator of [random],
    the page, and the object's own [current_position]. *)
Record World : Type := mkWorld {
  rng : random.Rng;
  page : Page;
  current_position : Z
}.

Definition on_rng {A} (m : M random.Rng A) : M World A :=
  zoom rng (fun g w => mkWorld g (page w) (current_position w)) m.

Definition on_page {A} (m : M Page A) : M World A :=
  zoom page (fun p w => mkWorld (rng w) p (current_position w)) m.

Definition set_current_position (y : Z) : M World unit :=
  fun w => (Ok tt, mkWorld (rng w) (page w) y).

Module ScrollBehavior.

(** The object the script of [get_viewport_info] returns, as the [dict]
    Playwright hands to Python: the keys are the script's. *)
Definition viewport_script (p : Page) : list (string * Z) :=
  let v := viewport_at p (calls p) in
  [ ("width", width v); ("height", height v);
    ("scrollY", scroll_y v); ("scrollX", scroll_x v);
    ("maxScrollY", max_scroll_y v); ("maxScrollX", max_scroll_x v) ].

(** [ScrollBehavior.get_viewport_info(self)] *)
Definition get_viewport_info : M World ViewportInfo :=
  info <- on_page (api_call viewport_script []) ;;
  lift_result (ViewportInfo_init info).

(** [await self.page.wait_for_timeout(int(seconds * 1000))] *)
Definition wait_for_seconds (seconds : float) : M World unit :=
  ms <- lift_result (py_int (seconds * 1000)) ;;
  on_page (api_call (fun _ => tt) [WaitForTimeout ms]).

Definition interesting_selectors : list string :=
  ["h1"; "h2"; "h3"; "img[src]"; "a[href]"; "button"; "article"; ".card"; ".post"].

(** [attr and any(x in attr.lower() for x in ['hidden', 'trap', 'honeypot'])] *)
Definition suspicious_attribute (attr : option string) : bool :=
  match attr with
  | None => false
  | Some a =>
      negb (a =? "")%string
      && existsb (fun x => Text.contains x (Text.lower a)) ["hidden"; "trap"; "honeypot"]
  end.

(** The inner loop of [_hover_interesting_content] over the sampled
    elements of one selector; [true] when it hovered and returned. *)
Fixpoint hover_first (selector : string) (elements : list ElementHandle)
    : M World bool :=
  match elements with
  | [] => ret false
  | element :: rest =>
      is_visible <- on_page (api_call (fun _ => eh_is_visible element) []) ;;
      if negb is_visible then hover_first selector rest
      else
        element_id <- on_page (api_call (fun _ => eh_id element) []) ;;
        element_class <- on_page (api_call (fun _ => eh_class element) []) ;;
        if suspicious_attribute element_id then hover_first selector rest
        else if suspicious_attribute element_class then hover_first selector rest
        else
          hovered <-
            try_except_all
              (on_page (api_call (fun _ => tt) [Hover selector element]) ;;;
               hover_time <- on_rng (temporal_entropy.generate_delay
                                       temporal_entropy.THINKING 1.0 1.0) ;;
               wait_for_seconds hover_time ;;;
               ret true)
              (ret false) ;;
          if hovered : bool then ret true else hover_first selector rest
  end.

(** The outer loop over the selectors. *)
Fixpoint hover_selectors (selectors : list string) : M World unit :=
  match selectors with
  | [] => ret tt
  | selector :: rest =>
      elements <- on_page (api_call (fun p => dom_all p selector) []) ;;
      match elements with
      | [] => hover_selectors rest
      | _ =>
          picked <- on_rng (random.sample elements (Nat.min 3 (length elements))) ;;
          done <- hover_first selector picked ;;
          if done : bool then ret tt else hover_selectors rest
      end
  end.

(** [ScrollBehavior._hover_interesting_content(self)] *)
Definition _hover_interesting_content : M World unit :=
  try_except (hover_selectors interesting_selectors) (fun _ => ret tt).

(** The number of scroll actions when [num_scrolls is None]. *)
Definition default_num_scrolls (viewport : ViewportInfo) : M World Z :=
  let viewport_height := height viewport in
  let total_height := max_scroll_y viewport in
  ratio <- lift_result (py_int_truediv total_height viewport_height) ;;
  u <- on_rng (random.uniform 0.7 1.0) ;;
  num_scrolls <- lift_result (py_int (ratio * u)) ;;
  ret (Z.max 3 num_scrolls).

(** The reading pause after a scroll that did not reach the bottom. *)
Definition reading_pause : M World unit :=
  r <- on_rng random.random ;;
  pause <- on_rng (if r <? 0.3
                   then temporal_entropy.generate_delay
                          temporal_entropy.READING_PARAGRAPH 1.0 1.0
                   else temporal_entropy.generate_delay
                          temporal_entropy.SCROLL_PAUSE 1.0 1.0) ;;
  wait_for_seconds pause ;;;
  r' <- on_rng random.random ;;
  if r' <? 0.4 then _hover_interesting_content else ret tt.

(** [for i in range(num_scrolls)], [n] rounds to go. *)
Fixpoint burst_scroll_loop (reading_behavior : bool) (n : nat) : M World unit :=
  match n with
  | O => ret tt
  | S n' =>
      viewport <- get_viewport_info ;;
      u <- on_rng (random.uniform 0.6 1.2) ;;
      scaled <- lift_result (py_int_mul (height viewport) u) ;;
      scroll_amount <- lift_result (py_int scaled) ;;
      w <- get ;;
      let new_position :=
        Z.min (current_position w + scroll_amount) (max_scroll_y viewport) in
      on_page (api_call (fun _ => tt) [ScrollTo new_position]) ;;;
      set_current_position new_position ;;;
      if (max_scroll_y viewport <=? new_position)%Z then ret tt
      else
        (if reading_behavior then reading_pause else ret tt) ;;;
        burst_scroll_loop reading_behavior n'
  end.

(** [ScrollBehavior.burst_scroll(self, num_scrolls, reading_behavior)] *)
Definition burst_scroll (num_scrolls : option Z) (reading_behavior : bool)
    : M World unit :=
  viewport <- get_viewport_info ;;
  num_scrolls <- match num_scrolls with
                 | None => default_num_scrolls viewport
                 | Some n => ret n
                 end ;;
  burst_scroll_loop reading_behavior (Z.to_nat num_scrolls).

End ScrollBehavior.

(** *** class NavigationBehavior

    The navigator acts on the page through the scroller's store; what it
    adds to the trace is kept beside it. *)
Inductive Action : Type :=
| ScrollIntoView (selector : string)   (* element.scroll_into_view_if_needed() *)
| Click (selector : string)            (* page.click(selector) *)
| Sleep (seconds : float).             (* asyncio.sleep(seconds) *)

Record Session : Type := mkSession {
  world : World;
  actions : list Action
}.

Definition on_world {A} (m : M World A) : M Session A :=
  zoom world (fun w s => mkSession w (actions s)) m.

(** One call across the transport that, when it succeeds, leaves [a] in
    the navigator's trace. *)
Definition act (a : Action) : M Session unit :=
  on_world (on_page (api_call (fun _ => tt) [])) ;;;
  (fun s => (Ok tt, mkSession (world s) (actions s ++ [a]))).

Module NavigationBehavior.

(** [await self.page.wait_for_timeout(int(generate_delay(activity) * 1000))] *)
Definition pause_for (activity : temporal_entropy.ActivityType) : M Session unit :=
  delay <- on_world (on_rng (temporal_entropy.generate_delay activity 1.0 1.0)) ;;
  on_world (ScrollBehavior.wait_for_seconds delay).

(** [NavigationBehavior.safe_click(self, selector, check_honeypot)] *)
Definition safe_click (selector : string) (check_honeypot : bool) : M Session bool :=
  try_except
    (is_safe <-
       (if check_honeypot
        then checked <- on_world (on_page (HoneypotDetector.is_element_safe selector)) ;;
             ret (fst checked)
        else ret true) ;;
     if negb is_safe then ret false
     else
       checked <- on_world (on_page (HoneypotDetector.is_element_visible selector)) ;;
       let is_visible := fst checked in
       if negb is_visible then ret false
       else
         element <- on_world (on_page (query_selector selector)) ;;
         match element with
         | Some _ =>
             act (ScrollIntoView selector) ;;;
             pause_for temporal_entropy.SCROLL_PAUSE
         | None => ret tt
         end ;;;
         pause_for temporal_entropy.DECISION ;;;
         act (Click selector) ;;;
         pause_for temporal_entropy.PAGE_LOAD ;;;
         ret true)
    (fun _ => ret false).

(** [NavigationBehavior.read_and_explore(self, max_scrolls)] *)
Definition read_and_explore (max_scrolls : option Z) : M World unit :=
  initial_pause <- on_rng (temporal_entropy.generate_delay
                             temporal_entropy.THINKING 1.0 1.0) ;;
  ScrollBehavior.wait_for_seconds initial_pause ;;;
  ScrollBehavior.burst_scroll max_scrolls true.

End NavigationBehavior.

End reading_mimicry.

(** ** kinematic_mouse.py, over the real numbers

    The planner's arithmetic is read exactly: a sum, product, quotient,
    square root or logarithm is the real number, not its binary64 rounding.
    What Python raises is kept: the [OverflowError] of a power beyond the
    binary64 range, as the [ZeroDivisionError] and [ValueError] of division
    and logarithm.  The properties are stated for coordinates far inside
    that range, where no intermediate result of the code leaves it. *)

(** Python builtins and [math] on exact reals. *)
Module PyReal.
Import Py.
Local Open Scope R_scope.

(** The least magnitude that binary64 rounds to infinity: half a unit in
    the last place beyond the largest float, [sys.float_info.max]. *)
Definition float_overflow : R := IZR (2 ^ 1024 - 2 ^ 970).

(** [x ** n] and [pow(x, n)] for a positive [int] [n]: the power, or
    [OverflowError] when it rounds to infinity. *)
Definition float_pow (x : R) (n : nat) : result R :=
  if Rlt_dec (Rabs (x ^ n)) float_overflow then Ok (x ^ n) else Raise OverflowError.

Definition py_min (a b : R) : R := if Rlt_dec b a then b else a.
Definition py_max (a b : R) : R := if Rlt_dec a b then b else a.

(** [int(x)]: truncation toward zero. *)
Definition py_int (x : R) : Z :=
  if Rle_dec 0 x then Int_part x else (- Int_part (- x))%Z.

(** [a / b]: a zero divisor raises. *)
Definition py_truediv (a b : R) : result R :=
  if Req_dec_T b 0 then Raise ZeroDivisionError else Ok (a / b).

(** [math.log2(x)]: a non-positive argument raises. *)
Definition log2 (x : R) : R := ln x / ln 2.
Definition math_log2 (x : R) : result R :=
  if Rlt_dec 0 x then Ok (log2 x) else Raise ValueError.

End PyReal.

(** The random source again, with real-valued draws. *)
Module real_random.
Import Py.
Local Open Scope R_scope.
Local Open Scope py_scope.

Record Rng : Type := mkRng {
  unit_tape : nat -> R;
  normal_tape : nat -> R
}.

Definition tape_tail {A} (t : nat -> A) : nat -> A := fun n => t (S n).

Definition random : M Rng R :=
  fun g => (Ok (unit_tape g 0%nat),
            mkRng (tape_tail (unit_tape g)) (normal_tape g)).

Definition uniform (a b : R) : M Rng R :=
  u <- random ;; ret (a + (b - a) * u).

Definition gauss (mu sigma : R) : M Rng R :=
  fun g => (Ok (mu + normal_tape g 0%nat * sigma),
            mkRng (unit_tape g) (tape_tail (normal_tape g))).

(** [random.choice(seq)], the index read off the [random()] tape. *)
Definition choice {A} (seq : list A) : M Rng A :=
  u <- random ;;
  match nth_error seq (Z.to_nat (PyReal.py_int (u * INR (length seq)))) with
  | Some a => ret a
  | None => raise IndexError
  end.

(** Every [random()] value lies in [0.0, 1.0). *)
Definition unit_draws (g : Rng) : Prop :=
  forall n, 0 <= unit_tape g n < 1.

End real_random.

Module kinematic_mouse.
Import Py PyReal.
Local Open Scope R_scope.
Local Open Scope py_scope.

(** [@dataclass class Point] *)
Record Point : Type := mkPoint { x : R; y : R }.

Definition distance_to (self other : Point) : result R :=
  match float_pow (x self - x other) 2 with
  | Raise e => Raise e
  | Ok dx2 =>
      match float_pow (y self - y other) 2 with
      | Raise e => Raise e
      | Ok dy2 => Ok (sqrt (dx2 + dy2))
      end
  end.

(** [for a in items: out.append(f(a))] *)
Fixpoint for_each {S A B} (f : A -> M S B) (items : list A) : M S (list B) :=
  match items with
  | [] => ret []
  | a :: rest => b <- f a ;; bs <- for_each f rest ;; ret (b :: bs)
  end.

Module BezierCurve.

Definition calculate_point (t : R) (p0 p1 p2 p3 : Point) : Point :=
  let u := 1 - t in
  let tt := t * t in
  let uu := u * u in
  let uuu := uu * u in
  let ttt := tt * t in
  let x' := uuu * x p0 + 3 * uu * t * x p1 + 3 * u * tt * x p2 + ttt * x p3 in
  let y' := uuu * y p0 + 3 * uu * t * y p1 + 3 * u * tt * y p2 + ttt * y p3 in
  mkPoint x' y'.

Definition generate_control_points (start end_ : Point) (randomness : R)
    : M real_random.Rng (Point * Point) :=
  let dx := x end_ - x start in
  let dy := y end_ - y start in
  dx2 <- lift_result (float_pow dx 2) ;;
  dy2 <- lift_result (float_pow dy 2) ;;
  let distance := sqrt (dx2 + dy2) in
  let perp_x := - dy in
  let perp_y := dx in
  '(perp_x, perp_y) <-
     (if Rlt_dec 0 distance
      then px <- lift_result (py_truediv perp_x distance) ;;
           py <- lift_result (py_truediv perp_y distance) ;;
           ret (px, py)
      else ret (perp_x, perp_y)) ;;
  depth_draw <- real_random.uniform (1/10) (3/10) ;;
  let curve_depth := distance * depth_draw * randomness in
  offset_direction <- real_random.choice [-1; 1] ;;
  cp1_offset_ratio <- real_random.uniform (2/10) (4/10) ;;
  j1x <- real_random.uniform (5/10) 1 ;;
  j1y <- real_random.uniform (5/10) 1 ;;
  let cp1 :=
    mkPoint (x start + dx * cp1_offset_ratio
             + perp_x * curve_depth * offset_direction * j1x)
            (y start + dy * cp1_offset_ratio
             + perp_y * curve_depth * offset_direction * j1y) in
  cp2_offset_ratio <- real_random.uniform (6/10) (8/10) ;;
  j2x <- real_random.uniform (5/10) 1 ;;
  j2y <- real_random.uniform (5/10) 1 ;;
  let cp2 :=
    mkPoint (x start + dx * cp2_offset_ratio
             + perp_x * curve_depth * offset_direction * j2x)
            (y start + dy * cp2_offset_ratio
             + perp_y * curve_depth * offset_direction * j2y) in
  ret (cp1, cp2).

End BezierCurve.

Module FittsLaw.

Definition A_CONSTANT : R := 0.
Definition B_CONSTANT : R := 150.

Definition calculate_movement_time (distance target_width : R)
    : M real_random.Rng R :=
  let target_width := if Rle_dec target_width 0 then 1 else target_width in
  ratio <- lift_result (py_truediv distance target_width) ;;
  index_of_difficulty <- lift_result (math_log2 (ratio + 1)) ;;
  let movement_time := A_CONSTANT + B_CONSTANT * index_of_difficulty in
  randomness <- real_random.uniform (8/10) (12/10) ;;
  ret (movement_time * randomness).

End FittsLaw.

Module MicroTremor.

Definition apply_tremor (point : Point) (intensity : R)
    : M real_random.Rng Point :=
  tremor_x <- real_random.gauss 0 intensity ;;
  tremor_y <- real_random.gauss 0 intensity ;;
  ret (mkPoint (x point + tremor_x) (y point + tremor_y)).

End MicroTremor.

Module HumanMouseMovement.

(** The attributes [__init__] sets. *)
Record t : Type := mk {
  overshoot_probability : R;
  min_steps : Z;
  max_steps : Z
}.

Definition init : t := mk (10/100) 10 100.

(** A sample of a path: [(x, y, timestamp_ms)]. *)
Definition Sample : Type := (R * R * R)%type.
Definition timestamp (s : Sample) : R := snd s.

Definition _ease_in_out_cubic (t : R) : result R :=
  if Rlt_dec t (5/10) then Ok (4 * t * t * t)
  else
    match float_pow (-2 * t + 2) 3 with
    | Raise e => Raise e
    | Ok cube => Ok (1 - cube / 2)
    end.

(** The body of the loop of [_generate_normal_path] at index [i]. *)
Definition normal_path_step (start cp1 cp2 end_ : Point)
    (movement_time_ms : R) (num_steps : Z) (i : nat)
    : M real_random.Rng Sample :=
  t <- lift_result (py_truediv (INR i) (IZR num_steps)) ;;
  time_progress <- lift_result (_ease_in_out_cubic t) ;;
  let timestamp := movement_time_ms * time_progress in
  let point := BezierCurve.calculate_point t start cp1 cp2 end_ in
  let tremor_intensity :=
    if (0 <? Z.of_nat i)%Z && (Z.of_nat i <? num_steps)%Z then 3/10 else 1/10 in
  point <- MicroTremor.apply_tremor point tremor_intensity ;;
  ret (x point, y point, timestamp).

Definition _generate_normal_path (self : t) (start end_ : Point)
    (movement_time_ms : R) : M real_random.Rng (list Sample) :=
  '(cp1, cp2) <- BezierCurve.generate_control_points start end_ (3/10) ;;
  distance <- lift_result (distance_to start end_) ;;
  let num_steps :=
    py_int (py_max (IZR (min_steps self))
                   (py_min (IZR (max_steps self)) (distance / 10))) in
  for_each (normal_path_step start cp1 cp2 end_ movement_time_ms num_steps)
           (seq 0 (Z.to_nat (num_steps + 1))).

(** [path[-1][2]] *)
Definition last_timestamp (path : list Sample) : result R :=
  match rev path with
  | [] => Raise IndexError
  | s :: _ => Ok (timestamp s)
  end.

Definition _generate_overshoot_path (self : t) (start end_ : Point)
    (movement_time_ms : R) : M real_random.Rng (list Sample) :=
  overshoot_ratio <- real_random.uniform (105/100) (115/100) ;;
  let dx := x end_ - x start in
  let dy := y end_ - y start in
  let overshoot_point :=
    mkPoint (x start + dx * overshoot_ratio) (y start + dy * overshoot_ratio) in
  path1 <- _generate_normal_path self start overshoot_point
             (movement_time_ms * (7/10)) ;;
  path2 <- _generate_normal_path self overshoot_point end_
             (movement_time_ms * (3/10)) ;;
  last <- lift_result (last_timestamp path1) ;;
  let path2_adjusted :=
    map (fun s : Sample => let '(x, y, t) := s in (x, y, t + last)) path2 in
  ret (path1 ++ tl path2_adjusted).

Definition generate_path (self : t) (start end_ : R * R)
    (target_size : option R) : M real_random.Rng (list Sample) :=
  let start_point := mkPoint (fst start) (snd start) in
  let end_point := mkPoint (fst end_) (snd end_) in
  distance <- lift_result (distance_to start_point end_point) ;;
  let target_size :=
    match target_size with
    | None => py_max 10 (distance * (5/100))
    | Some s => s
    end in
  base_movement_time <- FittsLaw.calculate_movement_time distance target_size ;;
  r <- real_random.random ;;
  let should_overshoot := Rlt_dec r (overshoot_probability self) in
  if should_overshoot
  then _generate_overshoot_path self start_point end_point base_movement_time
  else _generate_normal_path self start_point end_point base_movement_time.

End HumanMouseMovement.

End kinematic_mouse.

(** ** kinematic_mouse.py: class PlaywrightMouseController *)

Module PlaywrightMouseController.
Import Py PyReal real_random kinematic_mouse.
Local Open Scope R_scope.
Local Open Scope py_scope.

(** What [element.bounding_box()] returns for a visible element. *)
Record Box : Type := mkBox {
  box_x : R;
  box_y : R;
  box_width : R;
  box_height : R
}.

Inductive MouseEvent : Type :=
| MouseMove (x y : R)          (* page.mouse.move(x, y) *)
| WaitMs (ms : Z).             (* page.wait_for_timeout(ms) *)

(** The page as the controller meets it.  [boxes] says what a selector
    finds: nothing, an element without a bounding box, or an element with
    one.  [mouseX] and [mouseY] are the two properties the controller keeps
    on [window], undefined until it sets them.  Every method called on the
    page, the element or the mouse is one call across the transport, which
    [mfaults] may fail. *)
Record MousePage : Type := mkMousePage {
  boxes : string -> option (option Box);
  mouseX : option R;
  mouseY : option R;
  mfaults : nat -> option exn;
  mcalls : nat;
  trace : list MouseEvent
}.

(** The controller's store: the random source and the page. *)
Record Desk : Type := mkDesk {
  rng : Rng;
  mpage : MousePage
}.

Definition on_rng {A} (m : M Rng A) : M Desk A :=
  zoom rng (fun g d => mkDesk g (mpage d)) m.

(** One call across the transport: counted, failing if the page says so,
    otherwise answering [f page] and leaving the page as [effect] makes
    it. *)
Definition mcall {A} (f : MousePage -> A) (effect : MousePage -> MousePage)
    : M Desk A :=
  fun d =>
    let p := mpage d in
    let counted q :=
      mkMousePage (boxes q) (mouseX q) (mouseY q) (mfaults q) (S (mcalls p)) (trace q) in
    match mfaults p (mcalls p) with
    | Some e => (Raise e, mkDesk (rng d) (counted p))
    | None => (Ok (f p), mkDesk (rng d) (counted (effect p)))
    end.

Definition unchanged (p : MousePage) : MousePage := p.

Definition traced (ev : MouseEvent) (p : MousePage) : MousePage :=
  mkMousePage (boxes p) (mouseX p) (mouseY p) (mfaults p) (mcalls p) (trace p ++ [ev]).

(** [window.mouseX = x; window.mouseY = y;] *)
Definition tracked (x y : R) (p : MousePage) : MousePage :=
  mkMousePage (boxes p) (Some x) (Some y) (mfaults p) (mcalls p) (trace p).

(** JavaScript's [v || 0] for a number or [undefined]. *)
Definition js_or_zero (v : option R) : R :=
  match v with
  | Some a => a
  | None => 0
  end.

(** [a == b] on two samples: tuples are equal when their items are. *)
Definition same_sample (a b : HumanMouseMovement.Sample) : bool :=
  let '(x1, y1, t1) := a in
  let '(x2, y2, t2) := b in
  if Req_dec_T x1 x2 then
    if Req_dec_T y1 y2 then
      if Req_dec_T t1 t2 then true else false
    else false
  else false.

(** [path.index(sample)]: the first position holding an equal tuple. *)
Fixpoint index (sample : HumanMouseMovement.Sample)
    (path : list HumanMouseMovement.Sample) : result nat :=
  match path with
  | [] => Raise ValueError
  | s :: rest =>
      if same_sample s sample then Ok O
      else match index sample rest with
           | Ok i => Ok (S i)
           | Raise e => Raise e
           end
  end.

(** [path[i]] for an index that is not negative. *)
Definition item (path : list HumanMouseMovement.Sample) (i : nat)
    : result HumanMouseMovement.Sample :=
  match nth_error path i with
  | Some s => Ok s
  | None => Raise IndexError
  end.

(** The body of the loop of [move_to_element] for one sample of [path]. *)
Definition move_step (path : list HumanMouseMovement.Sample)
    (sample : HumanMouseMovement.Sample) : M Desk unit :=
  let '(x, y, timestamp) := sample in
  mcall (fun _ => tt) (traced (MouseMove x y)) ;;;
  mcall (fun _ => tt) (tracked x y) ;;;
  i <- lift_result (index (x, y, timestamp) path) ;;
  if (Z.of_nat i <? Z.of_nat (length path) - 1)%Z then
    j <- lift_result (index (x, y, timestamp) path) ;;
    next <- lift_result (item path (j + 1)) ;;
    let next_timestamp := HumanMouseMovement.timestamp next in
    let delay_ms := next_timestamp - timestamp in
    mcall (fun _ => tt) (traced (WaitMs (py_int delay_ms)))
  else ret tt.

(** [PlaywrightMouseController.move_to_element(self, selector,
    duration_override)] *)
Definition move_to_element (selector : string) (duration_override : option R)
    : M Desk unit :=
  element <- mcall (fun p => boxes p selector) unchanged ;;
  match element with
  | None => raise ValueError
  | Some handle =>
      box <- mcall (fun _ => handle) unchanged ;;
      match box with
      | None => raise ValueError
      | Some box =>
          jitter_x <- on_rng (uniform (-5) 5) ;;
          let target_x := box_x box + box_width box / 2 + jitter_x in
          jitter_y <- on_rng (uniform (-5) 5) ;;
          let target_y := box_y box + box_height box / 2 + jitter_y in
          current_position <-
            mcall (fun p => (js_or_zero (mouseX p), js_or_zero (mouseY p))) unchanged ;;
          path <- on_rng (HumanMouseMovement.generate_path
                            HumanMouseMovement.init
                            current_position (target_x, target_y)
                            (Some (py_min (box_width box) (box_height box)))) ;;
          for_each (move_step path) path ;;;
          ret tt
      end
  end.

End PlaywrightMouseController.

(** ** infiltrator_complete.py *)

Module infiltrator_complete.

(** The three bound methods listed by [_random_interaction]. *)
Inductive Interaction : Type :=
| _scroll_to_bottom
| _hover_over_images
| _read_comments_section.

Definition interactions : list Interaction :=
  [_scroll_to_bottom; _hover_over_images; _read_comments_section].

(** [int(len(interactions) * hash(str(t)) % len(interactions))] for the
    hash value [h]: [*] and [%] associate to the left; [%] takes the sign
    of the divisor, as [Z.modulo] does; [int] of an [int] is itself. *)
Definition interaction_index (h : Z) : Z :=
  (Z.of_nat (length interactions) * h) mod Z.of_nat (length interactions).

(** [interactions[index]], with Python's negative indices. *)
Definition list_item {A} (l : list A) (index : Z) : option A :=
  if (index <? 0)%Z then
    if (Z.of_nat (length l) + index <? 0)%Z then None
    else nth_error l (Z.to_nat (Z.of_nat (length l) + index))
  else nth_error l (Z.to_nat index).

(** The interaction [_random_interaction] awaits when the clock string
    hashes to [h]; [None] stands for [IndexError]. *)
Definition chosen_interaction (h : Z) : option Interaction :=
  list_item interactions (interaction_index h).

End infiltrator_complete.

(** ** More of Python's [str], on texts of code points below 256, and [dict] *)

Module PyText.
Import Py.
Local Open Scope string_scope.

(** [text.lstrip()] *)
Fixpoint lstrip (text : string) : string :=
  match text with
  | EmptyString => EmptyString
  | String c rest => if PyStr.is_space c then lstrip rest else text
  end.

(** [text.rstrip()] *)
Fixpoint rstrip (text : string) : string :=
  match text with
  | EmptyString => EmptyString
  | String c rest =>
      match rstrip rest with
      | EmptyString => if PyStr.is_space c then EmptyString else String c EmptyString
      | kept => String c kept
      end
  end.

(** [text.strip()] *)
Definition strip (text : string) : string := rstrip (lstrip text).

(** [text.partition(sep)] for a one-character separator that occurs:
    what precedes its first occurrence, and what follows. *)
Fixpoint partition (sep : ascii) (text : string) : option (string * string) :=
  match text with
  | EmptyString => None
  | String c rest =>
      if Ascii.eqb c sep then Some (EmptyString, rest)
      else match partition sep rest with
           | Some (before, after) => Some (String c before, after)
           | None => None
           end
  end.

(** [text.split(sep, 1)] for a one-character separator. *)
Definition split_once (sep : ascii) (text : string) : list string :=
  match partition sep text with
  | Some (before, after) => [before; after]
  | None => [text]
  end.

(** [a, b = parts] *)
Definition unpack2 (parts : list string) : result (string * string) :=
  match parts with
  | [a; b] => Ok (a, b)
  | _ => Raise ValueError
  end.

(** A [dict] with [str] keys, in insertion order. *)
Definition dict (V : Type) : Type := list (string * V).

(** [d.get(key)] *)
Fixpoint get {V} (d : dict V) (key : string) : option V :=
  match d with
  | [] => None
  | (k, v) :: rest => if k =? key then Some v else get rest key
  end.

(** [d[key] = value] *)
Fixpoint set {V} (d : dict V) (key : string) (value : V) : dict V :=
  match d with
  | [] => [(key, value)]
  | (k, v) :: rest =>
      if k =? key then (k, value) :: rest else (k, v) :: set rest key value
  end.

End PyText.

(** ** infiltrator_complete.py: class InfiltratorSession *)

Module InfiltratorSession.
Import Py PyFloat reading_mimicry.
Local Open Scope string_scope.
Local Open Scope float_scope.
Local Open Scope py_scope.

(** The loop of [load_configuration] over the lines of the configuration
    file, from the configuration read so far. *)
Fixpoint read_config_lines (config : PyText.dict string) (config_lines : list string)
    : result (PyText.dict string) :=
  match config_lines with
  | [] => Ok config
  | line :: rest =>
      if Text.contains "=" line then
        match PyText.unpack2 (PyText.split_once "="%char (PyText.strip line)) with
        | Ok (key, value) => read_config_lines (PyText.set config key value) rest
        | Raise e => Raise e
        end
      else read_config_lines config rest
  end.

(** What [json.load] returns. *)
Inductive JSON : Type :=
| JNull
| JBool (b : bool)
| JInt (n : Z)
| JFloat (x : float)
| JString (s : string)
| JArray (items : list JSON)
| JObject (members : PyText.dict JSON).

Definition timezone_locale_map : PyText.dict string :=
  [("America/New_York", "en-US");
   ("America/Los_Angeles", "en-US");
   ("Europe/London", "en-GB");
   ("Europe/Paris", "fr-FR");
   ("Asia/Tokyo", "ja-JP");
   ("Asia/Shanghai", "zh-CN")].

(** [InfiltratorSession._get_locale_from_timezone(self)], from
    [self.identity] ([JNull] for [None]).  Subscripting anything but a
    [dict] with a [str] raises [TypeError]; so does looking up a list or a
    [dict], which cannot be hashed; a key of any other type than [str] is
    not in the map. *)
Definition _get_locale_from_timezone (identity : JSON) : result string :=
  match identity with
  | JObject members =>
      match PyText.get members "timezone" with
      | None => Raise KeyError
      | Some (JString timezone) =>
          match PyText.get timezone_locale_map timezone with
          | Some locale => Ok locale
          | None => Ok "en-US"
          end
      | Some (JArray _) | Some (JObject _) => Raise TypeError
      | Some _ => Ok "en-US"
      end
  | _ => Raise TypeError
  end.

(** [await asyncio.sleep(seconds)]: the sleep is entered, and the await
    ends as the event loop decides: normally, or with the exception thrown
    into the task while it sleeps (a cancellation, say).  The await is
    counted with the page's calls and fails by the same schedule. *)
Definition sleep (seconds : float) : M Session unit :=
  (fun s => (Ok tt, mkSession (world s) (actions s ++ [Sleep seconds]))) ;;;
  on_world (on_page (api_call (fun _ => tt) [])).

(** [InfiltratorSession._scroll_to_bottom(self)] *)
Definition _scroll_to_bottom : M Session unit :=
  on_world (ScrollBehavior.burst_scroll None true).

(** The body of the loop of [_hover_over_images] for one image. *)
Definition hover_image (img : ElementHandle) : M Session unit :=
  try_except_all
    (is_visible <- on_world (on_page (api_call (fun _ => eh_is_visible img) [])) ;;
     if is_visible : bool then
       on_world (on_page (api_call (fun _ => tt) [Hover "img" img])) ;;;
       hover_time <- on_world (on_rng (temporal_entropy.generate_delay
                                         temporal_entropy.THINKING 1.0 1.0)) ;;
       sleep hover_time
     else ret tt)
    (ret tt).

(** [for img in images[:3]] *)
Fixpoint hover_images (images : list ElementHandle) : M Session unit :=
  match images with
  | [] => ret tt
  | img :: rest => hover_image img ;;; hover_images rest
  end.

(** [InfiltratorSession._hover_over_images(self)] *)
Definition _hover_over_images : M Session unit :=
  images <- on_world (on_page (api_call (fun p => dom_all p "img") [])) ;;
  hover_images (firstn 3 images).

Definition comment_selectors : list string :=
  ["#comments"; ".comments";
   "[id*=" ++ String (ascii_of_nat 34) ("comment" ++ String (ascii_of_nat 34) "]");
   ".comment-section"].

(** The body of the loop of [_read_comments_section] for one selector;
    [true] when it read and returned. *)
Definition read_comments_at (selector : string) : M Session bool :=
  try_except_all
    (element <- on_world (on_page (query_selector selector)) ;;
     match element with
     | Some _ =>
         act (ScrollIntoView selector) ;;;
         read_time <- on_world (on_rng (temporal_entropy.generate_delay
                                          temporal_entropy.READING_PARAGRAPH
                                          1.0 1.0)) ;;
         sleep read_time ;;;
         ret true
     | None => ret false
     end)
    (ret false).

(** [for selector in comment_selectors] *)
Fixpoint read_comments (selectors : list string) : M Session unit :=
  match selectors with
  | [] => ret tt
  | selector :: rest =>
      done <- read_comments_at selector ;;
      if done : bool then ret tt else read_comments rest
  end.

(** [InfiltratorSession._read_comments_section(self)] *)
Definition _read_comments_section : M Session unit :=
  read_comments comment_selectors.

(** [await interaction()] for the bound method chosen. *)
Definition await_interaction (interaction : infiltrator_complete.Interaction)
    : M Session unit :=
  match interaction with
  | infiltrator_complete._scroll_to_bottom => _scroll_to_bottom
  | infiltrator_complete._hover_over_images => _hover_over_images
  | infiltrator_complete._read_comments_section => _read_comments_section
  end.

(** [InfiltratorSession._random_interaction(self)] when the clock string
    hashes to [h]. *)
Definition _random_interaction (h : Z) : M Session unit :=
  match infiltrator_complete.chosen_interaction h with
  | None => raise IndexError
  | Some interaction =>
      try_except (await_interaction interaction) (fun _ => ret tt)
  end.

End InfiltratorSession.

(** ** Vocabulary of the properties

    Predicates the specification's sentences are stated with, and the
    concrete inputs the examples are run on. *)

Section TemporalVocabulary.
Import Py PyFloat temporal_entropy.
Local Open Scope float_scope.

Definition finite_positive (a : float) : bool :=
  match Prim2SF a with
  | S754_finite false _ _ => true
  | _ => false
  end.

(** A delay within the clamp bounds of its activity. *)
Definition in_profile (k : ActivityType) (d : float) : Prop :=
  (min_value (PROFILES k) <=? d) = true /\ (d <=? max_value (PROFILES k)) = true.

(** [sum(delays)] *)
Definition py_sum (l : list float) : float := fold_left PrimFloat.add l 0.

(** The spacing of binary64 at 1.0: [sys.float_info.epsilon]. *)
Definition float_epsilon : float := 0x1p-52.

(** The budget property in the specification's words, at one call: zeros
    from an exhausted budget; otherwise the remaining time read afterwards
    is not negative and the delays sum to at most what remained, up to one
    epsilon. *)
Definition allocate_within_budget (self : TimingBudget) (activity : ActivityType)
    (count : Z) (g : random.Rng) : Prop :=
  match allocate self activity count g with
  | (Ok (delays, self'), _) =>
      if remaining_budget self <=? 0 then delays = repeat 0.0 (Z.to_nat count)
      else (0 <=? get_remaining_time self') = true /\
           (py_sum delays <=? remaining_budget self + float_epsilon) = true
  | (Raise _, _) => False
  end.

(** A generator whose every draw is the middle one. *)
Definition calm : random.Rng := random.mkRng (fun _ => 0.5) (fun _ => 0).

End TemporalVocabulary.

Section ClassifierVocabulary.
Import Py PyFloat reading_mimicry reading_mimicry.HoneypotDetector.
Local Open Scope string_scope.
Local Open Scope float_scope.

(** Two characters that are the same, letter case apart: the same
    character, or a capital letter A-Z and its small letter, which ASCII
    places 32 positions higher. *)
Definition same_letter (a b : ascii) : bool :=
  let m := nat_of_ascii a in
  let n := nat_of_ascii b in
  (m =? n)%nat
  || ((65 <=? m)%nat && (m <=? 90)%nat && (n =? m + 32)%nat)
  || ((65 <=? n)%nat && (n <=? 90)%nat && (m =? n + 32)%nat).

(** [s] reads [word], letter case apart. *)
Fixpoint reads_as (s word : string) : bool :=
  match s, word with
  | EmptyString, EmptyString => true
  | String a s', String b word' => same_letter a b && reads_as s' word'
  | _, _ => false
  end.

(** The capital letters A to Z, and the words that hold none: the words a
    lower-cased text can be compared with. *)
Definition is_capital (c : ascii) : bool :=
  (65 <=? nat_of_ascii c)%nat && (nat_of_ascii c <=? 90)%nat.

Fixpoint no_capitals (word : string) : bool :=
  match word with
  | EmptyString => true
  | String c rest => negb (is_capital c) && no_capitals rest
  end.

(** Some part of the text reads one of the words, letter case apart. *)
Definition names_one_of (words : list string) (s : string) : Prop :=
  exists pre mid post word,
    s = (pre ++ mid ++ post)%string /\ In word words /\ reads_as mid word = true.

(** The text matches the specification's case-insensitive trap lexicon
    [hidden|trap|honeypot|bot-trap]. *)
Definition mentions_trap (s : string) : Prop :=
  names_one_of ["hidden"; "trap"; "honeypot"; "bot-trap"] s.

(** At least one honeypot indicator of the specification holds. *)
Definition some_indicator_holds (win : Window) (el : Element) : Prop :=
  let st := style el in
  let r := rect el in
  style_display st = "none"
  \/ style_visibility st = "hidden"
  \/ (style_opacity st =? 0) = true
  \/ ((rect_left r <? -100) = true \/ (rect_top r <? -100) = true
      \/ (innerWidth win + 100 <? rect_right r) = true)
  \/ (style_zIndex st <? 0) = true
  \/ ((rect_width r =? 0) = true \/ (rect_height r =? 0) = true)
  \/ ((rect_width r <? 2) = true /\ (rect_height r <? 2) = true)
  \/ (mentions_trap (className el) \/ mentions_trap (id el))
  \/ (style_position st = "fixed"
      /\ ((style_left st <? -50) = true \/ (style_top st <? -50) = true)).

(** The six checks [is_element_visible] calls critical; the z-index is
    the resolved one, 0 when the style has none. *)
Definition passes_critical_checks (el : Element) : Prop :=
  let st := style el in
  let r := rect el in
  style_display st <> "none"
  /\ style_visibility st <> "hidden"
  /\ (0 <? style_opacity st) = true
  /\ (0 <? rect_width r) = true
  /\ (0 <? rect_height r) = true
  /\ (0 <=? js_or_zero (style_zIndex st)) = true.

(** Visibility in the specification's words: the six checks and the
    rectangle meeting the viewport vertically. *)
Definition visible_as_specified (win : Window) (el : Element) : Prop :=
  passes_critical_checks el
  /\ (rect_top (rect el) <? innerHeight win) = true
  /\ (0 <? rect_bottom (rect el)) = true.

Definition blank_viewport : ViewportInfo := mkViewportInfo 0 0 0 0 0 0.

(** A healthy page on which every selector finds [el]. *)
Definition page_showing (win : Window) (el : Element) : Page :=
  mkPage win (fun _ => Some el) (fun _ => []) (fun _ => blank_viewport)
         (fun _ => None) 0 [].

(** A healthy page on which no selector finds anything. *)
Definition empty_page (win : Window) : Page :=
  mkPage win (fun _ => None) (fun _ => []) (fun _ => blank_viewport)
         (fun _ => None) 0 [].

(** Every failure of the page is an [Exception]. *)
Definition faults_are_exceptions (p : Page) : Prop :=
  forall n e, faults p n = Some e -> is_Exception e = true.

(** The element is absent, or one of the two calls of an inspection
    (the query, the evaluation) fails. *)
Definition inspection_fails (p : Page) (selector : string) : Prop :=
  dom p selector = None
  \/ faults p (calls p) <> None
  \/ faults p (S (calls p)) <> None.

Definition desktop : Window := mkWindow 1920 1080.

(** An ordinary link far below the fold. *)
Definition footer_link : Element :=
  mkElement (mkComputedStyle "inline" "visible" 1 nan "static" nan nan)
            (mkDOMRect 10 5000 100 40 10 5000 110 5040)
            "nav-link" "imprint".

(** The scenario's snapshot [{display:'none', rect:{0,0,0,0}, zIndex:0}]. *)
Definition undisplayed : Element :=
  mkElement (mkComputedStyle "none" "visible" 1 0 "static" nan nan)
            (mkDOMRect 0 0 0 0 0 0 0 0)
            "" "".

(** The scenario's snapshot [{display:'block', visibility:'visible',
    opacity:1, rect:{x:10, y:10, w:100, h:40}, zIndex:0}]. *)
Definition headline : Element :=
  mkElement (mkComputedStyle "block" "visible" 1 0 "static" nan nan)
            (mkDOMRect 10 10 100 40 10 10 110 50)
            "title" "main-headline".

End ClassifierVocabulary.

Section ScrollVocabulary.
Import Py PyFloat reading_mimicry reading_mimicry.ScrollBehavior.
Local Open Scope float_scope.

(** The positions scrolled to, in order, as the trace records them. *)
Fixpoint scroll_positions (evs : list Event) : list Z :=
  match evs with
  | [] => []
  | ScrollTo y :: rest => y :: scroll_positions rest
  | _ :: rest => scroll_positions rest
  end.

(** The page answers every poll with the same viewport. *)
Definition static_viewport (p : Page) (v : ViewportInfo) : Prop :=
  forall n, viewport_at p n = v.

(** [t'] is [t] after some draws were consumed. *)
Definition later_tape (t t' : nat -> float) : Prop :=
  exists k, forall n, t' n = t (n + k)%nat.

(** A computation whose every run relates the store before to the store
    after by [R], however it ends. *)
Definition respects {S A} (R : S -> S -> Prop) (m : M S A) : Prop :=
  forall s r s', m s = (r, s') -> R s s'.

Definition rng_later (g g' : random.Rng) : Prop :=
  later_tape (random.unit_tape g) (random.unit_tape g').

(** Nothing the scroller answers for has changed: the tape only advanced,
    the viewport answers are the same, no scroll was issued and the
    position attribute is untouched. *)
Definition quiet (w w' : World) : Prop :=
  rng_later (rng w) (rng w')
  /\ viewport_at (page w') = viewport_at (page w)
  /\ scroll_positions (events (page w')) = scroll_positions (events (page w))
  /\ current_position w' = current_position w.

(** The world after one more call across the transport that left no
    event. *)
Definition polled (w : World) : World :=
  mkWorld (rng w)
          (mkPage (window (page w)) (dom (page w)) (dom_all (page w))
                  (viewport_at (page w)) (faults (page w))
                  (S (calls (page w))) (events (page w)))
          (current_position w).

(** The scroll count in the specification's words is at least 3: the
    scrolling phase, as specified at one call, leaves at least one scroll
    in the trace of a page with room to scroll. *)
Definition scrolls_as_specified (num_scrolls : option Z) (reading_behavior : bool)
    (w : World) : Prop :=
  exists w' y ys,
    fst (burst_scroll num_scrolls reading_behavior w) = Ok tt
    /\ snd (burst_scroll num_scrolls reading_behavior w) = w'
    /\ scroll_positions (events (page w'))
       = (scroll_positions (events (page w)) ++ y :: ys)%list
    /\ Forall (fun p => (p <= max_scroll_y (viewport_at (page w) (calls (page w))))%Z)
              (y :: ys).

(** A page five viewports long that never changes, and a reader whose first
    draw is 0.9 and whose later draws are all 0.5. *)
Definition long_article : ViewportInfo := mkViewportInfo 1920 1000 0 0 5000 0.

Definition long_article_page : Page :=
  mkPage (mkWindow 1920 1000) (fun _ => None) (fun _ => [])
         (fun _ => long_article) (fun _ => None) 0 [].

Definition reader : World :=
  mkWorld (random.mkRng (fun n => match n with O => 0.9 | _ => 0.5 end) (fun _ => 0))
          long_article_page 0.

End ScrollVocabulary.

Section PlannerVocabulary.
Import Py PyReal real_random kinematic_mouse kinematic_mouse.HumanMouseMovement.
Local Open Scope R_scope.

(** Total correctness of a computation: from every store satisfying [P] it
    returns (it does not raise) a value and a store satisfying [Q]. *)
Definition total {S A} (P : S -> Prop) (m : M S A) (Q : A -> S -> Prop) : Prop :=
  forall s, P s -> exists a s', m s = (Ok a, s') /\ Q a s'.

(** The Euclidean distance between two points. *)
Definition chord (a b : Point) : R :=
  sqrt ((x a - x b) ^ 2 + (y a - y b) ^ 2).

(** The cubic ease-in-ease-out curve. *)
Definition ease (t : R) : R :=
  if Rlt_dec t (5/10) then 4 * t * t * t else 1 - (-2 * t + 2) ^ 3 / 2.

(** A coordinate difference whose square is within the binary64 range:
    at most [2^511]. *)
Definition span : R := IZR (2 ^ 511).

(** The two points are near enough for the square of the distance between
    them to be computed. *)
Definition near (a b : Point) : Prop :=
  Rabs (x b - x a) <= span /\ Rabs (y b - y a) <= span.

(** A coordinate far inside the binary64 range: at most [2^508] in
    magnitude.  Between two such points, and to a point 15% beyond either
    of them, every difference is within [span]. *)
Definition reach : R := span / 8.

Definition within_reach (p : R * R) : Prop :=
  Rabs (fst p) <= reach /\ Rabs (snd p) <= reach.

(** A target size the movement time stays finite for: none given (the
    default is 10 at least), one that is zero or negative (Fitts's law
    then divides by 1), or one of [2^-511] at least.  By a smaller width
    binary64 takes the quotient [distance / target_width] of a long
    distance to infinity, and the timestamps, multiples of the movement
    time, are no numbers then; the reals have no such values. *)
Definition sizeable (target_size : option R) : Prop :=
  match target_size with
  | None => True
  | Some w => w <= 0 \/ / span <= w
  end.

(** Two points near enough to overshoot one from the other: a quarter of
    [span] apart at most. *)
Definition close (a b : Point) : Prop :=
  Rabs (x b - x a) <= span / 4 /\ Rabs (y b - y a) <= span / 4.

(** The step count [_generate_normal_path] derives from the distance. *)
Definition path_steps (self : HumanMouseMovement.t) (start end_ : Point) : Z :=
  py_int (py_max (IZR (min_steps self))
                 (py_min (IZR (max_steps self)) (chord start end_ / 10))).

(** The timestamps of a direct path of [num_steps] steps, in order. *)
Definition path_times (movement_time_ms : R) (num_steps : Z) : list R :=
  map (fun i => movement_time_ms * ease (INR i / IZR num_steps))
      (seq 0 (Z.to_nat (num_steps + 1))).

(** The width Fitts's law divides by: the target's own width unless that is
    zero or negative, then 1. *)
Definition effective_width (target_width : R) : R :=
  if Rle_dec target_width 0 then 1 else target_width.

(** The movement time before randomization. *)
Definition fitts_base (distance target_width : R) : R :=
  0 + 150 * log2 (distance / effective_width target_width + 1).


(** A generator whose every draw is the middle one. *)
Definition steady : Rng := mkRng (fun _ => 1/2) (fun _ => 0).

(** A generator whose overshoot draw (the second [random()] value) is 0.05. *)
Definition overshooter : Rng :=
  mkRng (fun n => match n with 1%nat => 5/100 | _ => 1/2 end) (fun _ => 0).

Definition offset_by (last : R) (path : list Sample) : list Sample :=
  map (fun s : Sample => let '(x, y, t) := s in (x, y, t + last)) path.

(** The trajectory property in the specification's words, at one call: a
    trajectory is planned, its first timestamp is 0 and its timestamps
    never decrease. *)
Definition trajectory_as_specified (start end_ : R * R) (target_size : option R)
    (g : Rng) : Prop :=
  exists path g',
    generate_path init start end_ target_size g = (Ok path, g')
    /\ (exists rest, map timestamp path = 0 :: rest)
    /\ StronglySorted Rle (map timestamp path).

(** [target_size], or its default when the caller passes [None]. *)
Definition default_target_size (distance : R) (target_size : option R) : R :=
  match target_size with
  | None => py_max 10 (distance * (5/100))
  | Some s => s
  end.

End PlannerVocabulary.

Section FurtherTemporalVocabulary.
Import Py PyFloat.

(** The tape after [n] draws were taken off its front. *)
Definition drop_draws {A} (n : nat) (tape : nat -> A) : nat -> A :=
  Nat.iter n random.tape_tail tape.

End FurtherTemporalVocabulary.

Section FurtherReadingVocabulary.
Import Py PyFloat reading_mimicry reading_mimicry.HoneypotDetector
       reading_mimicry.ScrollBehavior reading_mimicry.NavigationBehavior.
Local Open Scope string_scope.
Local Open Scope float_scope.

(** [m] keeps the invariant [I] of the store and raises nothing but
    [Exception]s: what an [except Exception] around it catches is all it
    can raise. *)
Definition guarded {S A} (I : S -> Prop) (m : M S A) : Prop :=
  forall s r s', I s -> m s = (r, s') ->
    I s' /\ (forall e, r = Raise e -> is_Exception e = true).

(** No invariant. *)
Definition anything {S} (s : S) : Prop := True.

(** Every failure of the world's page is an [Exception]. *)
Definition healthy (w : World) : Prop := faults_are_exceptions (page w).
Definition healthy_session (s : Session) : Prop := healthy (world s).

(** The selectors clicked, in order, as the navigator's trace records
    them. *)
Fixpoint clicks (acts : list Action) : list string :=
  match acts with
  | [] => []
  | Click sel :: rest => sel :: clicks rest
  | _ :: rest => clicks rest
  end.

(** The selectors hovered, in order, as the page's trace records them. *)
Fixpoint hovers (evs : list Event) : list string :=
  match evs with
  | [] => []
  | Hover sel _ :: rest => sel :: hovers rest
  | _ :: rest => hovers rest
  end.

(** The handles hovered, each with the selector it was found under. *)
Fixpoint hovered (evs : list Event) : list (string * ElementHandle) :=
  match evs with
  | [] => []
  | Hover sel el :: rest => (sel, el) :: hovered rest
  | _ :: rest => hovered rest
  end.

(** The page finds an element under [selector] that passes the six
    visibility checks and, when honeypots are checked for, shows none of
    the detector's indicators. *)
Definition eligible (p : Page) (selector : string) (check_honeypot : bool) : Prop :=
  exists el,
    dom p selector = Some el
    /\ passes_critical_checks el
    /\ (check_honeypot = true -> ~ some_indicator_holds (window p) el).

(** The two pages show the same elements in the same window. *)
Definition same_site (p p' : Page) : Prop :=
  dom p' = dom p /\ window p' = window p.

Definition world_same_site (w w' : World) : Prop := same_site (page w) (page w').

(** From [s] to [s'] the site is the same and nothing was clicked. *)
Definition still (s s' : Session) : Prop :=
  same_site (page (world s)) (page (world s'))
  /\ clicks (actions s') = clicks (actions s).

(** The attribute is set and some part of it reads [hidden], [trap] or
    [honeypot], letter case apart. *)
Definition attribute_names_trap (attr : option string) : Prop :=
  match attr with
  | None => False
  | Some a => names_one_of ["hidden"; "trap"; "honeypot"] a
  end.

(** A handle fit to be hovered: visible, and neither its [id] nor its
    [class] names a trap. *)
Definition accepted (el : ElementHandle) : Prop :=
  eh_is_visible el = true
  /\ ~ attribute_names_trap (eh_id el)
  /\ ~ attribute_names_trap (eh_class el).

(** A hover the page invites: of a handle fit to be hovered, which the
    page holds under a selector of the hover list. *)
Definition inviting (p : Page) (h : string * ElementHandle) : Prop :=
  In (fst h) interesting_selectors
  /\ In (snd h) (dom_all p (fst h))
  /\ accepted (snd h).

(** From [w] to [w'] the page holds the same handles and every hover
    satisfies [P]. *)
Definition hovering (P : string * ElementHandle -> Prop) (w w' : World) : Prop :=
  dom_all (page w') = dom_all (page w)
  /\ exists hs, hovered (events (page w')) = (hovered (events (page w)) ++ hs)%list
                /\ Forall P hs.

(** A generator whose every draw is the middle one. *)
Definition calm_rng : random.Rng := random.mkRng (fun _ => 0.5) (fun _ => 0).

(** Two headings fit to be hovered. *)
Definition first_heading : ElementHandle := mkElementHandle true (Some "top") None.
Definition second_heading : ElementHandle :=
  mkElementHandle true (Some "more") (Some "section-title").

(** A reader of a page with the two headings, on which the sixth call --
    the wait after the first hover -- times out. *)
Definition stuttering_reader : World :=
  mkWorld calm_rng
    (mkPage desktop (fun _ => None)
            (fun sel => if (sel =? "h1")%string then [first_heading; second_heading]
                        else [])
            (fun _ => blank_viewport)
            (fun n => if (n =? 5)%nat then Some (PlaywrightError "Timeout") else None)
            0 [])
    0.

(** A visitor on a healthy page on which every selector finds [el]. *)
Definition visitor (el : Element) : Session :=
  mkSession (mkWorld calm_rng (page_showing desktop el) 0) [].

(** The same visitor on a page whose third call times out. *)
Definition flaky_visitor (el : Element) : Session :=
  mkSession
    (mkWorld calm_rng
       (mkPage desktop (fun _ => Some el) (fun _ => []) (fun _ => blank_viewport)
               (fun n => if (n =? 2)%nat then Some (PlaywrightError "Timeout") else None)
               0 [])
       0)
    [].

End FurtherReadingVocabulary.

Section FurtherPlannerVocabulary.
Import Py PyReal real_random kinematic_mouse kinematic_mouse.HumanMouseMovement.
Local Open Scope R_scope.

(** The generator draws within the unit interval and its normal deviates
    are [z]. *)
Definition draws_with (z : nat -> R) (g : Rng) : Prop :=
  unit_draws g /\ normal_tape g = z.

(** The [i]-th sample of a direct path of [n] steps along the curve with
    control points [cp1], [cp2], when the normal deviates are [z]: the
    curve's point at [i/n], displaced per axis by a deviate scaled by 0.3
    (0.1 at both ends). *)
Definition tremored_sample (start cp1 cp2 end_ : Point) (mt : R) (n : Z)
    (z : nat -> R) (i : nat) : Sample :=
  let t := INR i / IZR n in
  let p := BezierCurve.calculate_point t start cp1 cp2 end_ in
  let k := if (0 <? Z.of_nat i)%Z && (Z.of_nat i <? n)%Z then 3/10 else 1/10 in
  (x p + (0 + z (2 * i)%nat * k), y p + (0 + z (2 * i + 1)%nat * k),
   mt * ease t).

End FurtherPlannerVocabulary.

Section FurtherSessionVocabulary.
Import Py PyFloat reading_mimicry.

(** The character occurs in the text. *)
Definition occurs (c : ascii) (text : string) : Prop :=
  In c (list_ascii_of_string text).

(** One line feed. *)
Definition newline : string := String (ascii_of_nat 10) EmptyString.

(** One visit to a comment section: it is scrolled into view, then read
    for a while. *)
Definition visit (v : string * float) : list Action :=
  [ScrollIntoView (fst v); Sleep (snd v)].

(** From [s] to [s'] the page finds the same elements and fails by the
    same schedule. *)
Definition anchored (s s' : Session) : Prop :=
  dom (page (world s')) = dom (page (world s))
  /\ faults (page (world s')) = faults (page (world s)).

(** No await fails. *)
Definition unfailing (s : Session) : Prop :=
  forall n, faults (page (world s)) n = None.

(** A reader of a page with two comment sections, whose first sleep -- the
    third await -- is cancelled. *)
Definition cancelled_reader : Session :=
  mkSession
    (mkWorld calm_rng
       (mkPage desktop
               (fun sel => if (sel =? "#comments")%string || (sel =? ".comments")%string
                           then Some headline else None)
               (fun _ => []) (fun _ => blank_viewport)
               (fun n => if (n =? 2)%nat then Some CancelledError else None)
               0 [])
       0)
    [].

(** From [s] to [s'] the page was hovered at most [n] more times, always
    over an image, and the session slept once per hover, each time for a
    thinking pause within its profile. *)
Definition hover_trail (n : nat) (s s' : Session) : Prop :=
  exists hs ds,
    hovers (events (page (world s')))
      = (hovers (events (page (world s))) ++ hs)%list
    /\ Forall (fun sel => sel = "img"%string) hs
    /\ actions s' = (actions s ++ map Sleep ds)%list
    /\ length ds = length hs
    /\ (length hs <= n)%nat
    /\ Forall (in_profile temporal_entropy.THINKING) ds.

End FurtherSessionVocabulary.

Section ControllerVocabulary.
Import Py PyReal real_random kinematic_mouse PlaywrightMouseController.
Local Open Scope R_scope.





(** A page without failures on which selectors find nothing. *)
Definition bare_page : MousePage :=
  mkMousePage (fun _ => None) None None (fun _ => None) 0 [].

End ControllerVocabulary.

(* ================================================================== *)
(** * Part II.  Properties                                             *)
(* ================================================================== *)

(** ** Order facts about binary64 comparisons *)

Section FloatOrder.
Local Open Scope float_scope.

Lemma Prim2SF_zero : Prim2SF 0 = S754_zero false.
Proof. reflexivity. Qed.

Lemma Prim2SF_infinity : Prim2SF infinity = S754_infinity false.
Proof. reflexivity. Qed.

Lemma ltb_leb (a b : float) : (a <? b) = true -> (a <=? b) = true.
Proof.
  rewrite ltb_spec, leb_spec. unfold SFltb, SFleb.
  destruct (SFcompare _ _) as [[]|]; congruence.
Qed.

(** Whatever is at least a positive finite number is positive. *)
Lemma leb_positive_floor (lo d : float) m e :
  Prim2SF lo = S754_finite false m e -> (lo <=? d) = true -> (0 <? d) = true.
Proof.
  rewrite ltb_spec, leb_spec, Prim2SF_zero. intros ->.
  unfold SFltb, SFleb.
  destruct (Prim2SF d) as [s| [|] | |[|] m' e']; simpl; congruence.
Qed.

(** Whatever is at most a finite number is below infinity (and not NaN). *)
Lemma leb_finite_ceiling (hi d : float) s m e :
  Prim2SF hi = S754_finite s m e -> (d <=? hi) = true -> (d <? infinity) = true.
Proof.
  rewrite ltb_spec, leb_spec, Prim2SF_infinity. intros ->.
  unfold SFltb, SFleb.
  destruct (Prim2SF d) as [s'| [|] | |[|] m' e']; destruct s; simpl; congruence.
Qed.

(** The guard of [allocate]: a number above a positive one is not zero. *)
Lemma divisor_above_positive (r i : float) :
  (r <=? 0) = false -> (r <? i) = true -> (i =? 0) = false.
Proof.
  rewrite ltb_spec, leb_spec, eqb_spec, Prim2SF_zero.
  unfold SFltb, SFleb, SFeqb.
  destruct (Prim2SF i) as [s| [|] | |[|] m' e'];
    destruct (Prim2SF r) as [s'| [|] | |[|] m'' e'']; simpl; congruence.
Qed.

End FloatOrder.

(** ** temporal_entropy.py *)

Section TemporalEntropy.
Import Py PyFloat temporal_entropy.
Local Open Scope float_scope.

Lemma finite_positive_inv a :
  finite_positive a = true -> exists m e, Prim2SF a = S754_finite false m e.
Proof.
  unfold finite_positive.
  destruct (Prim2SF a) as [ | | |[|] m e]; try discriminate. eauto.
Qed.

Lemma profile_bounds_ordered (k : ActivityType) :
  let p := PROFILES k in
  finite_positive (min_value p) = true /\ finite_positive (max_value p) = true /\
  (min_value p <? max_value p) = true /\
  (min_value p <=? min_value p) = true /\ (max_value p <=? max_value p) = true.
Proof. destruct k; vm_compute; auto. Qed.

(** The clamp [max(lo, min(hi, d))] lands in [lo, hi] for every float [d],
    NaN and the infinities included. *)
Lemma clamp_within (lo hi d : float) :
  (lo <? hi) = true -> (lo <=? lo) = true -> (hi <=? hi) = true ->
  (lo <=? py_max lo (py_min hi d)) = true /\ (py_max lo (py_min hi d) <=? hi) = true.
Proof.
  intros Hlh Hl Hh. unfold py_max, py_min.
  destruct (d <? hi) eqn:E1.
  - destruct (lo <? d) eqn:E2; auto using ltb_leb.
  - rewrite Hlh. auto using ltb_leb.
Qed.

Lemma generate_delay_run k m v g :
  exists d,
    generate_delay k m v g
      = (Ok d, random.mkRng (random.unit_tape g)
                            (random.tape_tail (random.normal_tape g)))
    /\ in_profile k d.
Proof.
  unfold generate_delay, random.gauss, bind, ret; simpl.
  eexists; split; [reflexivity|].
  destruct (profile_bounds_ordered k) as (_ & _ & H1 & H2 & H3).
  apply clamp_within; assumption.
Qed.

(** A NaN draw is clamped to the ceiling, an infinitely negative one to
    the floor. *)
Example generate_delay_odd_draws :
  fst (generate_delay THINKING 1.0 1.0 (random.mkRng (fun _ => 0.5) (fun _ => nan)))
    = Ok 3.0
  /\ fst (generate_delay THINKING 1.0 1.0
            (random.mkRng (fun _ => 0.5) (fun _ => neg_infinity)))
    = Ok 0.5.
Proof. split; reflexivity. Qed.

(** C3.  For every activity, every pair of multipliers and every state of
    the random source -- NaN and infinite draws included -- [generate_delay]
    returns a value between the profile's [min_value] and [max_value]; in
    particular the value is positive and finite. *)
Theorem generate_delay_within_profile k m v g :
  exists d g',
    generate_delay k m v g = (Ok d, g') /\
    (min_value (PROFILES k) <=? d) = true /\
    (d <=? max_value (PROFILES k)) = true /\
    (0 <? d) = true /\ (d <? infinity) = true.
Proof.
  destruct (generate_delay_run k m v g) as (d & Hrun & Hlo & Hhi).
  exists d; eexists; split; [exact Hrun|].
  destruct (profile_bounds_ordered k) as (Hp & Hq & _).
  apply finite_positive_inv in Hp as (m1 & e1 & Hp).
  apply finite_positive_inv in Hq as (m2 & e2 & Hq).
  repeat split; trivial.
  - exact (leb_positive_floor _ _ _ _ Hp Hlo).
  - exact (leb_finite_ceiling _ _ _ _ _ Hq Hhi).
Qed.

Lemma get_remaining_time_nonneg self : (0 <=? get_remaining_time self) = true.
Proof.
  unfold get_remaining_time, py_max.
  destruct (0 <? remaining_budget self) eqn:E; [now apply ltb_leb | reflexivity].
Qed.

(** With 0.01 s left, whatever is drawn: the one delay handed out is at
    least the profile's floor of 3 s, and it is charged in full. *)
Lemma allocate_overdrawn_run g :
  exists d g',
    allocate (TimingBudget_init 0.01) READING_PARAGRAPH 1 g
    = (Ok ([d], mkTimingBudget 0.01 (0.01 - d) 1), g')
    /\ (3.0 <=? d) = true.
Proof.
  destruct (generate_delay_run READING_PARAGRAPH (0.01 / 8.0) 1.0 g) as (d & E & Hd & _).
  exists d. eexists. split; [|exact Hd].
  unfold allocate. cbn [remaining_budget TimingBudget_init].
  change (0.01 <=? 0) with false. cbv iota.
  unfold bind at 1. change (py_mul_int (mean (PROFILES READING_PARAGRAPH)) 1) with (Ok 8.0).
  unfold lift_result at 1. cbv iota. change (0.01 <? 8.0) with true. cbv iota.
  unfold bind at 1. change (py_truediv 0.01 8.0) with (Ok (0.01 / 8.0)).
  unfold lift_result at 1. cbv iota.
  change (Z.to_nat 1) with 1%nat. cbn [allocate_loop]. unfold bind at 1.
  rewrite E. reflexivity.
Qed.

(** C1.  The budget is overdrawn.  With 0.01 s left, one paragraph-reading
    delay is handed out: the mean is scaled down to the budget, but
    [generate_delay] clamps the draw up to the profile's floor, so the delay
    is 3 s or more whatever is drawn.  For the middle draw it is 3 s: the
    stored [remaining_budget] becomes negative, and the delays sum to far
    more than an epsilon above the 0.01 s that remained. *)
Theorem allocate_exceeds_budget :
  allocate (TimingBudget_init 0.01) READING_PARAGRAPH 1 calm
    = (Ok ([3.0], mkTimingBudget 0.01 (0.01 - 3.0) 1),
       random.mkRng (fun _ => 0.5) (random.tape_tail (fun _ => 0)))
  /\ (0.01 - 3.0 <? 0) = true
  /\ (py_sum [3.0] <=? 0.01 + float_epsilon) = false
  /\ ~ allocate_within_budget (TimingBudget_init 0.01) READING_PARAGRAPH 1 calm
  /\ (forall g, exists d g',
        allocate (TimingBudget_init 0.01) READING_PARAGRAPH 1 g
        = (Ok ([d], mkTimingBudget 0.01 (0.01 - d) 1), g')
        /\ (3.0 <=? d) = true).
Proof.
  split; [reflexivity|]. split; [reflexivity|]. split; [reflexivity|]. split.
  - vm_compute. intros [_ H]. discriminate H.
  - exact allocate_overdrawn_run.
Qed.

(** A count beyond the binary64 range cannot be multiplied by the mean. *)
Example allocate_count_overflow :
  fst (allocate (TimingBudget_init 60) CLICK_DELAY (2 ^ 1024) calm) = Raise OverflowError.
Proof. reflexivity. Qed.

End TemporalEntropy.

(** ** reading_mimicry.py: the honeypot detector *)

Section Strings.
Local Open Scope string_scope.

Lemma prefix_iff pat : forall s,
  prefix pat s = true <-> exists post, s = (pat ++ post)%string.
Proof.
  induction pat as [|c pat IH]; intros s; simpl.
  - split; [intros _; exists s; reflexivity | intros _; now destruct s].
  - destruct s as [|c' s]; simpl.
    + split; [discriminate | intros [post H]; discriminate].
    + destruct (Ascii.ascii_dec c c') as [->|Hne].
      * rewrite IH. split; intros [post H]; exists post; congruence.
      * split; [discriminate | intros [post H]; congruence].
Qed.

Lemma contains_iff pat : forall s,
  Text.contains pat s = true <-> exists pre post, s = (pre ++ pat ++ post)%string.
Proof.
  induction s as [|c s IH]; cbn [Text.contains]; rewrite orb_true_iff, prefix_iff.
  - split.
    + intros [[post H]|H]; [|discriminate]. exists "", post. exact H.
    + intros (pre & post & H). left.
      destruct pre; simpl in H; [eauto | discriminate].
  - rewrite IH. split.
    + intros [[post H]|(pre & post & H)].
      * exists "", post. exact H.
      * exists (String c pre), post. simpl. now rewrite H.
    + intros (pre & post & H). destruct pre as [|c' pre]; simpl in H.
      * left. eauto.
      * right. exists pre, post. congruence.
Qed.

Lemma lower_app a b : Text.lower (a ++ b) = (Text.lower a ++ Text.lower b)%string.
Proof. induction a as [|c a IH]; cbn; [reflexivity | now rewrite IH]. Qed.

(** A lower-cased text that splits in two is the lower-casing of a text
    split at the same place. *)
Lemma lower_split : forall x s y,
  Text.lower s = (x ++ y)%string ->
  exists s1 s2, s = (s1 ++ s2)%string /\ Text.lower s1 = x /\ Text.lower s2 = y.
Proof.
  induction x as [|c x IH]; intros s y H.
  - exists "", s. auto.
  - destruct s as [|c' s]; [discriminate H|]. cbn in H. injection H as Hc H.
    destruct (IH _ _ H) as (s1 & s2 & -> & H1 & H2).
    exists (String c' s1), s2. cbn. rewrite Hc, H1. auto.
Qed.

(** Lower-casing gives [b], which is no capital, exactly for the
    characters that are [b], letter case apart. *)
Lemma lower_ascii_same_letter a b :
  is_capital b = false -> (Text.lower_ascii a = b <-> same_letter a b = true).
Proof.
  unfold is_capital, Text.lower_ascii, same_letter. intros Hb.
  pose proof (nat_ascii_bounded a) as Ha.
  destruct ((65 <=? nat_of_ascii a)%nat && (nat_of_ascii a <=? 90)%nat) eqn:Ca.
  - apply andb_true_iff in Ca as [C1 C2].
    apply Nat.leb_le in C1. apply Nat.leb_le in C2.
    rewrite Hb, orb_false_r, orb_true_iff, andb_true_iff, !Nat.eqb_eq.
    split.
    + intros <-. right. split; [reflexivity|]. apply nat_ascii_embedding. lia.
    + intros [H | [_ H]].
      * exfalso. rewrite <- H in Hb. apply andb_false_iff in Hb.
        destruct Hb as [Hb|Hb]; apply Nat.leb_gt in Hb; lia.
      * rewrite <- H. apply ascii_nat_embedding.
  - rewrite Hb, !orb_false_r, Nat.eqb_eq. split.
    + intros ->. reflexivity.
    + intros H. rewrite <- (ascii_nat_embedding a), H. apply ascii_nat_embedding.
Qed.

Lemma lower_reads_as : forall s word,
  no_capitals word = true -> (Text.lower s = word <-> reads_as s word = true).
Proof.
  induction s as [|a s IH]; intros [|b word] Hw; cbn; try (split; congruence).
  cbn in Hw. apply andb_true_iff in Hw as [Hb Hw]. apply negb_true_iff in Hb.
  rewrite andb_true_iff, <- (IH word Hw), <- (lower_ascii_same_letter a b Hb).
  split; [intros H; injection H; auto | intros [-> ->]; reflexivity].
Qed.

(** The script's test, and Python's, against the specification's words:
    a word of the list is found in the lower-cased text exactly when some
    part of the text reads that word, letter case apart. *)
Lemma matches_any_ci_iff alts s :
  forallb no_capitals alts = true ->
  (Text.matches_any_ci alts s = true <-> names_one_of alts s).
Proof.
  intros Halts. rewrite forallb_forall in Halts.
  unfold Text.matches_any_ci, names_one_of. rewrite existsb_exists. split.
  - intros (w & Hin & Hc). apply contains_iff in Hc as (pre' & post' & H).
    apply lower_split in H as (pre & rest & -> & _ & H).
    apply lower_split in H as (mid & post & -> & H & _).
    exists pre, mid, post, w. split; [reflexivity|]. split; [exact Hin|].
    apply lower_reads_as; [apply Halts; exact Hin | exact H].
  - intros (pre & mid & post & w & -> & Hin & H). exists w. split; [exact Hin|].
    apply contains_iff. exists (Text.lower pre), (Text.lower post).
    rewrite !lower_app. f_equal. f_equal.
    apply lower_reads_as; [apply Halts; exact Hin | exact H].
Qed.

Lemma negb_eqb_true_iff (a b : string) : negb (a =? b)%string = true <-> a <> b.
Proof. rewrite negb_true_iff. apply String.eqb_neq. Qed.

End Strings.

Section HoneypotDetector.
Import Py PyFloat reading_mimicry reading_mimicry.HoneypotDetector.
Local Open Scope string_scope.
Local Open Scope float_scope.

Lemma honeypot_report_iff win el :
  existsb (fun v => Bool.eqb v true) (indicator_values (honeypotIndicators win el)) = true
  <-> some_indicator_holds win el.
Proof.
  unfold some_indicator_holds, mentions_trap.
  rewrite <- !(matches_any_ci_iff trap_lexicon) by reflexivity.
  unfold indicator_values, honeypotIndicators.
  cbn [existsb displayNone visibilityHidden opacityZero offScreenLeft offScreenTop
       offScreenRight negativeZIndex zeroWidth zeroHeight tinyElement
       suspiciousClass suspiciousId fixedNegative].
  rewrite !orb_true_iff, !Bool.eqb_true_iff, !andb_true_iff, !orb_true_iff,
          !String.eqb_eq.
  intuition discriminate.
Qed.

Lemma is_element_safe_showing win el sel :
  exists r p',
    JS_HONEYPOT_DETECTION win (Some el) = HpObject r /\
    is_element_safe sel (page_showing win el)
      = (Ok (negb (isHoneypot r), value (HpObject r)), p').
Proof. eexists; eexists; split; reflexivity. Qed.

Lemma is_element_visible_showing win el sel :
  exists c p',
    JS_VISIBILITY_CHECK win (Some el) = VisObject c /\
    is_element_visible sel (page_showing win el)
      = (Ok (forallb (fun b => b)
               [chk_display c; chk_visibility c; chk_opacity c;
                chk_width c; chk_height c; 0 <=? chk_zIndex c],
             value (VisObject c)), p').
Proof. eexists; eexists; split; reflexivity. Qed.

(** An ordinary block in a 1920 x 1080 viewport is safe and visible. *)
Example headline_is_safe_and_visible :
  fst (is_element_safe "h1" (page_showing desktop headline))
    = Ok (true, value (JS_HONEYPOT_DETECTION desktop (Some headline)))
  /\ fst (is_element_visible "h1" (page_showing desktop headline))
    = Ok (true, value (JS_VISIBILITY_CHECK desktop (Some headline))).
Proof. split; reflexivity. Qed.

(** C2, as the specification words it, fails: a link 5000 px down a
    1080 px viewport passes [is_element_visible], although its rectangle
    does not meet the viewport. *)
Lemma visible_below_the_fold :
  (exists d p', is_element_visible "a.imprint" (page_showing desktop footer_link)
                = (Ok (true, d), p'))
  /\ ~ visible_as_specified desktop footer_link.
Proof.
  split.
  - eexists; eexists; reflexivity.
  - intros (_ & H & _). vm_compute in H. discriminate.
Qed.

(** C2, amended.  For an element the page finds, [is_element_visible]
    answers true exactly when display is not none, visibility is not
    hidden, opacity > 0, width > 0, height > 0 and the resolved z-index
    is >= 0; the viewport test the script also computes is not consulted. *)
Theorem visible_iff_critical_checks win el sel :
  exists (b : bool) d p',
    is_element_visible sel (page_showing win el) = (Ok (b, d), p') /\
    (b = true <-> passes_critical_checks el).
Proof.
  destruct (is_element_visible_showing win el sel) as (c & p' & Hc & Hrun).
  eexists; eexists; eexists; split; [exact Hrun|].
  injection Hc as <-. unfold passes_critical_checks.
  cbn [forallb chk_display chk_visibility chk_opacity chk_width chk_height chk_zIndex].
  rewrite !andb_true_iff, !negb_eqb_true_iff. tauto.
Qed.

(** C7.  For an element the page finds, the detector's [isHoneypot] is
    true exactly when one of the listed indicators holds, and
    [is_element_safe] answers its negation; the snapshot
    [{display:'none', rect:{0,0,0,0}, zIndex:0}] is a honeypot and is not
    visible. *)
Theorem honeypot_iff_indicator win el sel :
  (exists r p',
     is_element_safe sel (page_showing win el)
       = (Ok (negb (isHoneypot r), value (HpObject r)), p') /\
     (isHoneypot r = true <-> some_indicator_holds win el))
  /\
  (exists r d p1 p2,
     is_element_safe "#trap" (page_showing desktop undisplayed)
       = (Ok (false, value (HpObject r)), p1) /\
     isHoneypot r = true /\
     is_element_visible "#trap" (page_showing desktop undisplayed)
       = (Ok (false, d), p2)).
Proof.
  split.
  - destruct (is_element_safe_showing win el sel) as (r & p' & Hr & Hrun).
    exists r, p'. split; [exact Hrun|].
    injection Hr as <-. apply honeypot_report_iff.
  - do 4 eexists. split; [reflexivity|]. split; reflexivity.
Qed.

(** Neither inspection lets an [Exception] escape. *)
Lemma inspections_never_raise p sel :
  faults_are_exceptions p ->
  (exists v p', is_element_safe sel p = (Ok v, p')) /\
  (exists v p', is_element_visible sel p = (Ok v, p')).
Proof.
  intros Hex. unfold is_element_safe, is_element_visible, try_except, bind,
    query_selector, evaluate, api_call, lift_result, ret.
  destruct (faults p (calls p)) as [e|] eqn:F0.
  - rewrite (Hex _ _ F0). split; eauto.
  - destruct (dom p sel) as [el|]; [|split; eauto].
    cbn [calls faults]. destruct (faults p (S (calls p))) as [e|] eqn:F1.
    + rewrite (Hex _ _ F1). split; eauto.
    + cbn. split; eauto.
Qed.

(** C8.  When the element is absent from the page, or a call of the
    inspection fails with an [Exception], [is_element_safe] answers
    not-safe and [is_element_visible] answers not-visible, each with an
    error message, and nothing is raised. *)
Theorem inspections_fail_closed p sel :
  faults_are_exceptions p -> inspection_fails p sel ->
  exists m1 m2 p1 p2,
    is_element_safe sel p = (Ok (false, error m1), p1) /\
    is_element_visible sel p = (Ok (false, error m2), p2).
Proof.
  intros Hex Hfail. unfold is_element_safe, is_element_visible, try_except, bind,
    query_selector, evaluate, api_call, lift_result, ret.
  destruct (faults p (calls p)) as [e|] eqn:F0.
  - rewrite (Hex _ _ F0). eauto 6.
  - destruct (dom p sel) as [el|] eqn:D; [|eauto 6].
    cbn [calls faults]. destruct (faults p (S (calls p))) as [e|] eqn:F1.
    + rewrite (Hex _ _ F1). eauto 6.
    + destruct Hfail as [H|[H|H]]; congruence.
Qed.

(** The theorem on a page without the element. *)
Lemma inspections_fail_closed_witness :
  (faults_are_exceptions (empty_page desktop)
   /\ inspection_fails (empty_page desktop) "#gone") /\
  exists m1 m2 p1 p2,
    is_element_safe "#gone" (empty_page desktop) = (Ok (false, error m1), p1) /\
    is_element_visible "#gone" (empty_page desktop) = (Ok (false, error m2), p2).
Proof.
  assert (H1 : faults_are_exceptions (empty_page desktop))
    by (intros n e H; discriminate H).
  assert (H2 : inspection_fails (empty_page desktop) "#gone")
    by (left; reflexivity).
  split; [split; assumption|].
  apply (inspections_fail_closed (empty_page desktop) "#gone" H1 H2).
Defined.

End HoneypotDetector.

(** ** reading_mimicry.py: burst scrolling *)

Section Respects.
Import Py.
Context {S : Type} (R : S -> S -> Prop).
Hypothesis R_refl : forall s, R s s.
Hypothesis R_trans : forall s1 s2 s3, R s1 s2 -> R s2 s3 -> R s1 s3.

Lemma respects_ret {A} (a : A) : respects R (ret a).
Proof. intros s r s' H. injection H as _ <-. apply R_refl. Qed.

Lemma respects_raise {A} e : respects R (@raise S A e).
Proof. intros s r s' H. injection H as _ <-. apply R_refl. Qed.

Lemma respects_lift_result {A} (x : result A) : respects R (lift_result x).
Proof. intros s r s' H. injection H as _ <-. apply R_refl. Qed.

Lemma respects_bind {A B} (m : M S A) (k : A -> M S B) :
  respects R m -> (forall a, respects R (k a)) -> respects R (bind m k).
Proof.
  intros Hm Hk s r s' H. unfold bind in H.
  destruct (m s) as [[a|e] s1] eqn:E.
  - eapply R_trans; [eapply Hm; eauto | eapply Hk; eauto].
  - injection H as _ <-. eapply Hm; eauto.
Qed.

Lemma respects_try_except {A} (m : M S A) h :
  respects R m -> (forall e, respects R (h e)) -> respects R (try_except m h).
Proof.
  intros Hm Hh s r s' H. unfold try_except in H.
  destruct (m s) as [[a|e] s1] eqn:E.
  - injection H as _ <-. eapply Hm; eauto.
  - destruct (is_Exception e).
    + eapply R_trans; [eapply Hm; eauto | eapply Hh; eauto].
    + injection H as _ <-. eapply Hm; eauto.
Qed.

Lemma respects_try_except_all {A} (m : M S A) h :
  respects R m -> respects R h -> respects R (try_except_all m h).
Proof.
  intros Hm Hh s r s' H. unfold try_except_all in H.
  destruct (m s) as [[a|e] s1] eqn:E.
  - injection H as _ <-. eapply Hm; eauto.
  - eapply R_trans; [eapply Hm; eauto | eapply Hh; eauto].
Qed.

End Respects.

Section Zoom.
Import Py.

Lemma respects_zoom {S T A} (R : S -> S -> Prop) (R' : T -> T -> Prop)
    (proj : T -> S) (upd : S -> T -> T) (m : M S A) :
  (forall t s', R (proj t) s' -> R' t (upd s' t)) ->
  respects R m -> respects R' (zoom proj upd m).
Proof.
  intros Hup Hm t r t' H. unfold zoom in H.
  destruct (m (proj t)) as [r0 s'] eqn:E. injection H as _ <-.
  apply Hup. eapply Hm; eauto.
Qed.

End Zoom.

Section Quiet.
Import Py PyFloat reading_mimicry reading_mimicry.ScrollBehavior.
Local Open Scope float_scope.

Lemma later_tape_refl t : later_tape t t.
Proof. exists 0%nat. intros n. now rewrite Nat.add_0_r. Qed.

Lemma later_tape_trans t1 t2 t3 :
  later_tape t1 t2 -> later_tape t2 t3 -> later_tape t1 t3.
Proof.
  intros [k1 H1] [k2 H2]. exists (k2 + k1)%nat. intros n.
  now rewrite H2, H1, Nat.add_assoc.
Qed.

Lemma rng_later_refl g : rng_later g g.
Proof. apply later_tape_refl. Qed.

Lemma rng_later_trans g1 g2 g3 : rng_later g1 g2 -> rng_later g2 g3 -> rng_later g1 g3.
Proof. apply later_tape_trans. Qed.

Lemma quiet_refl w : quiet w w.
Proof. repeat split; auto using rng_later_refl. Qed.

Lemma quiet_trans w1 w2 w3 : quiet w1 w2 -> quiet w2 w3 -> quiet w1 w3.
Proof.
  intros (A1 & B1 & C1 & D1) (A2 & B2 & C2 & D2).
  repeat split; try congruence. eapply rng_later_trans; eauto.
Qed.

Lemma scroll_positions_app a b :
  scroll_positions (a ++ b) = scroll_positions a ++ scroll_positions b.
Proof.
  induction a as [|[y|ms|s] a IH]; simpl; trivial. now rewrite IH.
Qed.

(** *** The generator only moves forward *)
Lemma random_later : respects rng_later random.random.
Proof.
  intros g r g' H. injection H as _ <-. exists 1%nat. intros n. cbn.
  unfold random.tape_tail. f_equal. lia.
Qed.

Lemma gauss_later mu sigma : respects rng_later (random.gauss mu sigma).
Proof. intros g r g' H. injection H as _ <-. apply later_tape_refl. Qed.

Lemma uniform_later a b : respects rng_later (random.uniform a b).
Proof.
  apply (respects_bind _ rng_later_trans); [apply random_later|].
  intros u. apply (respects_ret _ rng_later_refl).
Qed.

Lemma generate_delay_later k m v :
  respects rng_later (temporal_entropy.generate_delay k m v).
Proof.
  apply (respects_bind _ rng_later_trans); [apply gauss_later|].
  intros u. apply (respects_ret _ rng_later_refl).
Qed.

Lemma sample_pool_later {A} k : forall (pool : list A),
  respects rng_later (random.sample_pool pool k).
Proof.
  induction k as [|k IH]; intros pool; cbn [random.sample_pool].
  - apply (respects_ret _ rng_later_refl).
  - apply (respects_bind _ rng_later_trans); [apply random_later|]. intros u.
    apply (respects_bind _ rng_later_trans);
      [apply (respects_lift_result _ rng_later_refl)|]. intros j.
    destruct (nth_error pool (Z.to_nat j)); [destruct (rev pool)|];
      try apply (respects_raise _ rng_later_refl).
    apply (respects_bind _ rng_later_trans); [apply IH|]. intros rest.
    apply (respects_ret _ rng_later_refl).
Qed.

Lemma sample_later {A} (l : list A) k : respects rng_later (random.sample l k).
Proof.
  unfold random.sample. destruct (_ <? _)%nat.
  - apply (respects_raise _ rng_later_refl).
  - apply sample_pool_later.
Qed.

(** *** Quiet steps of the scroller *)
Lemma on_rng_quiet {A} (m : M random.Rng A) :
  respects rng_later m -> respects quiet (on_rng m).
Proof.
  apply respects_zoom. intros w g' H. repeat split; trivial.
Qed.

Lemma api_call_quiet {A} (f : Page -> A) evs :
  scroll_positions evs = [] -> respects quiet (on_page (api_call f evs)).
Proof.
  intros Hev w r w' H. unfold on_page, zoom, api_call in H.
  destruct (faults (page w) (calls (page w))); injection H as _ <-;
    repeat split; cbn; auto using rng_later_refl;
    rewrite scroll_positions_app; [|rewrite Hev]; apply app_nil_r.
Qed.
End Quiet.

Ltac quiet_step :=
first
  [ apply (respects_ret _ quiet_refl)
  | apply (respects_raise _ quiet_refl)
  | apply (respects_lift_result _ quiet_refl)
  | apply api_call_quiet; reflexivity
  | match goal with
    | |- respects _ (reading_mimicry.on_rng (if ?b then _ else _)) => destruct b
    end
  | apply on_rng_quiet;
    first [ apply random_later | apply uniform_later | apply generate_delay_later
          | apply sample_later ]
  | apply (respects_bind _ quiet_trans); [ | intros ? ]
  | apply (respects_try_except _ quiet_trans); [ | intros ? ]
  | apply (respects_try_except_all _ quiet_trans)
  | match goal with
    | |- respects _ (if ?b then _ else _) => destruct b
    | |- respects _ (match ?x with _ => _ end) => destruct x
    end
  | assumption ].

Section QuietHover.
Import Py PyFloat reading_mimicry reading_mimicry.ScrollBehavior.
Local Open Scope float_scope.

Lemma wait_for_seconds_quiet s : respects quiet (wait_for_seconds s).
Proof. unfold wait_for_seconds. repeat quiet_step. Qed.

Lemma hover_first_quiet sel els : respects quiet (hover_first sel els).
Proof.
  induction els as [|el els IH]; cbn [hover_first].
  - quiet_step.
  - repeat first [apply wait_for_seconds_quiet | quiet_step].
Qed.

Lemma hover_selectors_quiet sels : respects quiet (hover_selectors sels).
Proof.
  induction sels as [|sel sels IH]; cbn [hover_selectors].
  - quiet_step.
  - repeat first [apply hover_first_quiet | quiet_step].
Qed.

Lemma hover_interesting_content_quiet : respects quiet _hover_interesting_content.
Proof.
  unfold _hover_interesting_content.
  repeat first [apply hover_selectors_quiet | quiet_step].
Qed.

Lemma reading_pause_quiet : respects quiet reading_pause.
Proof.
  unfold reading_pause.
  repeat first [apply wait_for_seconds_quiet | apply hover_interesting_content_quiet
               | quiet_step].
Qed.
End QuietHover.

Section BurstScroll.
Import Py PyFloat reading_mimicry reading_mimicry.ScrollBehavior.
Local Open Scope float_scope.

(** The script's keys are not the dataclass's parameters: whatever the
    window's metrics are, building the [ViewportInfo] raises. *)
Lemma ViewportInfo_init_script (p : Page) :
  ViewportInfo_init (viewport_script p) = Raise TypeError.
Proof. reflexivity. Qed.

(** With the parameters' own names the construction succeeds. *)
Example ViewportInfo_init_by_field_names :
  ViewportInfo_init
    [("width"%string, 1920%Z); ("height"%string, 1000%Z);
     ("scroll_y"%string, 0%Z); ("scroll_x"%string, 0%Z);
     ("max_scroll_y"%string, 5000%Z); ("max_scroll_x"%string, 0%Z)]
  = Ok long_article.
Proof. reflexivity. Qed.

(** [get_viewport_info] never returns: it raises what the page's call
    raises or, when the call succeeds, [TypeError]. *)
Lemma get_viewport_info_raises (w : World) :
  get_viewport_info w
  = (Raise match faults (page w) (calls (page w)) with
           | Some e => e
           | None => TypeError
           end,
     polled w).
Proof.
  unfold get_viewport_info, bind, on_page, zoom, api_call, polled.
  destruct (faults (page w) (calls (page w))) as [e|]; [|unfold lift_result];
    rewrite ?app_nil_r; reflexivity.
Qed.

Lemma burst_scroll_raises num_scrolls reading_behavior (w : World) :
  burst_scroll num_scrolls reading_behavior w
  = (Raise match faults (page w) (calls (page w)) with
           | Some e => e
           | None => TypeError
           end,
     polled w).
Proof. unfold burst_scroll, bind. rewrite get_viewport_info_raises. reflexivity. Qed.

(** C9.  The scrolling phase never scrolls.  [burst_scroll] first asks for
    the viewport; the script answers with the keys [scrollY], [scrollX],
    [maxScrollY], [maxScrollX], which [ViewportInfo] does not accept, so
    when the page's call succeeds the method raises [TypeError] before the
    scroll count is computed: no scroll is issued, nothing is drawn and the
    position is unchanged, whatever count and reading behaviour were asked
    for. *)
Theorem burst_scroll_type_error (num_scrolls : option Z) (reading_behavior : bool)
    (w : World) :
  faults (page w) (calls (page w)) = None ->
  burst_scroll num_scrolls reading_behavior w = (Raise TypeError, polled w)
  /\ events (page (polled w)) = events (page w)
  /\ rng (polled w) = rng w
  /\ current_position (polled w) = current_position w
  /\ ~ scrolls_as_specified num_scrolls reading_behavior w.
Proof.
  intros F. pose proof (burst_scroll_raises num_scrolls reading_behavior w) as E.
  rewrite F in E. repeat split; trivial.
  intros (w' & y & ys & Hok & _). rewrite E in Hok. discriminate Hok.
Qed.

(** The theorem on a page five viewports long. *)
Lemma burst_scroll_type_error_witness :
  faults (page reader) (calls (page reader)) = None /\
  burst_scroll None true reader = (Raise TypeError, polled reader)
  /\ events (page (polled reader)) = events (page reader)
  /\ rng (polled reader) = rng reader
  /\ current_position (polled reader) = current_position reader
  /\ ~ scrolls_as_specified None true reader.
Proof.
  split; [reflexivity|]. exact (burst_scroll_type_error None true reader eq_refl).
Defined.

End BurstScroll.

(** ** kinematic_mouse.py *)

Section Total.
Import Py kinematic_mouse.
Context {S : Type}.

Lemma total_ret {A} (P : S -> Prop) (a : A) (Q : A -> S -> Prop) :
  (forall s, P s -> Q a s) -> total P (ret a) Q.
Proof. intros H s Hs. exists a, s. split; [reflexivity | auto]. Qed.

Lemma total_bind {A B} (P : S -> Prop) (m : M S A) (Q : A -> S -> Prop)
    (k : A -> M S B) (Q' : B -> S -> Prop) :
  total P m Q -> (forall a, total (Q a) (k a) Q') -> total P (bind m k) Q'.
Proof.
  intros Hm Hk s Hs. destruct (Hm s Hs) as (a & s1 & E1 & H1).
  destruct (Hk a s1 H1) as (b & s2 & E2 & H2).
  exists b, s2. unfold bind. rewrite E1. auto.
Qed.

Lemma total_weaken {A} (P P' : S -> Prop) (m : M S A) (Q Q' : A -> S -> Prop) :
  total P' m Q' -> (forall s, P s -> P' s) -> (forall a s, Q' a s -> Q a s) ->
  total P m Q.
Proof.
  intros Hm HP HQ s Hs. destruct (Hm s (HP s Hs)) as (a & s' & E & H).
  exists a, s'. auto.
Qed.

Lemma total_lift_ok {A} (P : S -> Prop) (r : result A) a (Q : A -> S -> Prop) :
  r = Ok a -> (forall s, P s -> Q a s) -> total P (lift_result r) Q.
Proof. intros -> H s Hs. exists a, s. split; [reflexivity | auto]. Qed.

Lemma total_for_each {A B} (P : S -> Prop) (f : A -> M S B) (Q : A -> B -> Prop)
    (items : list A) :
  (forall a, In a items -> total P (f a) (fun b s => P s /\ Q a b)) ->
  total P (for_each f items) (fun bs s => P s /\ Forall2 Q items bs).
Proof.
  induction items as [|a items IH]; intros H; cbn [for_each].
  - apply total_ret. auto.
  - intros s Hs.
    destruct (H a (or_introl eq_refl) s Hs) as (b & s1 & E1 & Hs1 & Hq).
    destruct (IH (fun a' Ha' => H a' (or_intror Ha')) s1 Hs1)
      as (bs & s2 & E2 & Hs2 & Hall).
    exists (b :: bs), s2. unfold bind. rewrite E1, E2. split; [reflexivity|].
    split; [exact Hs2 | now constructor].
Qed.
End Total.


Section RealRandom.
Import Py PyReal real_random kinematic_mouse kinematic_mouse.HumanMouseMovement.
Local Open Scope R_scope.

Lemma unit_draws_tail g :
  unit_draws g -> unit_draws (mkRng (tape_tail (unit_tape g)) (normal_tape g)).
Proof. intros H n. apply (H (S n)). Qed.

Lemma random_total :
  total unit_draws random (fun u g' => 0 <= u < 1 /\ unit_draws g').
Proof.
  intros g Hg. do 2 eexists. split; [reflexivity|].
  split; [apply Hg | now apply unit_draws_tail].
Qed.

Lemma uniform_total a b : a <= b ->
  total unit_draws (uniform a b) (fun u g' => a <= u <= b /\ unit_draws g').
Proof.
  intros Hab. unfold uniform. eapply total_bind; [apply random_total|].
  intros u. apply total_ret. intros g [[H0 H1] Hg]. split; [|exact Hg]. nra.
Qed.

Lemma gauss_total mu sigma :
  total unit_draws (gauss mu sigma) (fun _ g' => unit_draws g').
Proof. intros g Hg. do 2 eexists. split; [reflexivity|]. exact Hg. Qed.

Lemma py_int_unit_range (u : R) (n : nat) :
  0 <= u < 1 -> (0 < n)%nat -> (Z.to_nat (py_int (u * INR n)) < n)%nat.
Proof.
  intros [H0 H1] Hn. unfold py_int.
  assert (Hpos : 0 < INR n) by (apply lt_0_INR; exact Hn).
  destruct (Rle_dec 0 (u * INR n)) as [_|Hneg]; [|exfalso; apply Hneg; nra].
  destruct (base_Int_part (u * INR n)) as [Hle Hgt].
  assert (Hlt : IZR (Int_part (u * INR n)) < IZR (Z.of_nat n)).
  { rewrite <- INR_IZR_INZ. nra. }
  apply lt_IZR in Hlt.
  assert (Hge : IZR (-1) < IZR (Int_part (u * INR n))) by (simpl; nra).
  apply lt_IZR in Hge. lia.
Qed.

Lemma choice_total {A} (l : list A) : l <> [] ->
  total unit_draws (choice l) (fun a g' => In a l /\ unit_draws g').
Proof.
  intros Hl. unfold choice. eapply total_bind; [apply random_total|].
  intros u g [Hu Hg].
  assert (Hn : (0 < length l)%nat) by (destruct l; [congruence | simpl; lia]).
  pose proof (py_int_unit_range u (length l) Hu Hn) as Hidx.
  destruct (nth_error l _) as [a|] eqn:E.
  - exists a, g. split; [reflexivity|]. split; [|exact Hg].
    eapply nth_error_In; eauto.
  - apply nth_error_None in E. lia.
Qed.
End RealRandom.


Section Planner.
Import Py PyReal real_random kinematic_mouse kinematic_mouse.HumanMouseMovement.
Local Open Scope R_scope.

Lemma total_bind_inv {S A B} (P : S -> Prop) (m : M S A) (k : A -> M S B)
    (Q : B -> S -> Prop) :
  total P m (fun _ => P) -> (forall a, total P (k a) Q) -> total P (bind m k) Q.
Proof. intros Hm Hk. eapply total_bind; [exact Hm | exact Hk]. Qed.

Lemma uniform_ok a b : total unit_draws (uniform a b) (fun _ => unit_draws).
Proof.
  unfold uniform. eapply total_bind; [apply random_total|].
  intros u. apply total_ret. intros g [_ Hg]. exact Hg.
Qed.

Lemma choice_ok {A} (l : list A) : l <> [] ->
  total unit_draws (choice l) (fun _ => unit_draws).
Proof.
  intros Hl. eapply total_weaken; [apply (choice_total l Hl) | auto |].
  intros a g [_ Hg]. exact Hg.
Qed.

Lemma py_truediv_ok (a b : R) : b <> 0 -> py_truediv a b = Ok (a / b).
Proof. intros Hb. unfold py_truediv. destruct (Req_dec_T b 0); [contradiction|reflexivity]. Qed.

Lemma span_pos : 0 < span.
Proof. unfold span. apply IZR_lt. reflexivity. Qed.

(** The square of [2^511] is within the binary64 range. *)
Lemma span_square : span * span < float_overflow.
Proof.
  unfold span, float_overflow. rewrite <- mult_IZR. apply IZR_lt, Z.ltb_lt.
  vm_compute. reflexivity.
Qed.

Lemma float_overflow_gt_1 : 1 < float_overflow.
Proof. unfold float_overflow. apply IZR_lt, Z.ltb_lt. vm_compute. reflexivity. Qed.

Lemma float_pow_2_ok (d : R) : Rabs d <= span -> float_pow d 2 = Ok (d ^ 2).
Proof.
  intros Hd. unfold float_pow. destruct (Rlt_dec _ _) as [_|Hn]; [reflexivity|].
  exfalso. apply Hn. rewrite <- RPow_abs. pose proof (Rabs_pos d).
  apply Rle_lt_trans with (span * span); [|apply span_square].
  simpl. rewrite Rmult_1_r. apply Rmult_le_compat; assumption.
Qed.

Lemma float_pow_3_unit (b : R) : 0 <= b <= 1 -> float_pow b 3 = Ok (b ^ 3).
Proof.
  intros Hb. unfold float_pow. destruct (Rlt_dec _ _) as [_|Hn]; [reflexivity|].
  exfalso. apply Hn. pose proof float_overflow_gt_1.
  assert (0 <= b ^ 3 <= 1).
  { split; [apply pow_le; lra|]. rewrite <- (pow1 3). apply pow_incr. lra. }
  rewrite Rabs_pos_eq; lra.
Qed.

Lemma distance_to_near (a b : Point) : near a b -> distance_to a b = Ok (chord a b).
Proof.
  intros [Hx Hy]. unfold distance_to, chord.
  rewrite !float_pow_2_ok by (rewrite Rabs_minus_sym; assumption). reflexivity.
Qed.

Lemma near_sym a b : near a b -> near b a.
Proof. intros [Hx Hy]. split; rewrite Rabs_minus_sym; assumption. Qed.

Lemma ease_unit (t : R) : 0 <= t <= 1 -> _ease_in_out_cubic t = Ok (ease t).
Proof.
  intros Ht. unfold _ease_in_out_cubic, ease.
  destruct (Rlt_dec t (5/10)); [reflexivity|].
  rewrite float_pow_3_unit by lra. reflexivity.
Qed.

Lemma generate_control_points_ok start end_ randomness :
  near start end_ ->
  total unit_draws (BezierCurve.generate_control_points start end_ randomness)
        (fun _ => unit_draws).
Proof.
  intros [Hx Hy]. unfold BezierCurve.generate_control_points.
  rewrite !float_pow_2_ok by assumption.
  apply total_bind_inv; [eapply total_lift_ok; [reflexivity | auto]|intros dx2].
  apply total_bind_inv; [eapply total_lift_ok; [reflexivity | auto]|intros dy2].
  apply total_bind_inv.
  - destruct (Rlt_dec 0 _) as [Hd|Hd]; [|apply total_ret; auto].
    rewrite !py_truediv_ok by lra.
    intros g Hg. do 2 eexists. split; [reflexivity | exact Hg].
  - intros [px py].
    repeat (apply total_bind_inv;
            [first [apply uniform_ok | apply choice_ok; discriminate] | intros ?]).
    apply total_ret. auto.
Qed.

Lemma apply_tremor_ok point intensity :
  total unit_draws (MicroTremor.apply_tremor point intensity) (fun _ => unit_draws).
Proof.
  unfold MicroTremor.apply_tremor.
  repeat (apply total_bind_inv; [apply gauss_total | intros ?]).
  apply total_ret. auto.
Qed.

Lemma step_fraction_unit (n : Z) (i : nat) :
  (0 < n)%Z -> (Z.of_nat i <= n)%Z -> 0 <= INR i / IZR n <= 1.
Proof.
  intros Hn Hi. apply IZR_lt in Hn. apply IZR_le in Hi. rewrite <- INR_IZR_INZ in Hi.
  pose proof (pos_INR i). split.
  - apply Rmult_le_pos; [assumption|]. apply Rlt_le, Rinv_0_lt_compat. exact Hn.
  - apply Rmult_le_reg_r with (IZR n); [exact Hn|].
    unfold Rdiv. rewrite Rmult_assoc, Rinv_l by lra. lra.
Qed.

Lemma normal_path_step_total start cp1 cp2 end_ mt (n : Z) (i : nat) :
  (0 < n)%Z -> (Z.of_nat i <= n)%Z ->
  total unit_draws (normal_path_step start cp1 cp2 end_ mt n i)
    (fun s g' => unit_draws g' /\
                 timestamp s = mt * ease (INR i / IZR n)).
Proof.
  intros Hn Hi. unfold normal_path_step.
  rewrite py_truediv_ok by (intros H; apply eq_IZR_R0 in H; lia).
  unfold lift_result at 1. intros g Hg. unfold bind at 1.
  rewrite (ease_unit _ (step_fraction_unit n i Hn Hi)).
  unfold lift_result at 1. unfold bind at 1.
  destruct (apply_tremor_ok
              (BezierCurve.calculate_point (INR i / IZR n) start cp1 cp2 end_)
              (if (0 <? Z.of_nat i)%Z && (Z.of_nat i <? n)%Z then 3 / 10 else 1 / 10)
              g Hg) as (pt & g' & E & Hg').
  unfold bind. rewrite E. do 2 eexists. split; [reflexivity|]. split; [exact Hg'|reflexivity].
Qed.

Lemma Forall2_map_eq {A B C} (f : A -> C) (h : B -> C) l bs :
  Forall2 (fun a b => h b = f a) l bs -> map h bs = map f l.
Proof. induction 1; simpl; congruence. Qed.

Lemma py_int_between (a : R) (lo hi : Z) :
  (0 <= lo)%Z -> IZR lo <= a <= IZR hi -> (lo <= py_int a <= hi)%Z.
Proof.
  intros Hlo [H1 H2]. unfold py_int.
  assert (0 <= IZR lo) by (apply IZR_le; exact Hlo).
  destruct (Rle_dec 0 a) as [_|Hneg]; [|exfalso; apply Hneg; lra].
  destruct (base_Int_part a) as [Hle Hgt]. split.
  - assert (Hx : IZR (lo - 1) < IZR (Int_part a)) by (rewrite minus_IZR; lra).
    apply lt_IZR in Hx. lia.
  - apply le_IZR. lra.
Qed.

Lemma path_steps_init start end_ : (10 <= path_steps init start end_ <= 100)%Z.
Proof.
  unfold path_steps. apply py_int_between; [lia|].
  cbn [min_steps max_steps init]. unfold py_max, py_min.
  repeat destruct (Rlt_dec _ _); lra.
Qed.

Lemma bind_lift_ok {S A B} (a : A) (k : A -> M S B) :
  bind (lift_result (Ok a)) k = k a.
Proof. reflexivity. Qed.

Lemma generate_normal_path_total start end_ mt :
  near start end_ ->
  total unit_draws (_generate_normal_path init start end_ mt)
    (fun path g' => unit_draws g' /\
                    map timestamp path = path_times mt (path_steps init start end_)).
Proof.
  intros Hnear. unfold _generate_normal_path. apply total_bind_inv.
  - apply generate_control_points_ok. exact Hnear.
  - intros [cp1 cp2]. rewrite (distance_to_near _ _ Hnear), bind_lift_ok.
    fold (path_steps init start end_).
    pose proof (path_steps_init start end_) as Hn.
    eapply total_weaken.
    + apply total_for_each with
        (Q := fun i s => timestamp s
                         = mt * ease (INR i / IZR (path_steps init start end_))).
      intros i Hi. apply in_seq in Hi. apply normal_path_step_total; lia.
    + auto.
    + intros path g [Hg Hall]. split; [exact Hg|].
      unfold path_times. now apply Forall2_map_eq.
Qed.
End Planner.


Section Easing.
Import Py PyReal real_random kinematic_mouse kinematic_mouse.HumanMouseMovement.
Local Open Scope R_scope.

Lemma cube_monotone (a b : R) : a <= b -> a * a * a <= b * b * b.
Proof.
  intros H.
  assert (0 <= (b - a) * ((a + b / 2) * (a + b / 2) + 3 / 4 * (b * b))).
  { apply Rmult_le_pos; [lra|]. nra. }
  nra.
Qed.

(** The easing curve never goes down, on the whole real line. *)
Lemma ease_monotone (s t : R) : s <= t -> ease s <= ease t.
Proof.
  intros H. unfold ease.
  destruct (Rlt_dec s (5/10)) as [Hs|Hs]; destruct (Rlt_dec t (5/10)) as [Ht|Ht];
    simpl pow; rewrite ?Rmult_1_r.
  - pose proof (cube_monotone s t H). lra.
  - pose proof (cube_monotone s (5/10) (Rlt_le _ _ Hs)).
    assert (-2 * t + 2 <= 1) by lra.
    pose proof (cube_monotone (-2 * t + 2) 1 H1). lra.
  - lra.
  - assert (-2 * t + 2 <= -2 * s + 2) by lra.
    pose proof (cube_monotone _ _ H0). lra.
Qed.

Lemma ease_0 : ease 0 = 0.
Proof. unfold ease. destruct (Rlt_dec 0 (5/10)); lra. Qed.

Lemma ease_1 : ease 1 = 1.
Proof. unfold ease. destruct (Rlt_dec 1 (5/10)); simpl pow; lra. Qed.
End Easing.


Section Sorting.
Local Open Scope R_scope.

Lemma map_seq_sorted (f : nat -> R) : forall n a,
  (forall i j, (i <= j)%nat -> f i <= f j) ->
  StronglySorted Rle (map f (seq a n)).
Proof.
  induction n as [|n IH]; intros a Hf; simpl; constructor.
  - apply IH. exact Hf.
  - apply Forall_forall. intros x Hx. apply in_map_iff in Hx as (j & <- & Hj).
    apply in_seq in Hj. apply Hf. lia.
Qed.

Lemma sorted_app (l1 l2 : list R) :
  StronglySorted Rle l1 -> StronglySorted Rle l2 ->
  (forall a b, In a l1 -> In b l2 -> a <= b) ->
  StronglySorted Rle (l1 ++ l2).
Proof.
  induction 1 as [|a l1 Hs IH Ha]; intros H2 Hcross; simpl; trivial.
  constructor.
  - apply IH; trivial. intros; apply Hcross; simpl; auto.
  - apply Forall_app. split; [exact Ha|].
    apply Forall_forall. intros b Hb. apply Hcross; simpl; auto.
Qed.

Lemma sorted_tl (l : list R) : StronglySorted Rle l -> StronglySorted Rle (tl l).
Proof. destruct 1; simpl; [constructor | assumption]. Qed.

Lemma sorted_map_shift (c : R) (l : list R) :
  StronglySorted Rle l -> StronglySorted Rle (map (fun t => t + c) l).
Proof.
  induction 1 as [|a l Hs IH Ha]; simpl; constructor; trivial.
  rewrite Forall_forall in *. intros b Hb. apply in_map_iff in Hb as (b' & <- & Hb').
  specialize (Ha _ Hb'). lra.
Qed.
End Sorting.


Section PathTimes.
Import Py PyReal real_random kinematic_mouse kinematic_mouse.HumanMouseMovement.
Local Open Scope R_scope.

Lemma step_fraction_monotone (n : Z) (i j : nat) :
  (0 < n)%Z -> (i <= j)%nat -> INR i / IZR n <= INR j / IZR n.
Proof.
  intros Hn Hij. apply le_INR in Hij. apply IZR_lt in Hn.
  unfold Rdiv. apply Rmult_le_compat_r; [|exact Hij].
  apply Rlt_le, Rinv_0_lt_compat. exact Hn.
Qed.

Lemma path_times_sorted mt n :
  0 <= mt -> (0 < n)%Z -> StronglySorted Rle (path_times mt n).
Proof.
  intros Hmt Hn. unfold path_times. apply map_seq_sorted. intros i j Hij.
  apply Rmult_le_compat_l; [exact Hmt|].
  apply ease_monotone, step_fraction_monotone; assumption.
Qed.

Lemma path_times_head mt n :
  (0 <= n)%Z -> exists rest, path_times mt n = 0 :: rest.
Proof.
  intros Hn. unfold path_times.
  replace (Z.to_nat (n + 1)) with (S (Z.to_nat n)) by lia. cbn [seq map].
  eexists. f_equal. unfold Rdiv. rewrite Rmult_0_l, ease_0. lra.
Qed.

Lemma path_times_range mt n t :
  0 <= mt -> (0 < n)%Z -> In t (path_times mt n) -> 0 <= t <= mt.
Proof.
  intros Hmt Hn Ht. unfold path_times in Ht.
  apply in_map_iff in Ht as (i & <- & Hi). apply in_seq in Hi.
  assert (H0 : INR 0 / IZR n <= INR i / IZR n)
    by (apply step_fraction_monotone; [assumption | lia]).
  assert (H1 : INR i / IZR n <= INR (Z.to_nat n) / IZR n)
    by (apply step_fraction_monotone; [assumption | lia]).
  apply ease_monotone in H0, H1.
  replace (INR 0 / IZR n) with 0 in H0 by (simpl; lra).
  replace (INR (Z.to_nat n) / IZR n) with 1 in H1.
  2:{ rewrite INR_IZR_INZ, Z2Nat.id by lia. field.
      apply IZR_lt in Hn. lra. }
  rewrite ease_0 in H0. rewrite ease_1 in H1. nra.
Qed.

Lemma path_times_last mt n d :
  (0 < n)%Z -> last (path_times mt n) d = mt.
Proof.
  intros Hn. unfold path_times.
  replace (Z.to_nat (n + 1)) with (Z.to_nat n + 1)%nat by lia.
  rewrite seq_app, map_app. cbn [seq map]. rewrite last_last.
  rewrite Nat.add_0_l, INR_IZR_INZ, Z2Nat.id by lia.
  replace (IZR n / IZR n) with 1 by (field; apply IZR_lt in Hn; lra).
  rewrite ease_1. lra.
Qed.
End PathTimes.


Section Fitts.
Import Py PyReal real_random kinematic_mouse kinematic_mouse.HumanMouseMovement.
Local Open Scope R_scope.
Import FittsLaw.

Lemma ln_2_pos : 0 < ln 2.
Proof. rewrite <- ln_1. apply ln_increasing; lra. Qed.

Lemma log2_nonneg (a : R) : 1 <= a -> 0 <= log2 a.
Proof.
  intros Ha. unfold log2. apply Rmult_le_pos.
  - destruct (Req_dec a 1) as [->|Hne]; [rewrite ln_1; lra|].
    rewrite <- ln_1. apply Rlt_le, ln_increasing; lra.
  - apply Rlt_le, Rinv_0_lt_compat, ln_2_pos.
Qed.

Lemma effective_width_pos tw : 0 < effective_width tw.
Proof. unfold effective_width. destruct (Rle_dec tw 0); lra. Qed.

Lemma width_ratio_nonneg d tw : 0 <= d -> 0 <= d / effective_width tw.
Proof.
  intros Hd. apply Rmult_le_pos; [exact Hd|].
  apply Rlt_le, Rinv_0_lt_compat, effective_width_pos.
Qed.

Lemma fitts_base_nonneg d tw : 0 <= d -> 0 <= fitts_base d tw.
Proof.
  intros Hd. unfold fitts_base.
  pose proof (width_ratio_nonneg d tw Hd).
  pose proof (log2_nonneg (d / effective_width tw + 1)). lra.
Qed.

Lemma calculate_movement_time_run d tw g :
  0 <= d ->
  calculate_movement_time d tw g
  = (Ok (fitts_base d tw * (8/10 + (12/10 - 8/10) * unit_tape g 0)),
     mkRng (tape_tail (unit_tape g)) (normal_tape g)).
Proof.
  intros Hd. unfold calculate_movement_time. fold (effective_width tw).
  pose proof (effective_width_pos tw) as Hw.
  pose proof (width_ratio_nonneg d tw Hd) as Hr.
  rewrite py_truediv_ok by lra.
  unfold bind at 1, lift_result at 1.
  unfold math_log2. destruct (Rlt_dec 0 (d / effective_width tw + 1)); [|lra].
  reflexivity.
Qed.





End Fitts.


Section Trajectory.
Import Py PyReal real_random kinematic_mouse kinematic_mouse.HumanMouseMovement.
Local Open Scope R_scope.

Lemma timestamp_offset_by last path :
  map timestamp (offset_by last path) = map (fun t => t + last) (map timestamp path).
Proof.
  unfold offset_by. rewrite !map_map. apply map_ext. intros [[a b] t]. reflexivity.
Qed.

Lemma map_tl {A B} (f : A -> B) (l : list A) : map f (tl l) = tl (map f l).
Proof. destruct l; reflexivity. Qed.

Lemma last_timestamp_of path (ts : list R) t :
  map timestamp path = ts -> ts <> [] -> last ts 0 = t -> last_timestamp path = Ok t.
Proof.
  intros Hmap Hne Hlast. unfold last_timestamp.
  destruct (exists_last (l := path)) as (path' & s & ->).
  { intros ->. simpl in Hmap. congruence. }
  rewrite rev_app_distr. cbn. f_equal.
  rewrite <- Hmap, map_app in Hlast. cbn [map] in Hlast.
  rewrite last_last in Hlast. exact Hlast.
Qed.

Lemma path_times_nonempty mt n : (0 <= n)%Z -> path_times mt n <> [].
Proof. intros Hn. destruct (path_times_head mt n Hn) as [rest ->]. discriminate. Qed.

Lemma within_reach_close (start end_ : R * R) :
  within_reach start -> within_reach end_ ->
  close (mkPoint (fst start) (snd start)) (mkPoint (fst end_) (snd end_)).
Proof.
  intros [H1 H2] [H3 H4]. pose proof span_pos. unfold reach in *.
  split; cbn [x y]; unfold Rabs in *; repeat destruct (Rcase_abs _); lra.
Qed.

Lemma close_near a b : close a b -> near a b.
Proof. intros [Hx Hy]. pose proof span_pos. split; lra. Qed.

(** From a start to a point up to 15% beyond the end, and from there back
    to the end, the differences stay within [span]. *)
Lemma close_overshoot start end_ ratio :
  close start end_ -> 105/100 <= ratio <= 115/100 ->
  let over := mkPoint (x start + (x end_ - x start) * ratio)
                      (y start + (y end_ - y start) * ratio) in
  near start over /\ near over end_.
Proof.
  intros [Hx Hy] Hr over. pose proof span_pos as Hs.
  assert (Hmul : forall d, Rabs d <= span / 4 ->
            Rabs (d * ratio) <= span /\ Rabs (d * (1 - ratio)) <= span).
  { intros d Hd. rewrite !Rabs_mult. rewrite (Rabs_pos_eq ratio) by lra.
    rewrite (Rabs_left (1 - ratio)) by lra. pose proof (Rabs_pos d). split; nra. }
  destruct (Hmul _ Hx) as [Hx1 Hx2]. destruct (Hmul _ Hy) as [Hy1 Hy2].
  split; split; cbn [x y over].
  - replace (x start + (x end_ - x start) * ratio - x start)
      with ((x end_ - x start) * ratio) by ring. exact Hx1.
  - replace (y start + (y end_ - y start) * ratio - y start)
      with ((y end_ - y start) * ratio) by ring. exact Hy1.
  - replace (x end_ - (x start + (x end_ - x start) * ratio))
      with ((x end_ - x start) * (1 - ratio)) by ring. exact Hx2.
  - replace (y end_ - (y start + (y end_ - y start) * ratio))
      with ((y end_ - y start) * (1 - ratio)) by ring. exact Hy2.
Qed.

(** An overshoot path, taken apart. *)
Lemma generate_overshoot_run start end_ mt g :
  close start end_ ->
  unit_draws g ->
  let ratio := 105/100 + (115/100 - 105/100) * unit_tape g 0 in
  let over := mkPoint (x start + (x end_ - x start) * ratio)
                      (y start + (y end_ - y start) * ratio) in
  let g3 := mkRng (tape_tail (unit_tape g)) (normal_tape g) in
  exists path1 path2 g4 g5,
    105/100 <= ratio <= 115/100
    /\ _generate_normal_path init start over (mt * (7/10)) g3 = (Ok path1, g4)
    /\ map timestamp path1 = path_times (mt * (7/10)) (path_steps init start over)
    /\ _generate_normal_path init over end_ (mt * (3/10)) g4 = (Ok path2, g5)
    /\ map timestamp path2 = path_times (mt * (3/10)) (path_steps init over end_)
    /\ last_timestamp path1 = Ok (mt * (7/10))
    /\ unit_draws g5
    /\ _generate_overshoot_path init start end_ mt g
       = (Ok (path1 ++ tl (offset_by (mt * (7/10)) path2)), g5).
Proof.
  intros Hclose Hg ratio over g3.
  assert (Hr : 105/100 <= ratio <= 115/100) by (pose proof (Hg 0%nat); unfold ratio; lra).
  destruct (close_overshoot start end_ ratio Hclose Hr) as [Hn1' Hn2'].
  fold over in Hn1', Hn2'.
  assert (Hg3 : unit_draws g3) by (apply unit_draws_tail; exact Hg).
  destruct (generate_normal_path_total start over (mt * (7/10)) Hn1' g3 Hg3)
    as (path1 & g4 & E1 & Hg4 & T1).
  destruct (generate_normal_path_total over end_ (mt * (3/10)) Hn2' g4 Hg4)
    as (path2 & g5 & E2 & Hg5 & T2).
  pose proof (path_steps_init start over) as Hn1.
  assert (L1 : last_timestamp path1 = Ok (mt * (7/10))).
  { eapply last_timestamp_of; [exact T1 | apply path_times_nonempty; lia |].
    apply path_times_last. lia. }
  exists path1, path2, g4, g5. repeat apply conj; trivial; try apply Hr.
  unfold _generate_overshoot_path. unfold bind at 1.
  change (uniform (105/100) (115/100) g) with (Ok ratio, g3).
  cbv beta iota zeta. fold over. unfold bind at 1. rewrite E1.
  unfold bind at 1. rewrite E2.
  unfold bind at 1, lift_result at 1. rewrite L1. reflexivity.
Qed.

Lemma overshoot_times_sorted mt n1 n2 :
  0 <= mt -> (0 < n1)%Z -> (0 < n2)%Z ->
  StronglySorted Rle
    (path_times (mt * (7/10)) n1
     ++ tl (map (fun t => t + mt * (7/10)) (path_times (mt * (3/10)) n2))).
Proof.
  intros Hmt H1 H2. apply sorted_app.
  - apply path_times_sorted; [lra | exact H1].
  - apply sorted_tl, sorted_map_shift, path_times_sorted; [lra | exact H2].
  - intros a b Ha Hb.
    apply path_times_range in Ha; [|lra|exact H1].
    assert (Hb' : In b (map (fun t => t + mt * (7/10)) (path_times (mt * (3/10)) n2))).
    { destruct (path_times _ n2); simpl in *; auto. }
    apply in_map_iff in Hb' as (t & <- & Ht).
    apply path_times_range in Ht; [|lra|exact H2]. lra.
Qed.

Lemma chord_nonneg a b : 0 <= chord a b.
Proof. apply sqrt_pos. Qed.

(** [generate_path] after its two leading draws. *)
Lemma generate_path_unfold (start end_ : R * R) (target_size : option R) (g : Rng) :
  let s := mkPoint (fst start) (snd start) in
  let e := mkPoint (fst end_) (snd end_) in
  let d := chord s e in
  let mt := fitts_base d (default_target_size d target_size)
            * (8/10 + (12/10 - 8/10) * unit_tape g 0) in
  let g1 := mkRng (tape_tail (unit_tape g)) (normal_tape g) in
  let g2 := mkRng (tape_tail (unit_tape g1)) (normal_tape g1) in
  near s e ->
  generate_path init start end_ target_size g
  = if Rlt_dec (unit_tape g1 0) (10/100)
    then _generate_overshoot_path init s e mt g2
    else _generate_normal_path init s e mt g2.
Proof.
  intros s e d mt g1 g2 Hnear. unfold generate_path. fold s e.
  rewrite (distance_to_near s e Hnear), bind_lift_ok. fold d.
  fold (default_target_size d target_size).
  assert (Hd : 0 <= d) by apply chord_nonneg.
  unfold bind at 1. rewrite (calculate_movement_time_run d _ g Hd).
  fold mt g1. unfold bind at 1.
  change (random g1) with (Ok (unit_tape g1 0), g2).
  cbv iota. change (overshoot_probability init) with (10/100).
  destruct (Rlt_dec (unit_tape g1 0) (10/100)); reflexivity.
Qed.

(** Beyond the range nothing is planned: the square of a difference of
    [10^200] overflows. *)
Lemma far_apart_overflow (g : Rng) (target_size : option R) (far : R) :
  float_overflow <= far * far ->
  generate_path init (0, 0) (far, 0) target_size g = (Raise OverflowError, g).
Proof.
  intros Hfar. unfold generate_path, bind, lift_result, distance_to, float_pow. cbn [fst snd x y].
  destruct (Rlt_dec _ _) as [Hle|_]; [|reflexivity].
  exfalso. rewrite <- RPow_abs in Hle. rewrite Rabs_minus_sym, Rminus_0_r in Hle.
  simpl in Hle. rewrite Rmult_1_r in Hle.
  assert (Rabs far * Rabs far = far * far).
  { rewrite <- Rabs_mult. apply Rabs_pos_eq. nra. }
  lra.
Qed.

Lemma ten_200_overflows : float_overflow <= IZR (10 ^ 200) * IZR (10 ^ 200).
Proof.
  unfold float_overflow. rewrite <- mult_IZR. apply IZR_le, Z.leb_le. vm_compute. reflexivity.
Qed.

(** C4, as the specification words it, fails: for the pair [(0, 0)],
    [(10^200, 0)] no trajectory is planned; [generate_path] raises
    [OverflowError] when it squares the difference of the coordinates. *)
Lemma far_apart_plans_nothing :
  generate_path init (0, 0) (IZR (10 ^ 200), 0) None steady
    = (Raise OverflowError, steady)
  /\ ~ trajectory_as_specified (0, 0) (IZR (10 ^ 200), 0) None steady.
Proof.
  pose proof (far_apart_overflow steady None _ ten_200_overflows) as E.
  split; [exact E|]. intros (path & g' & H & _). rewrite E in H. discriminate H.
Qed.

(** C4, amended.  For every start and end whose coordinates are at most
    [2^508] in magnitude, every target size that keeps the movement time
    finite (none, zero or negative, or [2^-511] at least) and every draw of
    the random source, [generate_path] returns a path whose first sample
    has timestamp 0 and whose timestamps never decrease from one sample to
    the next -- across the junction of an overshoot path's two sub-paths as
    well. *)
Theorem trajectory_time_monotone (start end_ : R * R) (target_size : option R)
    (g : Rng) :
  within_reach start -> within_reach end_ -> sizeable target_size ->
  unit_draws g ->
  exists path g',
    generate_path init start end_ target_size g = (Ok path, g')
    /\ (exists rest, map timestamp path = 0 :: rest)
    /\ StronglySorted Rle (map timestamp path).
Proof.
  intros Hs He _ Hg.
  pose proof (within_reach_close start end_ Hs He) as Hclose.
  rewrite generate_path_unfold by (apply close_near; exact Hclose). cbv zeta.
  set (s := mkPoint (fst start) (snd start)) in *.
  set (e := mkPoint (fst end_) (snd end_)) in *.
  set (d := chord s e).
  assert (Hd : 0 <= d) by apply chord_nonneg.
  set (tw := default_target_size d target_size).
  set (mt := fitts_base d tw * _).
  assert (Hmt : 0 <= mt).
  { pose proof (fitts_base_nonneg d tw Hd). pose proof (Hg 0%nat).
    unfold mt. apply Rmult_le_pos; lra. }
  set (g1 := mkRng (tape_tail (unit_tape g)) (normal_tape g)).
  assert (Hg1 : unit_draws g1) by (apply unit_draws_tail; exact Hg).
  set (g2 := mkRng (tape_tail (unit_tape g1)) (normal_tape g1)).
  assert (Hg2 : unit_draws g2) by (apply unit_draws_tail; exact Hg1).
  destruct (Rlt_dec (unit_tape g1 0) (10/100)) as [Hov|Hno].
  - destruct (generate_overshoot_run s e mt g2 Hclose Hg2)
      as (path1 & path2 & g4 & g5 & _ & _ & T1 & _ & T2 & _ & _ & Erun).
    exists (path1 ++ tl (offset_by (mt * (7/10)) path2)), g5.
    split; [exact Erun|].
    rewrite map_app, map_tl, timestamp_offset_by, T1, T2.
    match goal with |- context [path_steps init s ?o] => set (over := o) end.
    pose proof (path_steps_init s over) as Hn1.
    pose proof (path_steps_init over e) as Hn2.
    split.
    + destruct (path_times_head (mt * (7/10)) (path_steps init s over)) as [rest ->]; [lia|].
      eexists. reflexivity.
    + apply overshoot_times_sorted; [exact Hmt | lia | lia].
  - destruct (generate_normal_path_total s e mt (close_near _ _ Hclose) g2 Hg2)
      as (path & g' & E & _ & T).
    exists path, g'. split; [exact E|]. rewrite T.
    pose proof (path_steps_init s e) as Hn.
    split; [apply path_times_head; lia | apply path_times_sorted; [exact Hmt | lia]].
Qed.

(** C6, as the specification words it, fails: for the pair [(0, 0)],
    [(10^200, 0)] the planner produces neither an overshoot trajectory nor
    a direct one, whatever the draws are; [generate_path] raises
    [OverflowError] before it draws anything. *)
Lemma far_apart_neither_path :
  generate_path init (0, 0) (IZR (10 ^ 200), 0) (Some 50) overshooter
    = (Raise OverflowError, overshooter)
  /\ ~ (exists g path g',
          generate_path init (0, 0) (IZR (10 ^ 200), 0) (Some 50) g = (Ok path, g')).
Proof.
  split; [exact (far_apart_overflow overshooter (Some 50) _ ten_200_overflows)|].
  intros (g & path & g' & H).
  rewrite (far_apart_overflow g (Some 50) _ ten_200_overflows) in H. discriminate H.
Qed.

(** C6, amended.  For a start and an end whose coordinates are at most
    [2^508] in magnitude, and a target size that keeps the movement time
    finite, [generate_path] draws the movement time, then one
    [random()] value [r].  When [r < 0.10] -- a tenth of the unit
    interval -- the path is an overshoot path: a factor drawn by
    [uniform(1.05, 1.15)] scales the start-to-end vector to the overshoot
    point, a first sub-path to it gets 70% of the movement time, a
    corrective sub-path from it to the end gets 30%, and the result is the
    first sub-path followed by the second one without its first sample, its
    timestamps offset by the first sub-path's final timestamp (which is
    that 70%).  Otherwise the path is the single direct path. *)
Theorem overshoot_or_direct (start end_ : R * R) (target_size : option R) (g : Rng) :
  within_reach start -> within_reach end_ -> sizeable target_size ->
  unit_draws g ->
  let s := mkPoint (fst start) (snd start) in
  let e := mkPoint (fst end_) (snd end_) in
  exists d mt g1 r g2,
    distance_to s e = Ok d
    /\ FittsLaw.calculate_movement_time d (default_target_size d target_size) g
       = (Ok mt, g1)
    /\ random g1 = (Ok r, g2)
    /\ (r < 10/100 ->
        exists ratio g3 path1 g4 path2 g5,
          uniform (105/100) (115/100) g2 = (Ok ratio, g3)
          /\ 105/100 <= ratio <= 115/100
          /\ let over := mkPoint (x s + (x e - x s) * ratio)
                                 (y s + (y e - y s) * ratio) in
             _generate_normal_path init s over (mt * (7/10)) g3 = (Ok path1, g4)
             /\ _generate_normal_path init over e (mt * (3/10)) g4 = (Ok path2, g5)
             /\ last_timestamp path1 = Ok (mt * (7/10))
             /\ generate_path init start end_ target_size g
                = (Ok (path1 ++ tl (offset_by (mt * (7/10)) path2)), g5))
    /\ (10/100 <= r ->
        exists path g',
          _generate_normal_path init s e mt g2 = (Ok path, g')
          /\ generate_path init start end_ target_size g = (Ok path, g')).
Proof.
  intros Hs He _ Hg s e.
  pose proof (within_reach_close start end_ Hs He) as Hclose. fold s e in Hclose.
  rewrite generate_path_unfold by (apply close_near; exact Hclose). cbv zeta. fold s e.
  set (d := chord s e).
  assert (Hd : 0 <= d) by apply chord_nonneg.
  set (mt := fitts_base d _ * _).
  set (g1 := mkRng (tape_tail (unit_tape g)) (normal_tape g)).
  assert (Hg1 : unit_draws g1) by (apply unit_draws_tail; exact Hg).
  set (g2 := mkRng (tape_tail (unit_tape g1)) (normal_tape g1)).
  assert (Hg2 : unit_draws g2) by (apply unit_draws_tail; exact Hg1).
  exists d, mt, g1, (unit_tape g1 0), g2.
  split; [apply distance_to_near, close_near; exact Hclose|].
  split; [apply calculate_movement_time_run; exact Hd|]. split; [reflexivity|]. split.
  - intros Hov.
    destruct (Rlt_dec (unit_tape g1 0) (10/100)) as [_|Hno];
      [|exfalso; apply Hno; exact Hov].
    destruct (generate_overshoot_run s e mt g2 Hclose Hg2)
      as (path1 & path2 & g4 & g5 & Hr & E1 & _ & E2 & _ & L1 & _ & Erun).
    do 6 eexists. split; [reflexivity|]. split; [exact Hr|].
    cbv zeta. split; [exact E1|]. split; [exact E2|]. split; [exact L1 | exact Erun].
  - intros Hno.
    destruct (Rlt_dec (unit_tape g1 0) (10/100)) as [Hov|_]; [exfalso; lra|].
    destruct (generate_normal_path_total s e mt (close_near _ _ Hclose) g2 Hg2)
      as (path & g' & E & _).
    exists path, g'. split; exact E.
Qed.

Lemma steady_unit_draws : unit_draws steady.
Proof. intros n. simpl. lra. Qed.

Lemma on_screen_within_reach (a b : R) :
  Rabs a <= 1000000 -> Rabs b <= 1000000 -> within_reach (a, b).
Proof.
  intros Ha Hb.
  assert (H : 1000000 <= reach).
  { unfold reach, span. apply Rmult_le_reg_r with 8; [lra|].
    replace (IZR (2 ^ 511) / 8 * 8) with (IZR (2 ^ 511)) by field.
    replace (1000000 * 8) with (IZR 8000000) by (simpl; lra).
    apply IZR_le, Z.leb_le. vm_compute. reflexivity. }
  split; cbn [fst snd]; lra.
Qed.

Lemma origin_within_reach : within_reach (0, 0).
Proof. apply on_screen_within_reach; rewrite Rabs_R0; lra. Qed.

Lemma target_within_reach : within_reach (300, 400).
Proof. apply on_screen_within_reach; rewrite Rabs_pos_eq; lra. Qed.

(** The theorem on a 500 px move with the steady generator. *)
Lemma trajectory_time_monotone_witness :
  (within_reach (0, 0) /\ within_reach (300, 400) /\ sizeable None
   /\ unit_draws steady) /\
  exists path g',
    generate_path init (0, 0) (300, 400) None steady = (Ok path, g')
    /\ (exists rest, map timestamp path = 0 :: rest)
    /\ StronglySorted Rle (map timestamp path).
Proof.
  split; [exact (conj origin_within_reach
                    (conj target_within_reach (conj I steady_unit_draws)))|].
  apply (trajectory_time_monotone (0, 0) (300, 400) None steady).
  - exact origin_within_reach.
  - exact target_within_reach.
  - exact I.
  - exact steady_unit_draws.
Defined.

Lemma overshooter_unit_draws : unit_draws overshooter.
Proof. intros [|[|n]]; simpl; lra. Qed.

(** The theorem on a 500 px move with the overshooting generator. *)
Lemma overshoot_or_direct_witness :
  (within_reach (0, 0) /\ within_reach (300, 400) /\ sizeable None
   /\ unit_draws overshooter) /\
  let s := mkPoint (fst (0, 0)) (snd (0, 0)) in
  let e := mkPoint (fst (300, 400)) (snd (300, 400)) in
  exists d mt g1 r g2,
    distance_to s e = Ok d
    /\ FittsLaw.calculate_movement_time d (default_target_size d None) overshooter
       = (Ok mt, g1)
    /\ random g1 = (Ok r, g2)
    /\ (r < 10/100 ->
        exists ratio g3 path1 g4 path2 g5,
          uniform (105/100) (115/100) g2 = (Ok ratio, g3)
          /\ 105/100 <= ratio <= 115/100
          /\ let over := mkPoint (x s + (x e - x s) * ratio)
                                 (y s + (y e - y s) * ratio) in
             _generate_normal_path init s over (mt * (7/10)) g3 = (Ok path1, g4)
             /\ _generate_normal_path init over e (mt * (3/10)) g4 = (Ok path2, g5)
             /\ last_timestamp path1 = Ok (mt * (7/10))
             /\ generate_path init (0, 0) (300, 400) None overshooter
                = (Ok (path1 ++ tl (offset_by (mt * (7/10)) path2)), g5))
    /\ (10/100 <= r ->
        exists path g',
          _generate_normal_path init s e mt g2 = (Ok path, g')
          /\ generate_path init (0, 0) (300, 400) None overshooter = (Ok path, g')).
Proof.
  split; [exact (conj origin_within_reach
                    (conj target_within_reach (conj I overshooter_unit_draws)))|].
  apply (overshoot_or_direct (0, 0) (300, 400) None overshooter).
  - exact origin_within_reach.
  - exact target_within_reach.
  - exact I.
  - exact overshooter_unit_draws.
Defined.

End Trajectory.

(** ** infiltrator_complete.py *)

Section RandomInteraction.
Import infiltrator_complete.

(** C10.  Whatever the clock string hashes to, the index expression of
    [_random_interaction] is 0 and the interaction awaited is
    [_scroll_to_bottom]: the other two are never chosen. *)
Theorem random_interaction_is_scroll_to_bottom (h : Z) :
  interaction_index h = 0%Z /\
  chosen_interaction h = Some _scroll_to_bottom /\
  chosen_interaction h <> Some _hover_over_images /\
  chosen_interaction h <> Some _read_comments_section.
Proof.
  assert (H : interaction_index h = 0%Z).
  { unfold interaction_index. rewrite Z.mul_comm. apply Z_mod_mult. }
  unfold chosen_interaction. rewrite H. cbn.
  repeat split; congruence.
Qed.

End RandomInteraction.

(* ================================================================== *)
(** * Part III.  Further properties of the code                        *)
(* ================================================================== *)

(** ** temporal_entropy.py: the other delay generators *)

Section FloatOrderMore.
Import Py PyFloat.
Local Open Scope float_scope.

Lemma SFcompare_antisym a b c :
  SFcompare a b = Some c -> SFcompare b a = Some (CompOpp c).
Proof.
  destruct a as [sa|sa| |sa ma ea], b as [sb|sb| |sb mb eb]; simpl;
    try discriminate; try (destruct sa); try (destruct sb);
    intros H; injection H as <-; try reflexivity;
    rewrite (Z.compare_antisym ea eb);
    destruct (ea ?= eb)%Z; simpl; trivial;
    fold (Pos.compare mb ma) (Pos.compare ma mb);
    rewrite (Pos.compare_antisym ma mb);
    destruct (ma ?= mb)%positive; reflexivity.
Qed.

Lemma ltb_asym (a b : float) : (a <? b) = true -> (b <? a) = false.
Proof.
  rewrite !ltb_spec. unfold SFltb.
  destruct (SFcompare (Prim2SF a) (Prim2SF b)) as [c|] eqn:E; [|discriminate].
  rewrite (SFcompare_antisym _ _ _ E). destruct c; simpl; congruence.
Qed.

Lemma ltb_irrefl (a : float) : (a <? a) = false.
Proof.
  destruct (a <? a) eqn:E; [|reflexivity].
  pose proof (ltb_asym _ _ E). congruence.
Qed.

(** [max(lo, d)] is never below [lo], whatever [d] is. *)
Lemma py_max_not_below (lo d : float) : (py_max lo d <? lo) = false.
Proof.
  unfold py_max. destruct (lo <? d) eqn:E; [now apply ltb_asym | apply ltb_irrefl].
Qed.
End FloatOrderMore.

Section Words.
Import PyStr.

Lemma split_from_word : forall text w, split_from (Some w) text <> [].
Proof.
  induction text as [|c rest IH]; intros w; simpl; [discriminate|].
  destruct (is_space_code c); [discriminate | apply IH].
Qed.

(** There are no more words than characters. *)
Lemma split_from_length : forall text word,
  (length (split_from word text)
   <= length text + match word with Some _ => 1 | None => 0 end)%nat.
Proof.
  induction text as [|c rest IH]; intros word; cbn [split_from length].
  - destruct word; simpl; lia.
  - destruct (is_space_code c), word as [w|]; cbn [length].
    + pose proof (IH None) as H. cbv beta iota in H. lia.
    + pose proof (IH None) as H. cbv beta iota in H. lia.
    + pose proof (IH (Some (w ++ [c])%list)) as H. cbv beta iota in H. lia.
    + pose proof (IH (Some [c])) as H. cbv beta iota in H. lia.
Qed.

Lemma split_length text : (length (split text) <= length text)%nat.
Proof.
  pose proof (split_from_length text None) as H. cbv beta iota in H.
  unfold split. lia.
Qed.

(** The no-break space and the ideographic space separate words, as the
    space does. *)
Example split_unicode_spaces :
  split [0x48; 0x69; 0xA0; 0x3000; 0x79; 0x6F; 0x75]%N
    = [[0x48; 0x69]; [0x79; 0x6F; 0x75]]%N
  /\ split [0xA0]%N = []
  /\ split (of_string "two words") = [of_string "two"; of_string "words"].
Proof. repeat split. Qed.
End Words.

Section ReadingAndTyping.
Import Py PyFloat temporal_entropy random.
Local Open Scope float_scope.

(** An [int] below 2^63, as every length is, converts without overflow. *)
Lemma float_of_int_length (n : Z) :
  (0 <= n < 2 ^ 63)%Z -> float_of_int n = Ok (nearest_float n).
Proof.
  intros H. unfold float_of_int.
  replace (Z.abs n <? float_overflow_threshold)%Z with true; [reflexivity|].
  symmetry. apply Z.ltb_lt. rewrite Z.abs_eq by lia.
  apply Z.lt_trans with (2 ^ 63)%Z; [lia | reflexivity].
Qed.

Lemma py_int_truediv_length (n b : Z) :
  (0 <= n < 2 ^ 63)%Z -> b <> 0%Z ->
  py_int_truediv n b = Ok (SF2Prim (SFdiv prec emax (int_operand n) (int_operand b))).
Proof.
  intros Hn Hb. unfold py_int_truediv.
  replace (b =? 0)%Z with false by (symmetry; apply Z.eqb_neq; exact Hb).
  replace (float_overflow_threshold * Z.abs b <=? Z.abs n)%Z with false; [reflexivity|].
  symmetry. apply Z.leb_gt. rewrite (Z.abs_eq n) by lia.
  assert (H63 : (2 ^ 63 < float_overflow_threshold)%Z) by reflexivity.
  assert (Hpos : (0 < float_overflow_threshold)%Z) by reflexivity.
  assert (Hb1 : (1 <= Z.abs b)%Z) by lia.
  apply Z.lt_le_trans with float_overflow_threshold; [lia|].
  rewrite <- (Z.mul_1_r float_overflow_threshold) at 1.
  apply Z.mul_le_mono_nonneg_l; lia.
Qed.

(** X1.  [generate_reading_time] on a text that [split()] finds no word
    in -- empty, or white space only, the no-break space and the other
    Unicode spaces included -- returns 0.0 and takes no draw, whatever
    [wpm] is; on a text with words it raises [ZeroDivisionError] when [wpm]
    is 0 and otherwise takes one Gaussian draw and returns a time that is
    never below 0.15 s per word, whatever the draw.  (A [str] holds fewer
    than 2^63 code points.) *)
Theorem reading_time_floor (text : PyStr.str) (wpm : Z) (g : Rng) :
  (PyStr.len text < 2 ^ 63)%Z ->
  match PyStr.split text with
  | [] => generate_reading_time text wpm g = (Ok 0.0, g)
  | words =>
      if (wpm =? 0)%Z then
        generate_reading_time text wpm g = (Raise ZeroDivisionError, g)
      else
        exists t,
          generate_reading_time text wpm g
            = (Ok t, mkRng (unit_tape g) (tape_tail (normal_tape g)))
          /\ (t <? nearest_float (Z.of_nat (length words)) * 0.15) = false
  end.
Proof.
  intros Hlen. unfold generate_reading_time.
  pose proof (split_length text) as Hwords. unfold PyStr.len in Hlen.
  destruct (PyStr.split text) as [|w ws] eqn:E; [reflexivity|].
  set (words := w :: ws) in *. set (word_count := Z.of_nat (length words)).
  assert (Hwc : (0 < word_count < 2 ^ 63)%Z) by (unfold word_count, words in *; cbn [length] in *; lia).
  replace (word_count =? 0)%Z with false by (symmetry; apply Z.eqb_neq; lia).
  destruct (wpm =? 0)%Z eqn:W.
  - apply Z.eqb_eq in W. subst wpm. reflexivity.
  - apply Z.eqb_neq in W.
    rewrite (py_int_truediv_length word_count wpm) by (try lia; exact W).
    unfold py_int_mul. rewrite (float_of_int_length word_count) by lia.
    eexists. split; [reflexivity|]. apply py_max_not_below.
Qed.

(** The theorem on a text whose words are separated by a no-break space
    and an ideographic space. *)
Lemma reading_time_floor_witness :
  (PyStr.len [0x48; 0x69; 0xA0; 0x3000; 0x79; 0x6F; 0x75]%N < 2 ^ 63)%Z /\
  exists t,
    generate_reading_time [0x48; 0x69; 0xA0; 0x3000; 0x79; 0x6F; 0x75]%N 250 calm
      = (Ok t, mkRng (unit_tape calm) (tape_tail (normal_tape calm)))
    /\ (t <? nearest_float 2 * 0.15) = false.
Proof.
  assert (H : (PyStr.len [0x48; 0x69; 0xA0; 0x3000; 0x79; 0x6F; 0x75]%N < 2 ^ 63)%Z)
    by reflexivity.
  split; [exact H|].
  exact (reading_time_floor [0x48; 0x69; 0xA0; 0x3000; 0x79; 0x6F; 0x75]%N 250 calm H).
Defined.

(** X2.  [generate_typing_time] on the empty text returns 0.0 and takes no
    draw; on any other text it raises [OverflowError] when [wpm] is too
    large an [int] to convert to a float, [ZeroDivisionError] when [wpm] is
    0, and otherwise returns a time that is never below 0.08 s per
    character, whatever the draw.  (A [str] holds fewer than 2^63 code
    points.) *)
Theorem typing_time_floor (text : PyStr.str) (wpm : Z) (g : Rng) :
  (PyStr.len text < 2 ^ 63)%Z ->
  match text with
  | [] => generate_typing_time text wpm g = (Ok 0.0, g)
  | _ :: _ =>
      if (float_overflow_threshold <=? Z.abs wpm)%Z then
        generate_typing_time text wpm g = (Raise OverflowError, g)
      else if (wpm =? 0)%Z then
        generate_typing_time text wpm g = (Raise ZeroDivisionError, g)
      else
        exists t,
          generate_typing_time text wpm g
            = (Ok t, mkRng (unit_tape g) (tape_tail (normal_tape g)))
          /\ (t <? nearest_float (PyStr.len text) * 0.08) = false
  end.
Proof.
  intros Hlen. unfold generate_typing_time.
  destruct text as [|c rest]; [reflexivity|].
  set (text := c :: rest) in *. set (char_count := PyStr.len text) in *.
  assert (Hcc : (0 < char_count < 2 ^ 63)%Z)
    by (unfold char_count, PyStr.len, text in *; cbn [length] in *; lia).
  replace (char_count =? 0)%Z with false by (symmetry; apply Z.eqb_neq; lia).
  rewrite (py_int_truediv_length char_count 5) by lia.
  unfold bind at 1, lift_result at 1. unfold py_truediv_int, float_of_int.
  destruct (float_overflow_threshold <=? Z.abs wpm)%Z eqn:O.
  - replace (Z.abs wpm <? float_overflow_threshold)%Z with false
      by (symmetry; apply Z.ltb_ge, Z.leb_le; exact O).
    reflexivity.
  - replace (Z.abs wpm <? float_overflow_threshold)%Z with true
      by (symmetry; apply Z.ltb_lt, Z.leb_gt; exact O).
    destruct (wpm =? 0)%Z; [reflexivity|].
    unfold py_int_mul. rewrite (float_of_int_length char_count) by lia.
    eexists. split; [reflexivity|]. apply py_max_not_below.
Qed.

(** The theorem on a five-letter word and a typing speed of [10^400]. *)
Lemma typing_time_floor_witness :
  (PyStr.len (PyStr.of_string "hello") < 2 ^ 63)%Z /\
  generate_typing_time (PyStr.of_string "hello") (10 ^ 400) calm
    = (Raise OverflowError, calm).
Proof.
  assert (H : (PyStr.len (PyStr.of_string "hello") < 2 ^ 63)%Z) by reflexivity.
  split; [exact H|].
  exact (typing_time_floor (PyStr.of_string "hello") (10 ^ 400) calm H).
Defined.

(** At an ordinary typing speed the floor is what is returned when the
    draw is low. *)
Example typing_time_at_floor :
  fst (generate_typing_time (PyStr.of_string "hello") 40
         (mkRng (fun _ => 0.5) (fun _ => -3)))
  = Ok (5 * 0.08).
Proof. reflexivity. Qed.
End ReadingAndTyping.

Section CustomAndBurst.
Import Py PyFloat temporal_entropy random.
Local Open Scope float_scope.

Lemma SFcompare_refl a : a <> S754_nan -> SFcompare a a = Some Eq.
Proof.
  destruct a as [s|s| |s m e]; simpl; intros H; try congruence.
  - destruct s; reflexivity.
  - rewrite Z.compare_refl. fold (Pos.compare m m). rewrite Pos.compare_refl.
    destruct s; reflexivity.
Qed.

Lemma leb_refl_of_leb (a b : float) :
  (a <=? b) = true -> (a <=? a) = true /\ (b <=? b) = true.
Proof.
  rewrite !leb_spec. unfold SFleb. intros H.
  assert (Ha : Prim2SF a <> S754_nan)
    by (intros E; rewrite E in H; simpl in H; discriminate).
  assert (Hb : Prim2SF b <> S754_nan)
    by (intros E; rewrite E in H; destruct (Prim2SF a); simpl in H; discriminate).
  now rewrite !SFcompare_refl.
Qed.

(** X3.  With both bounds given and [min_value <= max_value],
    [generate_custom_delay] returns a value within the bounds for every
    mean, deviation and draw (NaN and infinities included). *)
Theorem custom_delay_clamped (mu sigma lo hi : float) (g : Rng) :
  (lo <=? hi) = true ->
  exists d,
    generate_custom_delay mu sigma (Some lo) (Some hi) g
      = (Ok d, mkRng (unit_tape g) (tape_tail (normal_tape g)))
    /\ (lo <=? d) = true /\ (d <=? hi) = true.
Proof.
  intros Hlh. destruct (leb_refl_of_leb _ _ Hlh) as [Hl Hh].
  eexists. split; [reflexivity|].
  unfold py_min, py_max.
  destruct (lo <? _) eqn:E1.
  - destruct (_ <? hi) eqn:E2; auto using ltb_leb.
  - destruct (lo <? hi) eqn:E2; auto.
Qed.

(** The theorem at bounds 0.2 and 0.9 around a mean of 5. *)
Lemma custom_delay_clamped_witness :
  (0.2 <=? 0.9) = true /\
  exists d,
    generate_custom_delay 5.0 1.0 (Some 0.2) (Some 0.9) calm
      = (Ok d, mkRng (unit_tape calm) (tape_tail (normal_tape calm)))
    /\ (0.2 <=? d) = true /\ (d <=? 0.9) = true.
Proof.
  split; [reflexivity|].
  apply (custom_delay_clamped 5.0 1.0 0.2 0.9 calm). reflexivity.
Defined.

Lemma drop_draws_succ {A} n (t : nat -> A) :
  drop_draws n (tape_tail t) = drop_draws (S n) t.
Proof. unfold drop_draws. symmetry. apply Nat.iter_succ_r. Qed.

Lemma drop_draws_nth {A} n : forall (t : nat -> A) k, drop_draws n t k = t (k + n)%nat.
Proof.
  induction n as [|n IH]; intros t k.
  - cbn. f_equal. lia.
  - rewrite <- drop_draws_succ, IH. unfold tape_tail. f_equal. lia.
Qed.

Lemma burst_activity_loop_run a count br : forall indices g,
  exists delays,
    burst_activity_loop a count br indices g
      = (Ok delays, mkRng (drop_draws (length indices) (unit_tape g))
                          (drop_draws (length indices) (normal_tape g)))
    /\ length delays = length indices
    /\ Forall (in_profile a) delays.
Proof.
  induction indices as [|i rest IH]; intros g.
  - exists []. destruct g. repeat split; constructor.
  - cbn [burst_activity_loop]. unfold bind at 1.
    match goal with |- context [if ?b then uniform 1.2 1.5 else uniform 0.8 1.2] =>
      set (u := if b then uniform 1.2 1.5 else uniform 0.8 1.2) end.
    assert (Hu : exists m, u g = (Ok m, mkRng (tape_tail (unit_tape g)) (normal_tape g))).
    { unfold u. destruct (_ || _); eexists; reflexivity. }
    destruct Hu as (m & ->). unfold bind at 1.
    destruct (generate_delay_run a m br (mkRng (tape_tail (unit_tape g)) (normal_tape g)))
      as (d & -> & Hd).
    cbn [unit_tape normal_tape]. unfold bind at 1.
    destruct (IH (mkRng (tape_tail (unit_tape g)) (tape_tail (normal_tape g))))
      as (ds & -> & Hlen & Hall).
    exists (d :: ds). cbn [unit_tape normal_tape length]. rewrite !drop_draws_succ.
    repeat split; [simpl; lia | now constructor].
Qed.

(** X4.  [burst_activity] never raises; it returns exactly [count] delays
    (none for a count of zero or less), each within the activity's
    [min_value, max_value], and takes exactly [count] draws off each
    tape. *)
Theorem burst_activity_delays (a : ActivityType) (count : Z) (br : float) (g : Rng) :
  exists delays,
    burst_activity a count br g
      = (Ok delays, mkRng (drop_draws (Z.to_nat count) (unit_tape g))
                          (drop_draws (Z.to_nat count) (normal_tape g)))
    /\ length delays = Z.to_nat count
    /\ Forall (in_profile a) delays.
Proof.
  unfold burst_activity.
  destruct (burst_activity_loop_run a count br (seq 0 (Z.to_nat count)) g)
    as (ds & E & Hlen & Hall).
  rewrite length_seq in *. eauto.
Qed.
End CustomAndBurst.

(** ** reading_mimicry.py: the navigator and the hover loop *)

Section ReadingMimicryMore.
Import Py PyFloat reading_mimicry reading_mimicry.HoneypotDetector
       reading_mimicry.ScrollBehavior reading_mimicry.NavigationBehavior.
Local Open Scope float_scope.

Section Guarded.
Context {S : Type} (I : S -> Prop).

Lemma guarded_ret {A} (a : A) : guarded I (ret a).
Proof. intros s r s' Hs H. injection H as <- <-. split; [exact Hs | discriminate]. Qed.

Lemma guarded_raise {A} e : is_Exception e = true -> guarded I (@raise S A e).
Proof.
  intros He s r s' Hs H. injection H as <- <-. split; [exact Hs|].
  intros e' E. now injection E as <-.
Qed.

Lemma guarded_lift_result {A} (x : result A) :
  (forall e, x = Raise e -> is_Exception e = true) -> guarded I (lift_result x).
Proof. intros Hx s r s' Hs H. injection H as <- <-. split; [exact Hs | exact Hx]. Qed.

Lemma guarded_bind {A B} (m : M S A) (k : A -> M S B) :
  guarded I m -> (forall a, guarded I (k a)) -> guarded I (bind m k).
Proof.
  intros Hm Hk s r s' Hs H. unfold bind in H.
  destruct (m s) as [[a|e] s1] eqn:E.
  - destruct (Hm _ _ _ Hs E) as [H1 _]. eapply Hk; eauto.
  - injection H as <- <-. destruct (Hm _ _ _ Hs E) as [H1 H2].
    split; [exact H1|]. intros e' E'. injection E' as <-. now apply H2.
Qed.

Lemma guarded_try_except {A} (m : M S A) h :
  guarded I m -> (forall e, guarded I (h e)) -> guarded I (try_except m h).
Proof.
  intros Hm Hh s r s' Hs H. unfold try_except in H.
  destruct (m s) as [[a|e] s1] eqn:E.
  - injection H as <- <-. eapply Hm; eauto.
  - destruct (Hm _ _ _ Hs E) as [H1 H2]. rewrite (H2 e eq_refl) in H.
    eapply Hh; eauto.
Qed.

Lemma guarded_try_except_all {A} (m : M S A) h :
  guarded I m -> guarded I h -> guarded I (try_except_all m h).
Proof.
  intros Hm Hh s r s' Hs H. unfold try_except_all in H.
  destruct (m s) as [[a|e] s1] eqn:E.
  - injection H as <- <-. eapply Hm; eauto.
  - destruct (Hm _ _ _ Hs E) as [H1 _]. eapply Hh; eauto.
Qed.

(** A guarded body under a handler that returns: the whole never raises. *)
Lemma try_except_returns {A} (m : M S A) (v : A) s :
  guarded I m -> I s ->
  exists a s', try_except m (fun _ => ret v) s = (Ok a, s') /\ I s'.
Proof.
  intros Hm Hs. unfold try_except.
  destruct (m s) as [[a|e] s1] eqn:E; destruct (Hm _ _ _ Hs E) as [H1 H2].
  - eauto.
  - rewrite (H2 e eq_refl). exists v, s1. split; [reflexivity | exact H1].
Qed.
End Guarded.

Section GuardedZoom.
Lemma guarded_zoom {S T A} (I : S -> Prop) (J : T -> Prop)
    (proj : T -> S) (upd : S -> T -> T) (m : M S A) :
  (forall t, J t -> I (proj t)) ->
  (forall t s', J t -> I s' -> J (upd s' t)) ->
  guarded I m -> guarded J (zoom proj upd m).
Proof.
  intros Hp Hu Hm t r t' Ht H. unfold zoom in H.
  destruct (m (proj t)) as [r0 s'] eqn:E. injection H as <- <-.
  destruct (Hm _ _ _ (Hp _ Ht) E) as [H1 H2]. split; [now apply Hu | exact H2].
Qed.
End GuardedZoom.

Section GuardedPage.

Lemma py_int_raises_exception x e : py_int x = Raise e -> is_Exception e = true.
Proof. unfold py_int. destruct (Prim2SF x); intros H; inversion H; reflexivity. Qed.

Lemma api_call_guarded {A} (f : Page -> A) evs :
  guarded faults_are_exceptions (api_call f evs).
Proof.
  intros p r p' Hp H. unfold api_call in H.
  destruct (faults p (calls p)) as [e|] eqn:F; injection H as <- <-.
  - split; [exact Hp|]. intros e' E. injection E as <-. eapply Hp; eauto.
  - split; [exact Hp | discriminate].
Qed.

Lemma on_page_guarded {A} (m : M Page A) :
  guarded faults_are_exceptions m -> guarded healthy (on_page m).
Proof. apply guarded_zoom; unfold healthy; auto. Qed.

Lemma on_rng_guarded {A} (m : M random.Rng A) :
  guarded anything m -> guarded healthy (on_rng m).
Proof.
  apply guarded_zoom; unfold healthy, anything; auto.
Qed.

Lemma on_world_guarded {A} (m : M World A) :
  guarded healthy m -> guarded healthy_session (on_world m).
Proof. apply guarded_zoom; unfold healthy_session; auto. Qed.

Lemma random_guarded : guarded anything random.random.
Proof. intros g r g' _ H. injection H as <- _. split; [exact I | discriminate]. Qed.

Lemma gauss_guarded mu sigma : guarded anything (random.gauss mu sigma).
Proof. intros g r g' _ H. injection H as <- _. split; [exact I | discriminate]. Qed.

Lemma uniform_guarded a b : guarded anything (random.uniform a b).
Proof.
  apply guarded_bind; [apply random_guarded | intros u; apply guarded_ret].
Qed.

Lemma generate_delay_guarded k m v :
  guarded anything (temporal_entropy.generate_delay k m v).
Proof.
  apply guarded_bind; [apply gauss_guarded | intros u; apply guarded_ret].
Qed.

Lemma sample_pool_guarded {A} k : forall (pool : list A),
  guarded anything (random.sample_pool pool k).
Proof.
  induction k as [|k IH]; intros pool; cbn [random.sample_pool].
  - apply guarded_ret.
  - apply guarded_bind; [apply random_guarded|]. intros u.
    apply guarded_bind; [apply guarded_lift_result, py_int_raises_exception|]. intros j.
    destruct (nth_error pool (Z.to_nat j)); [destruct (rev pool)|];
      try (apply guarded_raise; reflexivity).
    apply guarded_bind; [apply IH | intros rest; apply guarded_ret].
Qed.

Lemma sample_guarded {A} (l : list A) k : guarded anything (random.sample l k).
Proof.
  unfold random.sample. destruct (_ <? _)%nat.
  - apply guarded_raise. reflexivity.
  - apply sample_pool_guarded.
Qed.
End GuardedPage.

Ltac guard_step :=
  first
    [ apply guarded_ret
    | apply guarded_raise; reflexivity
    | apply guarded_lift_result, py_int_raises_exception
    | apply on_page_guarded, api_call_guarded
    | match goal with
      | |- guarded _ (reading_mimicry.on_rng (if ?b then _ else _)) => destruct b
      end
    | apply on_rng_guarded;
      first [ apply random_guarded | apply uniform_guarded
            | apply generate_delay_guarded | apply sample_guarded ]
    | apply guarded_bind; [ | intros ? ]
    | apply guarded_try_except; [ | intros ? ]
    | apply guarded_try_except_all
    | match goal with
      | |- guarded _ (if ?b then _ else _) => destruct b
      | |- guarded _ (match ?x with _ => _ end) => destruct x
      end
    | assumption ].

Section GuardedScroller.
Lemma wait_for_seconds_guarded s : guarded healthy (wait_for_seconds s).
Proof. unfold wait_for_seconds. repeat guard_step. Qed.

Lemma hover_first_guarded sel els : guarded healthy (hover_first sel els).
Proof.
  induction els as [|el els IH]; cbn [hover_first].
  - guard_step.
  - repeat first [apply wait_for_seconds_guarded | guard_step].
Qed.

Lemma hover_selectors_guarded sels : guarded healthy (hover_selectors sels).
Proof.
  induction sels as [|sel sels IH]; cbn [hover_selectors].
  - guard_step.
  - repeat first [apply hover_first_guarded | guard_step].
Qed.

(** X11.  [ScrollBehavior._hover_interesting_content] is silent on a page
    whose failures are all [Exception]s: it returns [None] whichever calls
    fail, it scrolls nowhere and leaves [current_position] alone. *)
Theorem hover_never_raises (w : World) :
  healthy w ->
  exists w',
    _hover_interesting_content w = (Ok tt, w')
    /\ scroll_positions (events (page w')) = scroll_positions (events (page w))
    /\ current_position w' = current_position w.
Proof.
  intros Hw.
  destruct (try_except_returns healthy (hover_selectors interesting_selectors) tt w
              (hover_selectors_guarded _) Hw) as ([] & w' & E & _).
  exists w'. split; [exact E|].
  destruct (hover_interesting_content_quiet _ _ _ E) as (_ & _ & H1 & H2). auto.
Qed.
(** The theorem on a page where the wait after the first hover times
    out. *)
Lemma hover_never_raises_witness :
  healthy stuttering_reader /\
  exists w',
    _hover_interesting_content stuttering_reader = (Ok tt, w')
    /\ scroll_positions (events (page w'))
       = scroll_positions (events (page stuttering_reader))
    /\ current_position w' = current_position stuttering_reader.
Proof.
  assert (H : healthy stuttering_reader).
  { intros n e E. cbn in E. destruct (n =? 5)%nat; [|discriminate E].
    injection E as <-. reflexivity. }
  split; [exact H|]. exact (hover_never_raises stuttering_reader H).
Defined.

(** On that page the failure is met -- the sixth call fails -- and
    swallowed: both headings are hovered and the call returns. *)
Example hover_stutters :
  faults (page stuttering_reader) 5 = Some (PlaywrightError "Timeout")
  /\ fst (_hover_interesting_content stuttering_reader) = Ok tt
  /\ events (page (snd (_hover_interesting_content stuttering_reader)))
     = [Hover "h1" second_heading; Hover "h1" first_heading; WaitForTimeout 1500]
  /\ calls (page (snd (_hover_interesting_content stuttering_reader))) = 11%nat.
Proof. repeat split. Qed.
End GuardedScroller.

Section SafeClick.
Lemma same_site_refl p : same_site p p.
Proof. split; reflexivity. Qed.

Lemma same_site_trans p1 p2 p3 : same_site p1 p2 -> same_site p2 p3 -> same_site p1 p3.
Proof. intros [A B] [C D]. split; congruence. Qed.

Lemma still_refl s : still s s.
Proof. split; [apply same_site_refl | reflexivity]. Qed.

Lemma still_trans s1 s2 s3 : still s1 s2 -> still s2 s3 -> still s1 s3.
Proof.
  intros [A B] [C D]. split; [eapply same_site_trans; eauto | congruence].
Qed.

Lemma api_call_same_site {A} (f : Page -> A) evs : respects same_site (api_call f evs).
Proof.
  intros p r p' H. unfold api_call in H.
  destruct (faults p (calls p)); injection H as _ <-; split; reflexivity.
Qed.

Lemma world_same_site_refl w : world_same_site w w.
Proof. apply same_site_refl. Qed.

Lemma world_same_site_trans w1 w2 w3 :
  world_same_site w1 w2 -> world_same_site w2 w3 -> world_same_site w1 w3.
Proof. apply same_site_trans. Qed.

Lemma on_page_same_site {A} (m : M Page A) :
  respects same_site m -> respects world_same_site (on_page m).
Proof. apply respects_zoom. intros w p' H. exact H. Qed.

Lemma on_rng_same_site {A} (m : M random.Rng A) : respects world_same_site (on_rng m).
Proof.
  intros w r w' H. unfold on_rng, zoom in H. destruct (m (rng w)).
  injection H as _ <-. apply same_site_refl.
Qed.

Lemma on_world_still {A} (m : M World A) :
  respects world_same_site m -> respects still (on_world m).
Proof. apply respects_zoom. intros s w' H. split; [exact H | reflexivity]. Qed.
End SafeClick.

Section Inspections.
Local Open Scope string_scope.

Lemma is_element_safe_same_site sel : respects same_site (is_element_safe sel).
Proof.
  unfold is_element_safe, query_selector, evaluate.
  apply (respects_try_except _ same_site_trans).
  - apply (respects_bind _ same_site_trans); [apply api_call_same_site|].
    intros [el|]; [|apply (respects_ret _ same_site_refl)].
    apply (respects_bind _ same_site_trans); [apply api_call_same_site|]. intros v.
    apply (respects_bind _ same_site_trans);
      [apply (respects_lift_result _ same_site_refl)|].
    intros b. apply (respects_ret _ same_site_refl).
  - intros e. apply (respects_ret _ same_site_refl).
Qed.

Lemma is_element_visible_same_site sel : respects same_site (is_element_visible sel).
Proof.
  unfold is_element_visible, query_selector, evaluate.
  apply (respects_try_except _ same_site_trans).
  - apply (respects_bind _ same_site_trans); [apply api_call_same_site|].
    intros [el|]; [|apply (respects_ret _ same_site_refl)].
    apply (respects_bind _ same_site_trans); [apply api_call_same_site|]. intros v.
    apply (respects_bind _ same_site_trans);
      [apply (respects_lift_result _ same_site_refl)|].
    intros b. apply (respects_ret _ same_site_refl).
  - intros e. apply (respects_ret _ same_site_refl).
Qed.

(** [is_element_safe] answers "safe" only for an element the page finds and
    the detector does not flag. *)
Lemma is_element_safe_true p sel d p' :
  is_element_safe sel p = (Ok (true, d), p') ->
  exists el, dom p sel = Some el /\ ~ some_indicator_holds (window p) el.
Proof.
  unfold is_element_safe, try_except, bind, query_selector, evaluate, api_call,
    lift_result, ret.
  destruct (faults p (calls p)) as [e|].
  { destruct (is_Exception e); discriminate. }
  destruct (dom p sel) as [el|]; [|discriminate].
  cbn [calls faults window]. destruct (faults p (S (calls p))) as [e|].
  { destruct (is_Exception e); discriminate. }
  intros H. exists el. split; [reflexivity|]. intros Hind.
  apply honeypot_report_iff in Hind.
  cbn [get_isHoneypot JS_HONEYPOT_DETECTION isHoneypot] in H.
  rewrite Hind in H. discriminate.
Qed.

Lemma critical_checks_iff win el :
  (let c := match JS_VISIBILITY_CHECK win (Some el) with
            | VisObject c => c
            | VisFalse => mkVisibilityChecks false false false 0 false false false
            end in
   forallb (fun b => b)
     [chk_display c; chk_visibility c; chk_opacity c;
      chk_width c; chk_height c; (0 <=? chk_zIndex c)%float]) = true
  <-> passes_critical_checks el.
Proof.
  unfold passes_critical_checks. cbn.
  rewrite !andb_true_iff, !negb_eqb_true_iff. tauto.
Qed.

(** [is_element_visible] answers "visible" only for an element the page
    finds and that passes the six checks. *)
Lemma is_element_visible_true p sel d p' :
  is_element_visible sel p = (Ok (true, d), p') ->
  exists el, dom p sel = Some el /\ passes_critical_checks el.
Proof.
  unfold is_element_visible, try_except, bind, query_selector, evaluate, api_call,
    lift_result, ret.
  destruct (faults p (calls p)) as [e|].
  { destruct (is_Exception e); discriminate. }
  destruct (dom p sel) as [el|]; [|discriminate].
  cbn [calls faults window]. destruct (faults p (S (calls p))) as [e|].
  { destruct (is_Exception e); discriminate. }
  cbn [get_checks JS_VISIBILITY_CHECK]. intros H. injection H as H _ _.
  exists el. split; [reflexivity|].
  apply (critical_checks_iff (window p) el). exact H.
Qed.
End Inspections.

Section SafeClickOutcome.
Local Open Scope string_scope.
Local Open Scope py_scope.

Lemma bind_inv {S A B} (m : M S A) (k : A -> M S B) s r s' :
  bind m k s = (r, s') ->
  (exists a s1, m s = (Ok a, s1) /\ k a s1 = (r, s'))
  \/ (exists e, m s = (Raise e, s') /\ r = Raise e).
Proof.
  unfold bind. destruct (m s) as [[a|e] s1]; intros H.
  - left. eauto.
  - right. injection H as <- <-. eauto.
Qed.

Lemma on_world_on_page_inv {A} (m : M Page A) s r s' :
  on_world (on_page m) s = (r, s') ->
  exists p', m (page (world s)) = (r, p').
Proof.
  unfold on_world, on_page, zoom. destruct (m (page (world s))) as [r0 p'].
  intros H. injection H as <- _. eauto.
Qed.

Lemma clicks_app l1 l2 : clicks (l1 ++ l2) = (clicks l1 ++ clicks l2)%list.
Proof.
  induction l1 as [|[sel|sel|d] l1 IH]; cbn [clicks app];
    [reflexivity | exact IH | now rewrite IH | exact IH].
Qed.

Lemma wait_for_seconds_same_site d : respects world_same_site (wait_for_seconds d).
Proof.
  unfold wait_for_seconds.
  apply (respects_bind _ world_same_site_trans).
  - apply (respects_lift_result _ world_same_site_refl).
  - intros ms. apply on_page_same_site, api_call_same_site.
Qed.

Lemma pause_for_still a : respects still (pause_for a).
Proof.
  unfold pause_for. apply (respects_bind _ still_trans).
  - apply on_world_still, on_rng_same_site.
  - intros d. apply on_world_still, wait_for_seconds_same_site.
Qed.

Lemma inspect_still {A} (m : M Page A) :
  respects same_site m -> respects still (on_world (on_page m)).
Proof. intros H. now apply on_world_still, on_page_same_site. Qed.

Lemma act_inv a s r s' :
  act a s = (r, s') ->
  same_site (page (world s)) (page (world s'))
  /\ ((r = Ok tt /\ actions s' = (actions s ++ [a])%list)
      \/ ((exists e, r = Raise e) /\ actions s' = actions s)).
Proof.
  unfold act. intros H. apply bind_inv in H as [(a0 & s1 & Hm & Hk) | (e & Hm & ->)].
  - injection Hk as <- <-. cbn [world actions].
    pose proof (inspect_still _ (api_call_same_site (fun _ => tt) []) _ _ _ Hm) as [Hs _].
    split; [exact Hs|]. left. split; [reflexivity|].
    unfold on_world, zoom in Hm.
    destruct (on_page _ (world s)) as [r0 w']. injection Hm as _ <-. reflexivity.
  - pose proof (inspect_still _ (api_call_same_site (fun _ => tt) []) _ _ _ Hm) as [Hs _].
    split; [exact Hs|]. right. split; [eauto|].
    unfold on_world, zoom in Hm.
    destruct (on_page _ (world s)) as [r0 w']. injection Hm as _ <-. reflexivity.
Qed.

Lemma scroll_into_view_still sel : respects still (act (ScrollIntoView sel)).
Proof.
  intros s r s' H. apply act_inv in H as [Hs [[_ Ha] | [_ Ha]]]; split; try exact Hs;
    rewrite Ha; [|reflexivity].
  rewrite clicks_app. cbn [clicks]. apply app_nil_r.
Qed.

(** From the click on: either the click call fails and nothing is clicked,
    or [sel] is clicked once, whatever the wait after it does. *)
Lemma click_and_settle_outcome sel s r s' :
  (act (Click sel) ;;; pause_for temporal_entropy.PAGE_LOAD ;;; ret true) s = (r, s') ->
  (clicks (actions s') = clicks (actions s) /\ r <> Ok true)
  \/ clicks (actions s') = (clicks (actions s) ++ [sel])%list.
Proof.
  intros H. apply bind_inv in H as [([] & s1 & Hm & Hk) | (e & Hm & ->)].
  - right. apply act_inv in Hm as [_ [[_ Ha] | [[e He] _]]]; [|discriminate He].
    assert (Hc : clicks (actions s') = clicks (actions s1)).
    { apply bind_inv in Hk as [([] & s2 & Hp & Hr) | (e & Hp & ->)].
      - injection Hr as _ <-. exact (proj2 (pause_for_still _ _ _ _ Hp)).
      - exact (proj2 (pause_for_still _ _ _ _ Hp)). }
    rewrite Hc, Ha, clicks_app. reflexivity.
  - left. apply act_inv in Hm as [_ [[He _] | [_ Ha]]]; [discriminate He|].
    rewrite Ha. split; [reflexivity | discriminate].
Qed.

Lemma approach_still sel :
  respects still
    (element <- on_world (on_page (query_selector sel)) ;;
     match element with
     | Some _ => act (ScrollIntoView sel) ;;; pause_for temporal_entropy.SCROLL_PAUSE
     | None => ret tt
     end).
Proof.
  apply (respects_bind _ still_trans).
  - apply inspect_still, api_call_same_site.
  - intros [el|]; [|apply (respects_ret _ still_refl)].
    apply (respects_bind _ still_trans); [apply scroll_into_view_still|].
    intros _. apply pause_for_still.
Qed.

Lemma safe_click_outcome sel chk s r s' :
  safe_click sel chk s = (r, s') ->
  (clicks (actions s') = clicks (actions s) /\ r <> Ok true)
  \/ (clicks (actions s') = (clicks (actions s) ++ [sel])%list
      /\ eligible (page (world s)) sel chk).
Proof.
  unfold safe_click, try_except. intros H.
  match type of H with
  | context [match ?m s with _ => _ end] =>
      destruct (m s) as [r0 s0] eqn:E;
      assert (Hbody : (clicks (actions s0) = clicks (actions s) /\ r0 <> Ok true)
                      \/ (clicks (actions s0) = (clicks (actions s) ++ [sel])%list
                          /\ eligible (page (world s)) sel chk))
  end.
  { clear H.
    apply bind_inv in E as [(is_safe & s1 & Hchk & E) | (e & Hchk & ->)].
    2:{ left. split; [|discriminate]. destruct chk.
        - apply bind_inv in Hchk as [(c & s2 & Hc & Hr) | (e' & Hc & _)].
          + discriminate Hr.
          + exact (proj2 (inspect_still _ (is_element_safe_same_site sel) _ _ _ Hc)).
        - discriminate Hchk. }
    assert (Hs1 : still s s1
                  /\ (is_safe = true -> chk = true ->
                      exists el, dom (page (world s)) sel = Some el
                                 /\ ~ some_indicator_holds (window (page (world s))) el)).
    { destruct chk.
      - apply bind_inv in Hchk as [([b d] & s2 & Hc & Hr) | (e' & _ & Hr)];
          [|discriminate Hr].
        injection Hr as <- <-. cbn [fst]. split.
        + exact (inspect_still _ (is_element_safe_same_site sel) _ _ _ Hc).
        + intros -> _. apply on_world_on_page_inv in Hc as [p' Hc].
          eapply is_element_safe_true; eauto.
      - injection Hchk as <- <-. split; [apply still_refl | discriminate]. }
    destruct Hs1 as [Hs1 Hsafe].
    destruct is_safe; cbn [negb] in E.
    2:{ injection E as <- <-. left. split; [exact (proj2 Hs1) | discriminate]. }
    apply bind_inv in E as [([b d] & s2 & Hvis & E) | (e & Hvis & ->)].
    2:{ left. split; [|discriminate].
        exact (proj2 (still_trans _ _ _ Hs1
                 (inspect_still _ (is_element_visible_same_site sel) _ _ _ Hvis))). }
    pose proof (inspect_still _ (is_element_visible_same_site sel) _ _ _ Hvis) as Hs2.
    pose proof (still_trans _ _ _ Hs1 Hs2) as Hs02.
    cbn [fst] in E. destruct b; cbn [negb] in E.
    2:{ injection E as <- <-. left. split; [exact (proj2 Hs02) | discriminate]. }
    assert (Hel : eligible (page (world s)) sel chk).
    { apply on_world_on_page_inv in Hvis as [p' Hvis].
      apply is_element_visible_true in Hvis as (el & Hdom & Hpass).
      destruct Hs1 as [[Hd Hw] _]. rewrite Hd in Hdom.
      exists el. split; [exact Hdom|]. split; [exact Hpass|].
      intros Hc. destruct (Hsafe eq_refl Hc) as (el' & Hdom' & Hno).
      rewrite Hdom in Hdom'. injection Hdom' as <-. exact Hno. }
    (* the approach: query, scroll into view, settle, decide *)
    assert (Happroach : exists s3 rest,
               still s2 s3 /\
               ((rest = (act (Click sel) ;;; pause_for temporal_entropy.PAGE_LOAD ;;; ret true)
                 /\ rest s3 = (r0, s0))
                \/ (s3 = s0 /\ exists e, r0 = Raise e))).
    { apply bind_inv in E as [(element & s3 & Hq & E) | (e & Hq & ->)].
      2:{ exists s0, (ret true). split.
          - exact (inspect_still _ (api_call_same_site _ _) _ _ _ Hq).
          - right. eauto. }
      pose proof (inspect_still _ (api_call_same_site _ _) _ _ _ Hq) as Hs3.
      apply bind_inv in E as [([] & s4 & Hm & E) | (e & Hm & ->)].
      2:{ exists s0, (ret true). split; [|right; eauto].
          eapply still_trans; [exact Hs3|].
          destruct element.
          - apply bind_inv in Hm as [([] & s5 & Ha & Hp) | (e' & Ha & _)].
            + eapply still_trans; [eapply scroll_into_view_still; eauto|].
              eapply pause_for_still; eauto.
            + eapply scroll_into_view_still; eauto.
          - discriminate Hm. }
      assert (Hs4 : still s3 s4).
      { destruct element.
        - apply bind_inv in Hm as [([] & s5 & Ha & Hp) | (e' & _ & He)];
            [|discriminate He].
          eapply still_trans; [eapply scroll_into_view_still; eauto|].
          eapply pause_for_still; eauto.
        - injection Hm as <-. apply still_refl. }
      apply bind_inv in E as [([] & s5 & Hp & E) | (e & Hp & ->)].
      - exists s5. eexists. split.
        + eapply still_trans; [exact Hs3|]. eapply still_trans; [exact Hs4|].
          eapply pause_for_still; eauto.
        + left. split; [reflexivity | exact E].
      - exists s0, (ret true). split; [|right; eauto].
        eapply still_trans; [exact Hs3|]. eapply still_trans; [exact Hs4|].
        eapply pause_for_still; eauto. }
    destruct Happroach as (s3 & rest & Hs3 & [[-> Hrest] | [-> [e ->]]]).
    - pose proof (still_trans _ _ _ Hs02 Hs3) as [_ Hc].
      apply click_and_settle_outcome in Hrest as [[Hk Hr] | Hk].
      + left. split; [congruence | exact Hr].
      + right. split; [congruence | exact Hel].
    - left. split; [|discriminate].
      exact (proj2 (still_trans _ _ _ Hs02 Hs3)). }
  destruct r0 as [b|e].
  - injection H as <- <-. exact Hbody.
  - destruct (is_Exception e).
    + injection H as <- <-. destruct Hbody as [[Hk _] | Hk]; [left | right; exact Hk].
      split; [exact Hk | discriminate].
    + injection H as <- <-. exact Hbody.
Qed.
End SafeClickOutcome.

Section SafeClickGuarded.
Local Open Scope string_scope.
Local Open Scope py_scope.

Lemma is_element_safe_guarded sel : guarded faults_are_exceptions (is_element_safe sel).
Proof.
  unfold is_element_safe, query_selector, evaluate.
  apply guarded_try_except; [|intros e; apply guarded_ret].
  apply guarded_bind; [apply api_call_guarded|]. intros [el|]; [|apply guarded_ret].
  apply guarded_bind; [apply api_call_guarded|]. intros v.
  apply guarded_bind; [|intros b; apply guarded_ret].
  apply guarded_lift_result. intros e. destruct v; intros H; inversion H. reflexivity.
Qed.

Lemma is_element_visible_guarded sel :
  guarded faults_are_exceptions (is_element_visible sel).
Proof.
  unfold is_element_visible, query_selector, evaluate.
  apply guarded_try_except; [|intros e; apply guarded_ret].
  apply guarded_bind; [apply api_call_guarded|]. intros [el|]; [|apply guarded_ret].
  apply guarded_bind; [apply api_call_guarded|]. intros v.
  apply guarded_bind; [|intros b; apply guarded_ret].
  apply guarded_lift_result. intros e. destruct v; intros H; inversion H. reflexivity.
Qed.

Lemma pause_for_guarded a : guarded healthy_session (pause_for a).
Proof.
  unfold pause_for. apply guarded_bind.
  - apply on_world_guarded, on_rng_guarded, generate_delay_guarded.
  - intros d. apply on_world_guarded, wait_for_seconds_guarded.
Qed.

Lemma act_guarded a : guarded healthy_session (act a).
Proof.
  unfold act. apply guarded_bind.
  - apply on_world_guarded, on_page_guarded, api_call_guarded.
  - intros _ s r s' Hs H. injection H as <- <-. split; [exact Hs | discriminate].
Qed.

Lemma safe_click_returns sel chk s :
  healthy_session s ->
  exists b s', safe_click sel chk s = (Ok b, s') /\ healthy_session s'.
Proof.
  intros Hs. unfold safe_click. apply try_except_returns; [|exact Hs].
  apply guarded_bind.
  - destruct chk; [|apply guarded_ret].
    apply guarded_bind; [|intros c; apply guarded_ret].
    apply on_world_guarded, on_page_guarded, is_element_safe_guarded.
  - intros [|]; cbn [negb]; [|apply guarded_ret].
    apply guarded_bind.
    + apply on_world_guarded, on_page_guarded, is_element_visible_guarded.
    + intros [[|] d]; cbn [fst negb]; [|apply guarded_ret].
      apply guarded_bind;
        [apply on_world_guarded, on_page_guarded, api_call_guarded|].
      intros element. apply guarded_bind.
      * destruct element; [|apply guarded_ret].
        apply guarded_bind; [apply act_guarded | intros _; apply pause_for_guarded].
      * intros _. apply guarded_bind; [apply pause_for_guarded|]. intros _.
        apply guarded_bind; [apply act_guarded|]. intros _.
        apply guarded_bind; [apply pause_for_guarded|]. intros _. apply guarded_ret.
Qed.
End SafeClickGuarded.

Section SafeClickTheorems.
Local Open Scope string_scope.

(** X5.  [NavigationBehavior.safe_click] never clicks an element that
    fails its inspection.  When the page, as it is at the call, finds
    nothing under the selector, or finds an element that fails one of the
    six visibility checks or (honeypots being checked for) shows one of the
    detector's indicators, then whatever the random draws and whichever
    calls fail, no click is issued and the call does not return [True]. *)
Theorem safe_click_spares_ineligible (s : Session) (sel : string) (chk : bool) :
  ~ eligible (page (world s)) sel chk ->
  clicks (actions (snd (safe_click sel chk s))) = clicks (actions s)
  /\ fst (safe_click sel chk s) <> Ok true.
Proof.
  intros Hne. destruct (safe_click sel chk s) as [r s'] eqn:E. cbn [fst snd].
  destruct (safe_click_outcome _ _ _ _ _ E) as [H | [_ H]]; [exact H | contradiction].
Qed.

Lemma safe_click_spares_ineligible_witness :
  ~ eligible (page (world (visitor undisplayed))) "#submit" true
  /\ clicks (actions (snd (safe_click "#submit" true (visitor undisplayed))))
     = clicks (actions (visitor undisplayed))
  /\ fst (safe_click "#submit" true (visitor undisplayed)) <> Ok true.
Proof.
  assert (H : ~ eligible (page (world (visitor undisplayed))) "#submit" true).
  { intros (el & Hd & (Hdisp & _) & _). injection Hd as <-. apply Hdisp. reflexivity. }
  split; [exact H|]. exact (safe_click_spares_ineligible _ _ _ H).
Defined.

(** X6.  [NavigationBehavior.safe_click] returns [True] only after
    clicking: then exactly one click was issued, on the given selector, and
    the page found under it an element that passes the six visibility
    checks and (honeypots being checked for) shows no indicator. *)
Theorem safe_click_true_means_clicked (s : Session) (sel : string) (chk : bool) :
  fst (safe_click sel chk s) = Ok true ->
  clicks (actions (snd (safe_click sel chk s))) = (clicks (actions s) ++ [sel])%list
  /\ eligible (page (world s)) sel chk.
Proof.
  destruct (safe_click sel chk s) as [r s'] eqn:E. cbn [fst snd]. intros ->.
  destruct (safe_click_outcome _ _ _ _ _ E) as [[_ H] | H]; [now elim H | exact H].
Qed.

Lemma safe_click_true_means_clicked_witness :
  fst (safe_click "#submit" true (visitor headline)) = Ok true
  /\ clicks (actions (snd (safe_click "#submit" true (visitor headline))))
     = (clicks (actions (visitor headline)) ++ ["#submit"])%list
  /\ eligible (page (world (visitor headline))) "#submit" true.
Proof.
  assert (H : fst (safe_click "#submit" true (visitor headline)) = Ok true)
    by (vm_compute; reflexivity).
  split; [exact H|]. exact (safe_click_true_means_clicked _ _ _ H).
Defined.

(** X7.  [NavigationBehavior.safe_click] lets no [Exception] escape: on
    a page whose failures are all [Exception]s it returns a boolean,
    whichever calls fail and whatever the random draws, and it leaves
    such a page. *)
Theorem safe_click_never_raises (s : Session) (sel : string) (chk : bool) :
  healthy_session s ->
  exists b, fst (safe_click sel chk s) = Ok b
            /\ healthy_session (snd (safe_click sel chk s)).
Proof.
  intros Hs. destruct (safe_click_returns sel chk s Hs) as (b & s' & E & Hs').
  rewrite E. exists b. split; [reflexivity | exact Hs'].
Qed.

Lemma safe_click_never_raises_witness :
  healthy_session (flaky_visitor headline)
  /\ exists b, fst (safe_click "#submit" true (flaky_visitor headline)) = Ok b
               /\ healthy_session (snd (safe_click "#submit" true (flaky_visitor headline))).
Proof.
  assert (H : healthy_session (flaky_visitor headline)).
  { intros n e. cbn. destruct (n =? 2)%nat; intros E; inversion E. reflexivity. }
  split; [exact H|]. exact (safe_click_never_raises _ _ _ H).
Defined.
End SafeClickTheorems.

Section Suspicion.
Local Open Scope string_scope.

(** What the hover loop calls suspicious is what names a trap. *)
Lemma suspicious_attribute_iff attr :
  suspicious_attribute attr = true <-> attribute_names_trap attr.
Proof.
  destruct attr as [a|]; cbn [suspicious_attribute attribute_names_trap];
    [|split; [discriminate | tauto]].
  rewrite <- (matches_any_ci_iff ["hidden"; "trap"; "honeypot"] a) by reflexivity.
  unfold Text.matches_any_ci. destruct a as [|c a]; [|reflexivity].
  split; discriminate.
Qed.

Lemma not_suspicious_attribute attr :
  suspicious_attribute attr = false -> ~ attribute_names_trap attr.
Proof. intros H Hn. apply suspicious_attribute_iff in Hn. congruence. Qed.

End Suspicion.

Section Hovering.
Local Open Scope string_scope.
Local Open Scope py_scope.
Context (P : string * ElementHandle -> Prop).

Lemma hovers_app a b : hovers (a ++ b) = (hovers a ++ hovers b)%list.
Proof.
  induction a as [|[y|ms|sel el] a IH]; cbn [hovers app]; [reflexivity|exact IH|exact IH|].
  now rewrite IH.
Qed.

Lemma hovered_app a b : hovered (a ++ b) = (hovered a ++ hovered b)%list.
Proof.
  induction a as [|[y|ms|sel el] a IH]; cbn [hovered app]; [reflexivity|exact IH|exact IH|].
  now rewrite IH.
Qed.

Lemma hovering_refl w : hovering P w w.
Proof. split; [reflexivity|]. exists []. split; [symmetry; apply app_nil_r | constructor]. Qed.

Lemma hovering_trans w1 w2 w3 : hovering P w1 w2 -> hovering P w2 w3 -> hovering P w1 w3.
Proof.
  intros (A & h1 & B & C) (A' & h2 & B' & C'). split; [congruence|].
  exists (h1 ++ h2)%list. split; [|now apply Forall_app].
  rewrite B', B. symmetry. apply app_assoc.
Qed.

Lemma api_call_hovering {A} (f : Page -> A) evs :
  Forall P (hovered evs) -> respects (hovering P) (on_page (api_call f evs)).
Proof.
  intros Hev w r w' H. unfold on_page, zoom, api_call in H.
  destruct (faults (page w) (calls (page w))); injection H as _ <-;
    unfold hovering; cbn [page events dom_all];
    (split; [reflexivity|]); rewrite hovered_app.
  - exists []. split; [reflexivity | constructor].
  - exists (hovered evs). split; [reflexivity | exact Hev].
Qed.

Lemma on_rng_hovering {A} (m : M random.Rng A) : respects (hovering P) (on_rng m).
Proof.
  intros w r w' H. unfold on_rng, zoom in H. destruct (m (rng w)).
  injection H as _ <-. split; [reflexivity|].
  exists []. split; [symmetry; apply app_nil_r | constructor].
Qed.

Lemma wait_for_seconds_hovering d : respects (hovering P) (wait_for_seconds d).
Proof.
  unfold wait_for_seconds. apply (respects_bind _ hovering_trans).
  - apply (respects_lift_result _ hovering_refl).
  - intros ms. apply api_call_hovering. constructor.
Qed.

Lemma api_call_answer {A} (f : Page -> A) evs w a w' :
  on_page (api_call f evs) w = (Ok a, w') -> a = f (page w).
Proof.
  unfold on_page, zoom, api_call.
  destruct (faults (page w) (calls (page w))); intros H; inversion H. reflexivity.
Qed.

Lemma hover_first_hovering sel : forall els,
  (forall el, In el els -> accepted el -> P (sel, el)) ->
  respects (hovering P) (hover_first sel els).
Proof.
  induction els as [|el els IH]; intros Hacc; cbn [hover_first].
  - apply (respects_ret _ hovering_refl).
  - assert (IH' : respects (hovering P) (hover_first sel els)).
    { apply IH. intros el' Hin. apply Hacc. now right. }
    intros w r w' H.
    apply bind_inv in H as [(vis & w1 & Hv & H) | (e & Hv & _)].
    2:{ exact (api_call_hovering _ [] (Forall_nil _) _ _ _ Hv). }
    pose proof (api_call_answer _ _ _ _ _ Hv) as ->.
    eapply hovering_trans; [exact (api_call_hovering _ [] (Forall_nil _) _ _ _ Hv)|].
    destruct (eh_is_visible el) eqn:Evis; cbn [negb] in H; [|eapply IH'; eauto].
    apply bind_inv in H as [(eid & w2 & Hi & H) | (e & Hi & _)].
    2:{ exact (api_call_hovering _ [] (Forall_nil _) _ _ _ Hi). }
    pose proof (api_call_answer _ _ _ _ _ Hi) as ->.
    eapply hovering_trans; [exact (api_call_hovering _ [] (Forall_nil _) _ _ _ Hi)|].
    apply bind_inv in H as [(ecl & w3 & Hc & H) | (e & Hc & _)].
    2:{ exact (api_call_hovering _ [] (Forall_nil _) _ _ _ Hc). }
    pose proof (api_call_answer _ _ _ _ _ Hc) as ->.
    eapply hovering_trans; [exact (api_call_hovering _ [] (Forall_nil _) _ _ _ Hc)|].
    destruct (suspicious_attribute (eh_id el)) eqn:Eid; [eapply IH'; eauto|].
    destruct (suspicious_attribute (eh_class el)) eqn:Ecl; [eapply IH'; eauto|].
    assert (HP : P (sel, el)).
    { apply (Hacc el); [now left|].
      split; [exact Evis|].
      split; [exact (not_suspicious_attribute _ Eid) | exact (not_suspicious_attribute _ Ecl)]. }
    revert H. apply (respects_bind _ hovering_trans).
    + apply (respects_try_except_all _ hovering_trans);
        [|apply (respects_ret _ hovering_refl)].
      apply (respects_bind _ hovering_trans).
      * apply api_call_hovering. cbn. constructor; [exact HP | constructor].
      * intros _. apply (respects_bind _ hovering_trans); [apply on_rng_hovering|].
        intros d. apply (respects_bind _ hovering_trans);
          [apply wait_for_seconds_hovering|].
        intros _. apply (respects_ret _ hovering_refl).
    + intros [|]; [apply (respects_ret _ hovering_refl) | exact IH'].
Qed.
End Hovering.

Section Sampling.
Local Open Scope py_scope.

Lemma in_firstn {A} n (l : list A) x : In x (firstn n l) -> In x l.
Proof. intros H. rewrite <- (firstn_skipn n l). apply in_or_app. now left. Qed.

Lemma in_skipn {A} n (l : list A) x : In x (skipn n l) -> In x l.
Proof. intros H. rewrite <- (firstn_skipn n l). apply in_or_app. now right. Qed.

Lemma sample_pool_incl {A} k : forall (pool : list A) g picked g',
  random.sample_pool pool k g = (Ok picked, g') -> incl picked pool.
Proof.
  induction k as [|k IH]; intros pool g picked g' H; cbn [random.sample_pool] in H.
  - injection H as <- _. intros x [].
  - apply bind_inv in H as [(u & g1 & _ & H) | (e & _ & H)]; [|discriminate H].
    apply bind_inv in H as [(j & g2 & _ & H) | (e & _ & H)]; [|discriminate H].
    destruct (nth_error pool (Z.to_nat j)) as [x|] eqn:En; [|discriminate H].
    destruct (rev pool) as [|lst rp] eqn:Er; [discriminate H|].
    apply bind_inv in H as [(rest & g3 & Hrest & H) | (e & _ & H)]; [|discriminate H].
    injection H as <- _.
    assert (Hlast : In lst pool).
    { apply in_rev. rewrite Er. now left. }
    intros y [<- | Hy].
    + eapply nth_error_In; eauto.
    + apply IH in Hrest. apply Hrest in Hy.
      apply in_firstn in Hy.
      apply in_app_or in Hy as [Hy | [<- | Hy]].
      * eapply in_firstn; eauto.
      * exact Hlast.
      * eapply in_skipn; eauto.
Qed.

Lemma sample_incl {A} (l : list A) k g picked g' :
  random.sample l k g = (Ok picked, g') -> incl picked l.
Proof.
  unfold random.sample. destruct (_ <? _)%nat; [discriminate|]. apply sample_pool_incl.
Qed.
End Sampling.

Section HoverTheorems.
Local Open Scope string_scope.
Local Open Scope py_scope.

Lemma on_rng_inv {A} (m : M random.Rng A) w r w' :
  on_rng m w = (r, w') -> exists g', m (rng w) = (r, g').
Proof.
  unfold on_rng, zoom. destruct (m (rng w)) as [r0 g']. intros H.
  injection H as <- _. eauto.
Qed.

Lemma hover_selectors_hovering p0 : forall sels w r w',
  incl sels interesting_selectors ->
  dom_all (page w) = dom_all p0 ->
  hover_selectors sels w = (r, w') ->
  hovering (inviting p0) w w'.
Proof.
  induction sels as [|sel sels IH]; intros w r w' Hincl Hdom H; cbn [hover_selectors] in H.
  - injection H as _ <-. apply hovering_refl.
  - assert (Hincl' : incl sels interesting_selectors).
    { intros x Hx. apply Hincl. now right. }
    apply bind_inv in H as [(elements & w1 & Hq & H) | (e & Hq & _)].
    2:{ exact (api_call_hovering _ _ [] (Forall_nil _) _ _ _ Hq). }
    pose proof (api_call_answer _ _ _ _ _ Hq) as Hel.
    pose proof (api_call_hovering (inviting p0) _ [] (Forall_nil _) _ _ _ Hq) as H1.
    eapply hovering_trans; [exact H1|].
    assert (Hdom1 : dom_all (page w1) = dom_all p0) by (rewrite (proj1 H1); exact Hdom).
    destruct elements as [|el0 els0] eqn:Eels; [eapply IH; eauto|].
    rewrite <- Eels in *. clear Eels.
    apply bind_inv in H as [(picked & w2 & Hs & H) | (e & Hs & _)].
    2:{ revert Hs. apply on_rng_hovering. }
    pose proof (on_rng_hovering (inviting p0) _ _ _ _ Hs) as H2.
    eapply hovering_trans; [exact H2|].
    apply on_rng_inv in Hs as [g' Hs]. apply sample_incl in Hs.
    assert (Hf : respects (hovering (inviting p0)) (hover_first sel picked)).
    { apply hover_first_hovering. intros el Hin Hacc. split; [|split].
      - apply Hincl. now left.
      - cbn [fst snd]. rewrite <- Hdom, <- Hel. now apply Hs.
      - exact Hacc. }
    apply bind_inv in H as [(done & w3 & Hh & H) | (e & Hh & _)].
    2:{ eapply Hf; eauto. }
    pose proof (Hf _ _ _ Hh) as H3.
    eapply hovering_trans; [exact H3|].
    destruct done.
    + injection H as _ <-. apply hovering_refl.
    + eapply IH; eauto. rewrite (proj1 H3), (proj1 H2). exact Hdom1.
Qed.

Lemma accepted_by_test el :
  eh_is_visible el = true ->
  suspicious_attribute (eh_id el) = false ->
  suspicious_attribute (eh_class el) = false ->
  accepted el.
Proof.
  intros H1 H2 H3. split; [exact H1|].
  split; [exact (not_suspicious_attribute _ H2) | exact (not_suspicious_attribute _ H3)].
Qed.

(** X8.  [ScrollBehavior._hover_interesting_content] hovers only what
    the page invites: however it ends, every hover it issued is of a handle
    the page holds under a selector of the hover list, visible, whose [id]
    and [class] have no part reading [hidden], [trap] or [honeypot],
    letter case apart.  It can hover more than once: when the wait after
    a hover fails, the next candidate is hovered too. *)
Theorem hover_only_inviting :
  (forall w : World,
     exists hs,
       hovered (events (page (snd (_hover_interesting_content w))))
         = (hovered (events (page w)) ++ hs)%list
       /\ Forall (inviting (page w)) hs)
  /\ (fst (_hover_interesting_content stuttering_reader) = Ok tt
      /\ length (hovered (events (page (snd (_hover_interesting_content
                                                stuttering_reader))))) = 2%nat
      /\ accepted first_heading /\ accepted second_heading).
Proof.
  split.
  - intros w.
    destruct (_hover_interesting_content w) as [r w'] eqn:E. cbn [snd].
    unfold _hover_interesting_content, try_except in E.
    destruct (hover_selectors interesting_selectors w) as [r0 w0] eqn:E0.
    apply hover_selectors_hovering with (p0 := page w) in E0;
      [|apply incl_refl | reflexivity].
    assert (w' = w0) as ->.
    { destruct r0 as [[]|e]; [now injection E|].
      destruct (is_Exception e); now injection E. }
    exact (proj2 E0).
  - split; [vm_compute; reflexivity|]. split; [vm_compute; reflexivity|].
    split; apply accepted_by_test; reflexivity.
Qed.
End HoverTheorems.

Section CountedScrolls.
Local Open Scope py_scope.

(** X9.  [NavigationBehavior.read_and_explore] never scrolls: after the
    thinking pause it calls [burst_scroll], which raises before it scrolls
    ([TypeError] from [get_viewport_info] when the page's calls succeed).
    Whatever [max_scrolls] is and whatever the page does, the call ends in
    an exception, the trace holds no new scroll and [current_position] is
    unchanged. *)
Theorem read_and_explore_never_scrolls (max_scrolls : option Z) (w : World) :
  exists e,
    fst (read_and_explore max_scrolls w) = Raise e
    /\ scroll_positions (events (page (snd (read_and_explore max_scrolls w))))
       = scroll_positions (events (page w))
    /\ current_position (snd (read_and_explore max_scrolls w)) = current_position w.
Proof.
  destruct (read_and_explore max_scrolls w) as [r w'] eqn:E. cbn [fst snd].
  unfold read_and_explore in E.
  assert (Hnone : quiet w w' ->
    scroll_positions (events (page w')) = scroll_positions (events (page w))
    /\ current_position w' = current_position w).
  { intros (_ & _ & Hp & Hc). auto. }
  apply bind_inv in E as [(d & w1 & Hd & E) | (e & Hd & ->)].
  2:{ exists e. split; [reflexivity|]. apply Hnone.
      revert Hd. apply on_rng_quiet, generate_delay_later. }
  assert (Hq1 : quiet w w1) by (revert Hd; apply on_rng_quiet, generate_delay_later).
  apply bind_inv in E as [([] & w2 & Hw & E) | (e & Hw & ->)].
  2:{ exists e. split; [reflexivity|]. apply Hnone.
      eapply quiet_trans; [exact Hq1|]. eapply wait_for_seconds_quiet; eauto. }
  assert (Hq2 : quiet w w2).
  { eapply quiet_trans; [exact Hq1|]. eapply wait_for_seconds_quiet; eauto. }
  rewrite burst_scroll_raises in E. injection E as <- <-.
  eexists. split; [reflexivity|].
  destruct Hq2 as (_ & _ & Hp & Hc). split; [exact Hp | exact Hc].
Qed.

(** On a page whose calls all succeed the exception is the [TypeError]
    of [get_viewport_info], raised after the thinking pause. *)
Example read_and_explore_reader :
  fst (read_and_explore (Some 2%Z) reader) = Raise TypeError
  /\ events (page (snd (read_and_explore (Some 2%Z) reader))) = [WaitForTimeout 1500].
Proof. split; reflexivity. Qed.
End CountedScrolls.

End ReadingMimicryMore.

(** ** kinematic_mouse.py: geometry, timing and the shape of a path *)

Section KinematicMouseMore.
Import Py PyReal real_random kinematic_mouse kinematic_mouse.HumanMouseMovement.
Local Open Scope R_scope.

Section Geometry.

Lemma calculate_point_at_0 (p0 p1 p2 p3 : Point) :
  BezierCurve.calculate_point 0 p0 p1 p2 p3 = p0.
Proof.
  unfold BezierCurve.calculate_point. destruct p0 as [x0 y0]. cbn. f_equal; ring.
Qed.

Lemma calculate_point_at_1 (p0 p1 p2 p3 : Point) :
  BezierCurve.calculate_point 1 p0 p1 p2 p3 = p3.
Proof.
  unfold BezierCurve.calculate_point. destruct p3 as [x3 y3]. cbn. f_equal; ring.
Qed.

(** X13.  The curve of [BezierCurve.calculate_point] starts at [p0] and
    ends at [p3], wherever the two control points lie. *)
Theorem bezier_endpoints (p0 p1 p2 p3 : Point) :
  BezierCurve.calculate_point 0 p0 p1 p2 p3 = p0
  /\ BezierCurve.calculate_point 1 p0 p1 p2 p3 = p3.
Proof.
  unfold BezierCurve.calculate_point. destruct p0 as [x0 y0], p3 as [x3 y3]. cbn.
  split; f_equal; ring.
Qed.

End Geometry.

Section FittsMore.
Import FittsLaw.

Lemma log2_monotone (a b : R) : 0 < a -> a <= b -> log2 a <= log2 b.
Proof.
  intros Ha Hab. unfold log2. apply Rmult_le_compat_r.
  - apply Rlt_le, Rinv_0_lt_compat, ln_2_pos.
  - destruct (Req_dec a b) as [->|Hne]; [lra|].
    apply Rlt_le, ln_increasing; lra.
Qed.

(** X16.  Under the same random draw, [FittsLaw.calculate_movement_time]
    never returns less for a target that is farther away, or narrower, or
    both (distances from 0 on, positive widths). *)
Theorem movement_time_monotone (d1 d2 w1 w2 : R) (g : Rng) :
  0 <= d1 <= d2 -> 0 < w2 <= w1 -> 0 <= unit_tape g 0 ->
  exists t1 t2 g',
    calculate_movement_time d1 w1 g = (Ok t1, g')
    /\ calculate_movement_time d2 w2 g = (Ok t2, g')
    /\ t1 <= t2.
Proof.
  intros [Hd1 Hd] [Hw2 Hw] Hu.
  rewrite !calculate_movement_time_run by lra.
  do 3 eexists. split; [reflexivity|]. split; [reflexivity|].
  apply Rmult_le_compat_r; [lra|].
  unfold fitts_base, effective_width.
  destruct (Rle_dec w1 0); [lra|]. destruct (Rle_dec w2 0); [lra|].
  assert (Hr : d1 / w1 <= d2 / w2).
  { unfold Rdiv. apply Rmult_le_compat; try lra.
    - apply Rlt_le, Rinv_0_lt_compat. lra.
    - apply Rinv_le_contravar; lra. }
  assert (H0 : 0 <= d1 / w1).
  { apply Rmult_le_pos; [lra|]. apply Rlt_le, Rinv_0_lt_compat. lra. }
  pose proof (log2_monotone (d1 / w1 + 1) (d2 / w2 + 1)). lra.
Qed.

Lemma movement_time_monotone_witness :
  (0 <= 100 <= 500 /\ 0 < 20 <= 50 /\ 0 <= unit_tape steady 0) /\
  exists t1 t2 g',
    calculate_movement_time 100 50 steady = (Ok t1, g')
    /\ calculate_movement_time 500 20 steady = (Ok t2, g')
    /\ t1 <= t2.
Proof.
  assert (H1 : 0 <= 100 <= 500) by lra.
  assert (H2 : 0 < 20 <= 50) by lra.
  assert (H3 : 0 <= unit_tape steady 0) by (simpl; lra).
  split; [auto|]. exact (movement_time_monotone 100 500 50 20 steady H1 H2 H3).
Defined.

(** X17.  [FittsLaw.calculate_movement_time] raises [ValueError], the
    domain error of [math.log2], and draws nothing, when
    [distance / W + 1 <= 0] for the width [W] it divides by: a distance of
    [-W] or below. *)
Theorem movement_time_domain_error (distance target_width : R) (g : Rng) :
  distance / effective_width target_width + 1 <= 0 ->
  calculate_movement_time distance target_width g = (Raise ValueError, g).
Proof.
  intros H. unfold calculate_movement_time, effective_width in *.
  destruct (Rle_dec target_width 0) as [Hw|Hw].
  - rewrite py_truediv_ok by lra. unfold lift_result at 1, bind at 1.
    unfold math_log2. destruct (Rlt_dec 0 (distance / 1 + 1)); [lra | reflexivity].
  - rewrite py_truediv_ok by lra. unfold lift_result at 1, bind at 1.
    unfold math_log2. destruct (Rlt_dec 0 (distance / target_width + 1)); [lra | reflexivity].
Qed.

Lemma movement_time_domain_error_witness :
  -50 / effective_width 50 + 1 <= 0
  /\ calculate_movement_time (-50) 50 steady = (Raise ValueError, steady).
Proof.
  assert (H : -50 / effective_width 50 + 1 <= 0).
  { unfold effective_width. destruct (Rle_dec 50 0); lra. }
  split; [exact H|]. exact (movement_time_domain_error (-50) 50 steady H).
Defined.
End FittsMore.

Section PathShape.

Lemma path_times_length mt n : length (path_times mt n) = Z.to_nat (n + 1).
Proof. unfold path_times. now rewrite length_map, length_seq. Qed.

Lemma last_map_of {A B} (f : A -> B) (l : list A) d d' :
  l <> [] -> last (map f l) d' = f (last l d).
Proof.
  induction l as [|a l IH]; [congruence|]. intros _.
  destruct l as [|b l]; [reflexivity|].
  change (last (map f (b :: l)) d' = f (last (b :: l) d)). apply IH. discriminate.
Qed.

Lemma last_tl {A} (l : list A) d : (2 <= length l)%nat -> last (tl l) d = last l d.
Proof. destruct l as [|a [|b l]]; cbn [length]; try lia. reflexivity. Qed.

Lemma length_tl {A} (l : list A) : length (tl l) = (length l - 1)%nat.
Proof. destruct l; cbn [tl length]; lia. Qed.

Lemma last_app_right {A} (l1 l2 : list A) d : l2 <> [] -> last (l1 ++ l2) d = last l2 d.
Proof.
  intros H2. induction l1 as [|a l1 IH]; [reflexivity|].
  cbn [app]. destruct (l1 ++ l2) eqn:E.
  - apply app_eq_nil in E as [_ ->]. congruence.
  - exact IH.
Qed.


End PathShape.

Section ControlPoints.
Import BezierCurve.
Local Open Scope py_scope.

Lemma total_bind_pure {S A B} (F : Prop) (P : S -> Prop) (m : M S A)
    (Q : A -> Prop) (k : A -> M S B) (Q' : B -> S -> Prop) :
  total P m (fun a s => Q a /\ P s) ->
  (forall a, total (fun s => (F /\ Q a) /\ P s) (k a) Q') ->
  total (fun s => F /\ P s) (bind m k) Q'.
Proof.
  intros Hm Hk s [HF Hs]. destruct (Hm s Hs) as (a & s1 & E1 & Ha & Hs1).
  destruct (Hk a s1 (conj (conj HF Ha) Hs1)) as (b & s2 & E2 & H2).
  exists b, s2. unfold bind. rewrite E1. auto.
Qed.

Lemma random_with z :
  total (draws_with z) random (fun u g' => 0 <= u < 1 /\ draws_with z g').
Proof.
  intros g [Hg Hz]. do 2 eexists. split; [reflexivity|].
  split; [apply Hg|]. split; [now apply unit_draws_tail | exact Hz].
Qed.

Lemma uniform_with z a b : a <= b ->
  total (draws_with z) (uniform a b) (fun u g' => a <= u <= b /\ draws_with z g').
Proof.
  intros Hab. unfold uniform. eapply total_bind; [apply random_with|].
  intros u. apply total_ret. intros g [[H0 H1] Hg]. split; [nra | exact Hg].
Qed.

Lemma choice_with {A} z (l : list A) : l <> [] ->
  total (draws_with z) (choice l) (fun a g' => In a l /\ draws_with z g').
Proof.
  intros Hl g [Hg Hz].
  destruct (choice_total l Hl g Hg) as (a & g' & E & Hin & Hg').
  exists a, g'. split; [exact E|]. split; [exact Hin|]. split; [exact Hg'|].
  unfold choice, bind, random in E. cbn in E.
  destruct (nth_error l _); injection E as _ <-; exact Hz.
Qed.

Lemma total_bind_with {A B} z (m : M Rng A) (Q : A -> Prop) (k : A -> M Rng B)
    (Q' : B -> Rng -> Prop) :
  total (draws_with z) m (fun a g => Q a /\ draws_with z g) ->
  (forall a, total (draws_with z) (k a) Q') ->
  total (draws_with z) (bind m k) Q'.
Proof.
  intros Hm Hk g Hg. destruct (Hm g Hg) as (a & g1 & E1 & _ & Hg1).
  destruct (Hk a g1 Hg1) as (b & g2 & E2 & H2).
  exists b, g2. unfold bind. rewrite E1. auto.
Qed.

(** The control points are drawn without a failure and without a normal
    deviate, for a start and an end that are near. *)
Lemma control_points_total (start end_ : Point) (randomness : R) (z : nat -> R) :
  near start end_ ->
  total (draws_with z) (generate_control_points start end_ randomness)
        (fun _ => draws_with z).
Proof.
  intros [Hx Hy]. unfold generate_control_points.
  rewrite !float_pow_2_ok by assumption. rewrite !bind_lift_ok.
  apply total_bind_with with (Q := fun _ => True).
  - destruct (Rlt_dec 0 _) as [Hd|Hd].
    + rewrite !py_truediv_ok by lra.
      intros g Hg. do 2 eexists. split; [reflexivity | auto].
    + apply total_ret. auto.
  - intros [px py].
    repeat (eapply total_bind_with;
            [first [apply uniform_with; lra | apply choice_with; discriminate]
            | intros ?]).
    apply total_ret. auto.
Qed.
End ControlPoints.

Section DirectPath.
Local Open Scope py_scope.

Lemma normal_path_step_run start cp1 cp2 end_ mt (n : Z) (i : nat) z g :
  (0 < n)%Z -> (Z.of_nat i <= n)%Z ->
  (forall j, normal_tape g j = z (2 * i + j)%nat) ->
  exists g',
    normal_path_step start cp1 cp2 end_ mt n i g
      = (Ok (tremored_sample start cp1 cp2 end_ mt n z i), g')
    /\ unit_tape g' = unit_tape g
    /\ (forall j, normal_tape g' j = z (2 * S i + j)%nat).
Proof.
  intros Hn Hi Hz. unfold normal_path_step.
  rewrite py_truediv_ok by (intros H; apply eq_IZR_R0 in H; lia).
  rewrite bind_lift_ok, (ease_unit _ (step_fraction_unit n i Hn Hi)), bind_lift_ok.
  exists (mkRng (unit_tape g) (tape_tail (tape_tail (normal_tape g)))).
  split; [|split].
  - pose proof (Hz 0%nat) as Hz0. pose proof (Hz 1%nat) as Hz1.
    rewrite Nat.add_0_r in Hz0.
    cbv [lift_result bind MicroTremor.apply_tremor gauss ret tape_tail
         normal_tape unit_tape tremored_sample x y].
    destruct g as [ut nt]. cbv [normal_tape] in Hz0, Hz1.
    rewrite Hz0, Hz1. reflexivity.
  - reflexivity.
  - intros j. cbn [normal_tape]. unfold tape_tail. rewrite Hz. f_equal. lia.
Qed.

Lemma normal_path_loop start cp1 cp2 end_ mt (n : Z) z :
  (0 < n)%Z ->
  forall m k g,
    (Z.of_nat (k + m) <= n + 1)%Z ->
    (forall j, normal_tape g j = z (2 * k + j)%nat) ->
    exists g',
      for_each (normal_path_step start cp1 cp2 end_ mt n) (seq k m) g
        = (Ok (map (tremored_sample start cp1 cp2 end_ mt n z) (seq k m)), g')
      /\ unit_tape g' = unit_tape g
      /\ (forall j, normal_tape g' j = z (2 * (k + m) + j)%nat).
Proof.
  intros Hn. induction m as [|m IH]; intros k g Hk Hz; cbn [seq for_each map].
  - exists g. split; [reflexivity|]. split; [reflexivity|].
    intros j. rewrite Hz. f_equal. lia.
  - destruct (normal_path_step_run start cp1 cp2 end_ mt n k z g Hn ltac:(lia) Hz)
      as (g1 & E1 & U1 & Z1).
    destruct (IH (S k) g1 ltac:(lia) Z1) as (g2 & E2 & U2 & Z2).
    exists g2. unfold bind. rewrite E1, E2. split; [reflexivity|].
    split; [congruence|]. intros j. rewrite Z2. f_equal. lia.
Qed.

Lemma INR_over_self (n : Z) : (0 < n)%Z -> INR (Z.to_nat n) / IZR n = 1.
Proof.
  intros Hn. rewrite INR_IZR_INZ, Z2Nat.id by lia.
  apply Rinv_r. intros H. apply eq_IZR_R0 in H. lia.
Qed.

(** A direct path, run: its samples are the curve's points at the step
    fractions, each displaced by its tremor. *)
Lemma generate_normal_path_run start end_ mt g :
  near start end_ ->
  unit_draws g ->
  let n := path_steps init start end_ in
  exists cp1 cp2 g',
    _generate_normal_path init start end_ mt g
      = (Ok (map (tremored_sample start cp1 cp2 end_ mt n (normal_tape g))
                 (seq 0 (S (Z.to_nat n)))), g')
    /\ unit_draws g'
    /\ (forall j, normal_tape g' j = normal_tape g (2 * S (Z.to_nat n) + j)%nat).
Proof.
  intros Hnear Hg n.
  destruct (control_points_total start end_ (3/10) (normal_tape g) Hnear g
              (conj Hg eq_refl))
    as ([cp1 cp2] & g1 & E1 & Hg1 & Hz1).
  pose proof (path_steps_init start end_) as Hn. fold n in Hn.
  destruct (normal_path_loop start cp1 cp2 end_ mt n (normal_tape g)
              ltac:(lia) (S (Z.to_nat n)) 0%nat g1)
    as (g2 & E2 & U2 & Z2).
  { lia. }
  { intros j. rewrite Hz1. f_equal. }
  exists cp1, cp2, g2. split; [|split].
  - unfold _generate_normal_path. unfold bind at 1. rewrite E1.
    rewrite (distance_to_near _ _ Hnear), bind_lift_ok.
    fold (path_steps init start end_). fold n.
    replace (Z.to_nat (n + 1)) with (S (Z.to_nat n)) by lia. exact E2.
  - intros k. rewrite U2. apply Hg1.
  - intros j. rewrite Z2. f_equal.
Qed.

(** A direct path, run: where it starts and ends, its timestamps, and
    what it leaves of the normal deviates. *)
Lemma generate_normal_path_ends start end_ mt g :
  near start end_ ->
  unit_draws g ->
  let n := Z.to_nat (path_steps init start end_) in
  let z := normal_tape g in
  exists path g',
    _generate_normal_path init start end_ mt g = (Ok path, g')
    /\ unit_draws g'
    /\ map timestamp path = path_times mt (path_steps init start end_)
    /\ hd_error path
       = Some (x start + (0 + z 0%nat * (1/10)), y start + (0 + z 1%nat * (1/10)), 0)
    /\ last path (0, 0, 0)
       = (x end_ + (0 + z (2 * n)%nat * (1/10)),
          y end_ + (0 + z (2 * n + 1)%nat * (1/10)), mt)
    /\ (forall j, normal_tape g' j = z (2 * S n + j)%nat).
Proof.
  intros Hnear Hg n z.
  destruct (generate_normal_path_run start end_ mt g Hnear Hg)
    as (cp1 & cp2 & g' & E & Hg' & Hz').
  destruct (generate_normal_path_total start end_ mt Hnear g Hg)
    as (path0 & g0 & E0 & _ & T0).
  rewrite E in E0. injection E0 as <- _.
  pose proof (path_steps_init start end_) as Hn.
  eexists. exists g'. split; [exact E|]. fold n z in Hz' |- *.
  split; [exact Hg'|]. split; [exact T0|]. split; [|split; [|exact Hz']].
  - cbn [seq map hd_error]. f_equal. unfold tremored_sample.
    cbn [INR Z.of_nat Z.ltb Z.compare andb Nat.mul Nat.add].
    replace (0 / IZR (path_steps init start end_)) with 0 by (unfold Rdiv; ring).
    rewrite calculate_point_at_0, ease_0.
    repeat f_equal; ring.
  - rewrite seq_S, map_app. cbn [map Nat.add]. rewrite last_last.
    unfold tremored_sample.
    replace (INR n / IZR (path_steps init start end_)) with 1
      by (symmetry; apply INR_over_self; lia).
    rewrite calculate_point_at_1, ease_1.
    replace (Z.of_nat n <? path_steps init start end_)%Z with false
      by (symmetry; apply Z.ltb_ge; unfold n; lia).
    rewrite andb_false_r. repeat f_equal; ring.
Qed.

(** X20.  A direct path between two points that are near starts at the
    start point and ends at the end point, each displaced per axis only by
    the tremor of the ends, a standard normal deviate scaled by 0.1; its
    first timestamp is 0 and its last is the movement time it was given. *)
Theorem direct_path_ends (start end_ : Point) (mt : R) (g : Rng) :
  near start end_ ->
  unit_draws g ->
  let n := Z.to_nat (path_steps init start end_) in
  let z := normal_tape g in
  exists path g',
    _generate_normal_path init start end_ mt g = (Ok path, g')
    /\ hd_error path
       = Some (x start + (0 + z 0%nat * (1/10)), y start + (0 + z 1%nat * (1/10)), 0)
    /\ last path (0, 0, 0)
       = (x end_ + (0 + z (2 * n)%nat * (1/10)),
          y end_ + (0 + z (2 * n + 1)%nat * (1/10)), mt).
Proof.
  intros Hnear Hg n z.
  destruct (generate_normal_path_ends start end_ mt g Hnear Hg)
    as (path & g' & E & _ & _ & Hhd & Hlast & _).
  exists path, g'. split; [exact E|]. split; [exact Hhd | exact Hlast].
Qed.

Lemma near_300_400 : near (mkPoint 0 0) (mkPoint 300 400).
Proof.
  apply close_near.
  exact (within_reach_close (0, 0) (300, 400) origin_within_reach target_within_reach).
Qed.

Lemma direct_path_ends_witness :
  (near (mkPoint 0 0) (mkPoint 300 400) /\ unit_draws steady) /\
  let n := Z.to_nat (path_steps init (mkPoint 0 0) (mkPoint 300 400)) in
  let z := normal_tape steady in
  exists path g',
    _generate_normal_path init (mkPoint 0 0) (mkPoint 300 400) 500 steady
      = (Ok path, g')
    /\ hd_error path
       = Some (x (mkPoint 0 0) + (0 + z 0%nat * (1/10)),
               y (mkPoint 0 0) + (0 + z 1%nat * (1/10)), 0)
    /\ last path (0, 0, 0)
       = (x (mkPoint 300 400) + (0 + z (2 * n)%nat * (1/10)),
          y (mkPoint 300 400) + (0 + z (2 * n + 1)%nat * (1/10)), 500).
Proof.
  split; [split; [exact near_300_400 | exact steady_unit_draws]|].
  exact (direct_path_ends (mkPoint 0 0) (mkPoint 300 400) 500 steady
           near_300_400 steady_unit_draws).
Defined.
End DirectPath.

End KinematicMouseMore.

(** ** infiltrator_complete.py: configuration, locale and interactions *)

Section InfiltratorSessionMore.

Section ConfigLines.
Import Py PyText InfiltratorSession.
Local Open Scope string_scope.

Lemma contains_equals_iff (s : string) :
  Text.contains "=" s = true <-> occurs "="%char s.
Proof.
  unfold occurs. induction s as [|c s IH]; cbn [Text.contains list_ascii_of_string In].
  - cbn. split; [discriminate | tauto].
  - rewrite orb_true_iff, IH. cbn [prefix].
    destruct (ascii_dec "="%char c) as [<-|Hne].
    + split; [now left | intros _; left; now destruct s].
    + split; [intros [H|H]; [discriminate | now right]
             | intros [H|H]; [congruence | now right]].
Qed.

Lemma occurs_lstrip c s : PyStr.is_space c = false -> occurs c s -> occurs c (lstrip s).
Proof.
  intros Hc. unfold occurs. induction s as [|a s IH]; cbn [lstrip]; [tauto|].
  destruct (PyStr.is_space a) eqn:Ea; [|tauto].
  cbn [list_ascii_of_string In]. intros [<-|H]; [congruence | auto].
Qed.

Lemma rstrip_cons c s :
  rstrip (String c s)
  = match rstrip s with
    | EmptyString => if PyStr.is_space c then EmptyString else String c EmptyString
    | kept => String c kept
    end.
Proof. reflexivity. Qed.

Lemma occurs_rstrip c s : PyStr.is_space c = false -> occurs c s -> occurs c (rstrip s).
Proof.
  intros Hc. unfold occurs. induction s as [|a s IH]; [cbn; tauto|].
  rewrite rstrip_cons. cbn [list_ascii_of_string In]. intros [<-|H].
  - destruct (rstrip s); [rewrite Hc|]; now left.
  - specialize (IH H). destruct (rstrip s); [destruct IH|]. now right.
Qed.

Lemma occurs_strip c s : PyStr.is_space c = false -> occurs c s -> occurs c (strip s).
Proof. intros Hc H. now apply occurs_rstrip, occurs_lstrip. Qed.

Lemma partition_occurs sep s :
  occurs sep s -> exists before after, partition sep s = Some (before, after).
Proof.
  unfold occurs. induction s as [|c s IH]; cbn [list_ascii_of_string In partition]; [tauto|].
  intros H. destruct (Ascii.eqb_spec c sep) as [->|Hne]; [eauto|].
  destruct H as [H|H]; [congruence|].
  destruct (IH H) as (b & a & ->). eauto.
Qed.

Lemma partition_first sep key rest :
  ~ occurs sep key -> partition sep (key ++ String sep rest) = Some (key, rest).
Proof.
  unfold occurs. induction key as [|c key IH]; cbn [list_ascii_of_string In append partition].
  - intros _. now rewrite Ascii.eqb_refl.
  - intros H. destruct (Ascii.eqb_spec c sep) as [->|Hne]; [elim H; now left|].
    rewrite IH; [reflexivity|]. intros Hk. apply H. now right.
Qed.

Lemma get_set {V} (d : dict V) key (value : V) : get (set d key value) key = Some value.
Proof.
  induction d as [|[k v] d IH]; cbn [set get].
  - now rewrite String.eqb_refl.
  - destruct (k =? key) eqn:E; cbn [get]; rewrite E; [reflexivity | exact IH].
Qed.

Lemma read_config_lines_total (config_lines : list string) :
  forall config, exists config', read_config_lines config config_lines = Ok config'.
Proof.
  induction config_lines as [|line rest IH]; intros config; cbn [read_config_lines].
  - eauto.
  - destruct (Text.contains "=" line) eqn:E; [|apply IH].
    apply contains_equals_iff in E.
    apply (occurs_strip "="%char) in E; [|reflexivity].
    destruct (partition_occurs _ _ E) as (key & value & Hp).
    unfold split_once. rewrite Hp. cbn [unpack2]. apply IH.
Qed.

(** X21.  The loop of [load_configuration] over the configuration lines
    never raises: a line is taken apart only when it contains [=], and
    then [split('=', 1)] of the stripped line has exactly two parts, so
    the unpacking into key and value cannot fail. *)
Theorem read_config_never_raises (config_lines : list string) (config : dict string) :
  exists config', read_config_lines config config_lines = Ok config'.
Proof.
  revert config.
  induction config_lines as [|line rest IH]; intros config; cbn [read_config_lines].
  - eauto.
  - destruct (Text.contains "=" line) eqn:E; [|apply IH].
    apply contains_equals_iff in E.
    apply (occurs_strip "="%char) in E; [|reflexivity].
    destruct (partition_occurs _ _ E) as (key & value & Hp).
    unfold split_once. rewrite Hp. cbn [unpack2]. apply IH.
Qed.

Lemma read_config_lines_app l1 : forall l2 config,
  read_config_lines config (l1 ++ l2)
  = match read_config_lines config l1 with
    | Ok config' => read_config_lines config' l2
    | Raise e => Raise e
    end.
Proof.
  induction l1 as [|line l1 IH]; intros l2 config; cbn [app read_config_lines];
    [reflexivity|].
  destruct (Text.contains "=" line); [|apply IH].
  destruct (unpack2 _) as [[key value]|e]; [apply IH | reflexivity].
Qed.

Lemma lstrip_clean_app a b : lstrip a = a -> a <> "" -> lstrip (a ++ b) = a ++ b.
Proof.
  destruct a as [|c a]; [congruence|]. cbn [lstrip append].
  destruct (PyStr.is_space c) eqn:E; [|reflexivity].
  intros H _. exfalso.
  assert (L : forall s, String.length (lstrip s) <= String.length s).
  { induction s as [|x s IHs]; cbn [lstrip]; [lia|].
    destruct (PyStr.is_space x); cbn [String.length]; lia. }
  pose proof (L a) as La. rewrite H in La. cbn [String.length] in La. lia.
Qed.

Lemma rstrip_app_kept a b : rstrip b <> "" -> rstrip (a ++ b) = a ++ rstrip b.
Proof.
  intros Hb. induction a as [|c a IH]; [reflexivity|].
  cbn [append]. rewrite rstrip_cons, IH.
  destruct (a ++ rstrip b) eqn:E; [|reflexivity].
  destruct a; [|discriminate E]. cbn in E. congruence.
Qed.

Lemma rstrip_nonspace c s :
  PyStr.is_space c = false -> rstrip (String c s) = String c (rstrip s).
Proof. intros Hc. rewrite rstrip_cons. destruct (rstrip s); [now rewrite Hc | reflexivity]. Qed.

Lemma rstrip_newline s : rstrip (s ++ newline) = rstrip s.
Proof.
  induction s as [|c s IH]; [reflexivity|].
  cbn [append]. now rewrite !rstrip_cons, IH.
Qed.

Lemma strip_config_line key value :
  lstrip key = key -> rstrip value = value ->
  strip (key ++ "=" ++ value ++ newline) = key ++ "=" ++ value.
Proof.
  intros Hk Hv. unfold strip.
  assert (Hl : lstrip (key ++ "=" ++ value ++ newline) = key ++ "=" ++ value ++ newline).
  { destruct key as [|c key]; [reflexivity|]. apply lstrip_clean_app; [exact Hk | discriminate]. }
  rewrite Hl.
  change (key ++ "=" ++ value ++ newline)
    with (key ++ String "="%char (value ++ newline)).
  rewrite rstrip_app_kept.
  - rewrite rstrip_nonspace by reflexivity. now rewrite rstrip_newline, Hv.
  - rewrite rstrip_nonspace by reflexivity. discriminate.
Qed.

(** X22.  A configuration line [KEY=VALUE] of ASCII text followed by a line
    feed is read back as written, wherever it stands after other lines:
    when the key holds no [=] and no leading whitespace and the value no
    trailing whitespace, the configuration maps the key to the whole value,
    further [=] signs included. *)
Theorem config_line_round_trip (config_lines : list string) (key value : string)
    (config : dict string) :
  ~ occurs "="%char key -> lstrip key = key -> rstrip value = value ->
  exists config',
    read_config_lines config (config_lines ++ [key ++ "=" ++ value ++ newline])
      = Ok config'
    /\ get config' key = Some value.
Proof.
  intros Hkey Hk Hv. rewrite read_config_lines_app.
  destruct (read_config_lines_total config_lines config) as [c1 ->].
  cbn [read_config_lines].
  assert (Hc : Text.contains "=" (key ++ "=" ++ value ++ newline) = true).
  { apply contains_equals_iff. unfold occurs.
    clear. induction key as [|c key IH]; cbn; [now left | now right]. }
  rewrite Hc, strip_config_line by assumption.
  unfold split_once.
  change (key ++ "=" ++ value) with (key ++ String "="%char value).
  rewrite partition_first by exact Hkey. cbn [unpack2].
  eexists. split; [reflexivity | apply get_set].
Qed.
End ConfigLines.

Section Locale.
Import Py PyText InfiltratorSession.
Local Open Scope string_scope.

(** X23.  Every locale [_get_locale_from_timezone] returns is one of
    [en-US], [en-GB], [fr-FR], [ja-JP], [zh-CN], and it is [en-US] for
    every timezone string other than the four non-American zones of the
    map. *)
Theorem locale_is_listed (identity : JSON) (locale : string) :
  _get_locale_from_timezone identity = Ok locale ->
  In locale ["en-US"; "en-GB"; "fr-FR"; "ja-JP"; "zh-CN"]
  /\ (forall members timezone,
        identity = JObject members ->
        get members "timezone" = Some (JString timezone) ->
        ~ In timezone ["Europe/London"; "Europe/Paris"; "Asia/Tokyo"; "Asia/Shanghai"] ->
        locale = "en-US").
Proof.
  unfold _get_locale_from_timezone.
  destruct identity as [| | | | |items|members]; try discriminate.
  destruct (get members "timezone") as [[| | | |tz|items|inner]|] eqn:E;
    try discriminate;
    try (intros H; injection H as <-; split; [now left|];
         intros m tz' Hm Hg; injection Hm as <-; congruence).
  unfold timezone_locale_map. cbn [get].
  repeat match goal with
         | |- context [if ?k =? tz then _ else _] =>
             destruct (String.eqb_spec k tz) as [<-|?]
         end;
    intros H; injection H as <-;
    (split; [cbn; tauto|]);
    intros m tz' Hm Hg Hn; injection Hm as <-; rewrite E in Hg; injection Hg as <-;
    try reflexivity; exfalso; apply Hn; cbn; tauto.
Qed.
End Locale.

Section Interactions.
Import Py PyFloat reading_mimicry reading_mimicry.ScrollBehavior InfiltratorSession.
Local Open Scope string_scope.
Local Open Scope float_scope.
Local Open Scope py_scope.

Lemma session_call_inv {A} (f : Page -> A) evs s r s' :
  on_world (on_page (api_call f evs)) s = (r, s') ->
  actions s' = actions s
  /\ same_site (page (world s)) (page (world s'))
  /\ ((faults (page (world s)) (calls (page (world s))) = None
       /\ r = Ok (f (page (world s)))
       /\ events (page (world s')) = (events (page (world s)) ++ evs)%list)
      \/ (exists e, faults (page (world s)) (calls (page (world s))) = Some e
                    /\ r = Raise e
                    /\ events (page (world s')) = (events (page (world s)) ++ [])%list)).
Proof.
  unfold on_world, on_page, zoom, api_call.
  destruct (faults (page (world s)) (calls (page (world s)))) as [e|] eqn:F;
    intros H; injection H as <- <-; cbn [actions world page events];
    (split; [reflexivity|]); (split; [split; reflexivity|]).
  - right. eauto.
  - left. auto.
Qed.

Lemma session_delay_run k s :
  exists d s',
    on_world (on_rng (temporal_entropy.generate_delay k 1.0 1.0)) s = (Ok d, s')
    /\ in_profile k d
    /\ page (world s') = page (world s)
    /\ actions s' = actions s.
Proof.
  destruct (generate_delay_run k 1.0 1.0 (rng (world s))) as (d & E & Hd).
  unfold on_world, on_rng, zoom. rewrite E.
  do 2 eexists. split; [reflexivity|]. auto.
Qed.

Lemma hover_trail_refl n s : hover_trail n s s.
Proof.
  exists [], []. cbn [map length]. rewrite !app_nil_r.
  repeat split; auto. lia.
Qed.

Lemma hover_trail_trans n1 n2 s1 s2 s3 :
  hover_trail n1 s1 s2 -> hover_trail n2 s2 s3 -> hover_trail (n1 + n2) s1 s3.
Proof.
  intros (h1 & d1 & A1 & B1 & C1 & D1 & E1 & F1) (h2 & d2 & A2 & B2 & C2 & D2 & E2 & F2).
  exists (h1 ++ h2)%list, (d1 ++ d2)%list.
  rewrite A2, A1, C2, C1, map_app, !length_app, <- !app_assoc.
  repeat split; auto using Forall_app; try lia; apply Forall_app; auto.
Qed.

Lemma quiet_call_trail {A} (f : Page -> A) s r s' :
  on_world (on_page (api_call f [])) s = (r, s') -> hover_trail 0 s s'.
Proof.
  intros H. apply session_call_inv in H as (Ha & _ & [(_ & _ & He) | (e & _ & _ & He)]);
    exists [], []; cbn [map length]; rewrite He, Ha, hovers_app, !app_nil_r;
    repeat split; auto.
Qed.

Lemma sleep_inv d s r s' :
  sleep d s = (r, s') ->
  anchored s s'
  /\ events (page (world s')) = events (page (world s))
  /\ actions s' = (actions s ++ [Sleep d])%list
  /\ (r = Ok tt \/ exists e, r = Raise e /\ ~ unfailing s).
Proof.
  unfold sleep, bind, on_world, on_page, zoom, api_call. cbn [world actions].
  destruct (faults (page (world s)) (calls (page (world s)))) as [e|] eqn:F;
    intros H; injection H as <- <-; cbn [world page dom faults events actions];
    rewrite app_nil_r; (split; [split; reflexivity|]);
    (split; [reflexivity|]); (split; [reflexivity|]).
  - right. exists e. split; [reflexivity|]. intros Hn. rewrite Hn in F. discriminate F.
  - now left.
Qed.

(** One round of the loop of [_hover_over_images]. *)
Lemma hover_image_round img s :
  exists s', hover_image img s = (Ok tt, s') /\ hover_trail 1 s s'.
Proof.
  unfold hover_image, try_except_all.
  match goal with |- context [match ?m s with _ => _ end] =>
    destruct (m s) as [r s1] eqn:E; assert (Ht : hover_trail 1 s s1)
  end.
  { apply bind_inv in E as [(vis & s2 & Hv & E) | (e & Hv & _)].
    2:{ apply (hover_trail_trans 0 1 _ s1); [eapply quiet_call_trail; eauto|].
        apply hover_trail_refl. }
    apply (hover_trail_trans 0 1 _ s2); [eapply quiet_call_trail; eauto|].
    destruct vis.
    2:{ injection E as _ <-. apply hover_trail_refl. }
    apply bind_inv in E as [([] & s3 & Hh & E) | (e & Hh & _)].
    2:{ apply session_call_inv in Hh as (Ha & _ & [(F & Hr & _) | (e' & _ & _ & He)]);
          [discriminate Hr|].
        exists [], []. cbn [map length]. rewrite He, Ha, hovers_app, !app_nil_r.
        repeat split; auto. }
    apply session_call_inv in Hh as (Ha & _ & [(_ & _ & He) | (e' & _ & Hr & _)]);
      [|discriminate Hr].
    destruct (session_delay_run temporal_entropy.THINKING s3) as (d & s4 & Ed & Hd & Hp & Hact).
    unfold bind in E. rewrite Ed in E.
    apply sleep_inv in E as (_ & Hev & Hsl & _).
    exists ["img"], [d]. cbn [map length].
    rewrite Hev, Hsl, Hp, He, hovers_app, Hact, Ha. cbn [hovers].
    repeat split; auto. }
  destruct r as [[]|e]; eexists; (split; [reflexivity | exact Ht]).
Qed.

Lemma hover_images_run : forall images s,
  exists s', hover_images images s = (Ok tt, s') /\ hover_trail (length images) s s'.
Proof.
  induction images as [|img images IH]; intros s; cbn [hover_images length].
  - exists s. split; [reflexivity | apply hover_trail_refl].
  - destruct (hover_image_round img s) as (s1 & E1 & T1).
    destruct (IH s1) as (s2 & E2 & T2).
    exists s2. unfold bind. rewrite E1. split; [exact E2|].
    apply (hover_trail_trans 1 (length images) _ s1); assumption.
Qed.

(** X24.  [_hover_over_images] raises only what its first call, the query
    for the images, raises; whatever the later calls do, it hovers at most
    three times, always over an image, and sleeps once after each hover,
    for a thinking pause within [0.5, 3.0] seconds. *)
Theorem hover_over_images_bounded (s : Session) :
  fst (_hover_over_images s)
    = match faults (page (world s)) (calls (page (world s))) with
      | Some e => Raise e
      | None => Ok tt
      end
  /\ hover_trail 3 s (snd (_hover_over_images s)).
Proof.
  unfold _hover_over_images, bind.
  destruct (on_world (on_page (api_call (fun p => dom_all p "img") [])) s)
    as [r s1] eqn:E.
  pose proof (quiet_call_trail _ _ _ _ E) as T0.
  apply session_call_inv in E as (_ & _ & [(F & -> & _) | (e & F & -> & _)]); rewrite F.
  - destruct (hover_images_run (firstn 3 (dom_all (page (world s)) "img")) s1)
      as (s2 & E2 & T2).
    rewrite E2. cbn [fst snd]. split; [reflexivity|].
    destruct (hover_trail_trans _ _ _ _ _ T0 T2)
      as (hs & ds & A & B & C & D & L & G).
    pose proof (firstn_le_length 3 (dom_all (page (world s)) "img")) as Hl.
    cbn [Nat.add] in L.
    exists hs, ds. repeat split; auto; lia.
  - cbn [fst snd]. split; [reflexivity|].
    destruct T0 as (hs & ds & A & B & C & D & L & G).
    exists hs, ds. repeat split; auto; lia.
Qed.

Lemma anchored_refl s : anchored s s.
Proof. split; reflexivity. Qed.

Lemma anchored_trans s1 s2 s3 : anchored s1 s2 -> anchored s2 s3 -> anchored s1 s3.
Proof. intros [A B] [A' B']. split; congruence. Qed.

Lemma unfailing_anchored s s' : anchored s s' -> unfailing s -> unfailing s'.
Proof. intros [_ F] H n. rewrite F. apply H. Qed.

Lemma session_call_anchored {A} (f : Page -> A) evs s r s' :
  on_world (on_page (api_call f evs)) s = (r, s') ->
  anchored s s'
  /\ actions s' = actions s
  /\ (r = Ok (f (page (world s))) \/ exists e, r = Raise e /\ ~ unfailing s).
Proof.
  unfold on_world, on_page, zoom, api_call.
  destruct (faults (page (world s)) (calls (page (world s)))) as [e|] eqn:F;
    intros H; injection H as <- <-; cbn [actions world page dom faults];
    (split; [split; reflexivity|]); (split; [reflexivity|]).
  - right. exists e. split; [reflexivity|]. intros Hn. rewrite Hn in F. discriminate F.
  - now left.
Qed.

Lemma act_anchored a s r s' :
  act a s = (r, s') ->
  anchored s s'
  /\ ((r = Ok tt /\ actions s' = (actions s ++ [a])%list)
      \/ ((exists e, r = Raise e) /\ actions s' = actions s /\ ~ unfailing s)).
Proof.
  unfold act. intros H. apply bind_inv in H as [([] & s1 & Hm & Hk) | (e & Hm & ->)].
  - apply session_call_anchored in Hm as (Han & Ha & _).
    injection Hk as <- <-. cbn [world actions].
    split; [exact Han|]. left. split; [reflexivity | now rewrite Ha].
  - apply session_call_anchored in Hm as (Han & Ha & [Hr | (e' & _ & Hn)]);
      [discriminate Hr|].
    split; [exact Han|]. right. split; [eauto|]. split; [exact Ha | exact Hn].
Qed.

(** One round of the loop of [_read_comments_section]: at most one visit,
    to a section the page finds; the loop ends when nothing failed during
    the visit, and only a failure leaves a visit behind without ending the
    loop. *)
Lemma read_comments_round selector s :
  exists done s' visits,
    read_comments_at selector s = (Ok done, s')
    /\ anchored s s'
    /\ actions s' = (actions s ++ flat_map visit visits)%list
    /\ (length visits <= 1)%nat
    /\ Forall (fun v => fst v = selector
                        /\ dom (page (world s)) selector <> None
                        /\ in_profile temporal_entropy.READING_PARAGRAPH (snd v))
              visits
    /\ (done = false -> unfailing s -> visits = []).
Proof.
  unfold read_comments_at, try_except_all, query_selector.
  match goal with |- context [match ?m s with _ => _ end] =>
    destruct (m s) as [r s1] eqn:E
  end.
  assert (Hnone : forall (done : bool) s', anchored s s' -> actions s' = actions s ->
            exists visits,
              anchored s s'
              /\ actions s' = (actions s ++ flat_map visit visits)%list
              /\ (length visits <= 1)%nat
              /\ Forall (fun v => fst v = selector
                                  /\ dom (page (world s)) selector <> None
                                  /\ in_profile temporal_entropy.READING_PARAGRAPH (snd v))
                        visits
              /\ (done = false -> unfailing s -> visits = [])).
  { intros done s' Han Ha. exists []. cbn [flat_map length]. rewrite app_nil_r.
    repeat split; auto; apply Han. }
  apply bind_inv in E as [(element & s2 & Hq & E) | (e & Hq & ->)].
  2:{ apply session_call_anchored in Hq as (Han & Ha & _).
      destruct (Hnone false s1 Han Ha) as (visits & H).
      exists false, s1, visits. split; [reflexivity | exact H]. }
  apply session_call_anchored in Hq as (Han & Ha & [Hr | (e' & Hr & _)]);
    [|discriminate Hr].
  injection Hr as ->.
  destruct (dom (page (world s)) selector) as [el|] eqn:Hdom.
  2:{ injection E as <- <-.
      destruct (Hnone false s2 Han Ha) as (visits & H).
      exists false, s2, visits. split; [reflexivity | exact H]. }
  apply bind_inv in E as [([] & s3 & Hact & E) | (e & Hact & ->)].
  2:{ apply act_anchored in Hact as [Han3 [[Hr _] | (_ & Ha3 & _)]]; [discriminate Hr|].
      destruct (Hnone false s1 (anchored_trans _ _ _ Han Han3)) as (visits & H);
        [congruence|].
      exists false, s1, visits. split; [reflexivity | exact H]. }
  apply act_anchored in Hact as [Han3 [[_ Ha3] | ([e He] & _)]]; [|discriminate He].
  destruct (session_delay_run temporal_entropy.READING_PARAGRAPH s3)
    as (d & s4 & Ed & Hd & Hp & Ha4).
  unfold bind at 1 in E. rewrite Ed in E.
  assert (Han4 : anchored s s4).
  { apply (anchored_trans _ s3); [apply (anchored_trans _ s2); assumption|].
    split; rewrite Hp; reflexivity. }
  unfold bind at 1 in E.
  destruct (sleep d s4) as [rs s5] eqn:Es.
  apply sleep_inv in Es as (Han5 & _ & Ha5 & Hrs).
  assert (Hact5 : actions s5 = (actions s ++ flat_map visit [(selector, d)])%list).
  { cbn [flat_map visit fst snd app]. rewrite Ha5, Ha4, Ha3, Ha, <- app_assoc. reflexivity. }
  assert (Hv : Forall (fun v => fst v = selector
                               /\ dom (page (world s)) selector <> None
                               /\ in_profile temporal_entropy.READING_PARAGRAPH (snd v))
                      [(selector, d)]).
  { constructor; [|constructor]. cbn [fst snd]. rewrite Hdom.
    split; [reflexivity|]. split; [discriminate | exact Hd]. }
  rewrite Hdom in Hv.
  destruct Hrs as [-> | (e & -> & Hfail)].
  - injection E as <- <-. exists true, s5, [(selector, d)].
    split; [reflexivity|]. split; [exact (anchored_trans _ _ _ Han4 Han5)|].
    split; [exact Hact5|]. split; [cbn; lia|]. split; [exact Hv | discriminate].
  - injection E as <- <-. exists false, s5, [(selector, d)].
    split; [reflexivity|]. split; [exact (anchored_trans _ _ _ Han4 Han5)|].
    split; [exact Hact5|]. split; [cbn; lia|]. split; [exact Hv|].
    intros _ Hu. exfalso. apply Hfail. exact (unfailing_anchored _ _ Han4 Hu).
Qed.

Lemma read_comments_run : forall selectors s,
  exists s' visits,
    read_comments selectors s = (Ok tt, s')
    /\ anchored s s'
    /\ actions s' = (actions s ++ flat_map visit visits)%list
    /\ (length visits <= length selectors)%nat
    /\ Forall (fun v => In (fst v) selectors
                        /\ dom (page (world s)) (fst v) <> None
                        /\ in_profile temporal_entropy.READING_PARAGRAPH (snd v))
              visits
    /\ (unfailing s -> (length visits <= 1)%nat).
Proof.
  induction selectors as [|selector rest IH]; intros s; cbn [read_comments].
  - exists s, []. cbn [flat_map length]. rewrite app_nil_r.
    split; [reflexivity|]. split; [apply anchored_refl|].
    repeat split; auto.
  - destruct (read_comments_round selector s)
      as (done & s1 & v1 & E1 & Han1 & Ha1 & L1 & F1 & N1).
    unfold bind. rewrite E1.
    assert (F1' : Forall (fun v => In (fst v) (selector :: rest)
                                   /\ dom (page (world s)) (fst v) <> None
                                   /\ in_profile temporal_entropy.READING_PARAGRAPH (snd v))
                         v1).
    { eapply Forall_impl; [|exact F1]. intros v (Hs & Hd & Hp).
      rewrite Hs. split; [now left|]. split; assumption. }
    destruct done.
    + exists s1, v1. split; [reflexivity|]. split; [exact Han1|].
      split; [exact Ha1|]. split; [cbn [length]; lia|]. split; [exact F1'|]. intros _. exact L1.
    + destruct (IH s1) as (s2 & v2 & E2 & Han2 & Ha2 & L2 & F2 & N2).
      exists s2, (v1 ++ v2)%list. split; [exact E2|].
      split; [exact (anchored_trans _ _ _ Han1 Han2)|].
      split; [rewrite Ha2, Ha1, flat_map_app, <- app_assoc; reflexivity|].
      split; [rewrite length_app; cbn [length]; lia|].
      split.
      * apply Forall_app. split; [exact F1'|].
        eapply Forall_impl; [|exact F2]. intros v (Hs & Hd & Hp).
        split; [now right|]. split; [|exact Hp]. rewrite <- (proj1 Han1). exact Hd.
      * intros Hu. rewrite (N1 eq_refl Hu). cbn [app].
        apply N2. exact (unfailing_anchored _ _ Han1 Hu).
Qed.

(** X25.  [_read_comments_section] never raises, whichever awaits fail
    and with whatever exception, a cancellation included.  What it does is
    a sequence of visits to comment sections the page finds under selectors
    of its list, at most one per selector: each is scrolled into view and
    then read for a pause within [3.0, 15.0] seconds.  When no await fails
    there is at most one visit; a sleep that is cancelled is followed by
    the next section, as on the page of [cancelled_reader], where two
    sections are visited. *)
Theorem read_comments_never_raises :
  (forall s : Session,
     exists s' visits,
       _read_comments_section s = (Ok tt, s')
       /\ actions s' = (actions s ++ flat_map visit visits)%list
       /\ (length visits <= length comment_selectors)%nat
       /\ Forall (fun v => In (fst v) comment_selectors
                           /\ dom (page (world s)) (fst v) <> None
                           /\ in_profile temporal_entropy.READING_PARAGRAPH (snd v))
                 visits
       /\ (unfailing s -> (length visits <= 1)%nat))
  /\ (fst (_read_comments_section cancelled_reader) = Ok tt
      /\ actions (snd (_read_comments_section cancelled_reader))
         = flat_map visit [("#comments", 8.0); (".comments", 8.0)]).
Proof.
  split.
  - intros s.
    destruct (read_comments_run comment_selectors s)
      as (s' & visits & E & _ & Ha & L & F & N).
    exists s', visits. repeat split; assumption.
  - split; vm_compute; reflexivity.
Qed.
End Interactions.

Section GuardedScroll.
Import Py PyFloat reading_mimicry reading_mimicry.ScrollBehavior InfiltratorSession.
Local Open Scope string_scope.
Local Open Scope float_scope.
Local Open Scope py_scope.

Lemma py_truediv_raises_exception a b e :
  py_truediv a b = Raise e -> is_Exception e = true.
Proof. unfold py_truediv. destruct (b =? 0); intros H; inversion H. reflexivity. Qed.

Lemma get_guarded {S} (I : S -> Prop) : guarded I get.
Proof. intros s r s' Hs H. injection H as <- <-. split; [exact Hs | discriminate]. Qed.

Lemma set_current_position_guarded y : guarded healthy (set_current_position y).
Proof. intros w r w' Hw H. injection H as <- <-. split; [exact Hw | discriminate]. Qed.

Lemma hover_interesting_content_guarded : guarded healthy _hover_interesting_content.
Proof.
  unfold _hover_interesting_content. apply guarded_try_except.
  - apply hover_selectors_guarded.
  - intros e. apply guarded_ret.
Qed.

Lemma reading_pause_guarded : guarded healthy reading_pause.
Proof.
  unfold reading_pause.
  apply guarded_bind; [apply on_rng_guarded, random_guarded | intros r].
  apply guarded_bind.
  { destruct (r <? 0.3); apply on_rng_guarded, generate_delay_guarded. }
  intros pause. apply guarded_bind; [apply wait_for_seconds_guarded | intros _].
  apply guarded_bind; [apply on_rng_guarded, random_guarded | intros r'].
  destruct (r' <? 0.4); [apply hover_interesting_content_guarded | apply guarded_ret].
Qed.

Lemma burst_scroll_guarded num_scrolls rb : guarded healthy (burst_scroll num_scrolls rb).
Proof.
  intros w r w' Hw H. rewrite burst_scroll_raises in H. injection H as <- <-.
  split; [exact Hw|].
  intros e He. injection He as <-.
  destruct (faults (page w) (calls (page w))) as [e|] eqn:F; [|reflexivity].
  exact (Hw _ _ F).
Qed.

Lemma chosen_interaction_scroll h :
  infiltrator_complete.chosen_interaction h
  = Some infiltrator_complete._scroll_to_bottom.
Proof.
  unfold infiltrator_complete.chosen_interaction, infiltrator_complete.interaction_index.
  rewrite Z.mul_comm, Z_mod_mult. reflexivity.
Qed.

Lemma on_world_actions {A} (m : M World A) s :
  actions (snd (on_world m s)) = actions s.
Proof. unfold on_world, zoom. destruct (m (world s)). reflexivity. Qed.

(** X26.  On a page whose failures are all [Exception]s,
    [_random_interaction] returns [None] whatever the clock hashes to and
    whichever calls fail; it neither sleeps nor scrolls an element into
    view: it only ever runs [_scroll_to_bottom]. *)
Theorem random_interaction_scrolls_only (h : Z) (s : Session) :
  healthy_session s ->
  exists s',
    _random_interaction h s = (Ok tt, s')
    /\ actions s' = actions s
    /\ healthy_session s'.
Proof.
  intros Hs. unfold _random_interaction. rewrite chosen_interaction_scroll.
  cbn [await_interaction]. unfold _scroll_to_bottom.
  destruct (try_except_returns healthy_session
              (on_world (burst_scroll None true)) tt s
              (on_world_guarded _ (burst_scroll_guarded None true)) Hs)
    as ([] & s' & E & Hs').
  exists s'. split; [exact E|]. split; [|exact Hs'].
  pose proof (on_world_actions (burst_scroll None true) s) as Ha.
  unfold try_except in E.
  destruct (on_world (burst_scroll None true) s) as [[u|e] s1];
    cbn [snd] in Ha.
  - inversion E; subst. exact Ha.
  - destruct (is_Exception e); inversion E; subst; exact Ha.
Qed.

Lemma random_interaction_scrolls_only_witness :
  healthy_session (visitor headline) /\
  exists s',
    _random_interaction 7 (visitor headline) = (Ok tt, s')
    /\ actions s' = actions (visitor headline)
    /\ healthy_session s'.
Proof.
  assert (H : healthy_session (visitor headline)) by (intros n e E; discriminate E).
  split; [exact H|]. exact (random_interaction_scrolls_only 7 (visitor headline) H).
Defined.
End GuardedScroll.

Section ConfigWitnesses.
Import Py PyText InfiltratorSession.
Local Open Scope string_scope.

Lemma config_line_round_trip_witness :
  ~ occurs "="%char "TARGET_URL"
  /\ lstrip "TARGET_URL" = "TARGET_URL"
  /\ rstrip "https://example.org/?page=1" = "https://example.org/?page=1"
  /\ exists config',
       read_config_lines []
         (["# proxy"; "PROXY_PORT = 8080" ++ newline]
          ++ ["TARGET_URL" ++ "=" ++ "https://example.org/?page=1" ++ newline])
         = Ok config'
       /\ get config' "TARGET_URL" = Some "https://example.org/?page=1".
Proof.
  assert (H1 : ~ occurs "="%char "TARGET_URL").
  { unfold occurs. cbn. intuition discriminate. }
  assert (H2 : lstrip "TARGET_URL" = "TARGET_URL") by reflexivity.
  assert (H3 : rstrip "https://example.org/?page=1" = "https://example.org/?page=1")
    by reflexivity.
  split; [exact H1|]. split; [exact H2|]. split; [exact H3|].
  exact (config_line_round_trip ["# proxy"; "PROXY_PORT = 8080" ++ newline]
           "TARGET_URL" "https://example.org/?page=1" [] H1 H2 H3).
Defined.

Lemma locale_is_listed_witness :
  _get_locale_from_timezone
    (JObject [("city", JString "Lyon"); ("timezone", JString "Europe/Paris")])
    = Ok "fr-FR"
  /\ In "fr-FR" ["en-US"; "en-GB"; "fr-FR"; "ja-JP"; "zh-CN"]
  /\ (forall members timezone,
        JObject [("city", JString "Lyon"); ("timezone", JString "Europe/Paris")]
          = JObject members ->
        get members "timezone" = Some (JString timezone) ->
        ~ In timezone ["Europe/London"; "Europe/Paris"; "Asia/Tokyo"; "Asia/Shanghai"] ->
        "fr-FR" = "en-US").
Proof.
  assert (H : _get_locale_from_timezone
                (JObject [("city", JString "Lyon"); ("timezone", JString "Europe/Paris")])
              = Ok "fr-FR") by reflexivity.
  split; [exact H|]. exact (locale_is_listed _ _ H).
Defined.
End ConfigWitnesses.

End InfiltratorSessionMore.

(** ** kinematic_mouse.py: where a path ends, and the mouse controller *)

Section PathEnds.
Import Py PyReal real_random kinematic_mouse kinematic_mouse.HumanMouseMovement.
Local Open Scope R_scope.
Local Open Scope py_scope.

Lemma last_offset_by shift path x0 y0 t0 :
  path <> [] -> last path (0, 0, 0) = (x0, y0, t0) ->
  last (offset_by shift path) (0, 0, 0) = (x0, y0, t0 + shift).
Proof.
  intros Hne Hl. unfold offset_by.
  rewrite (last_map_of _ path (0, 0, 0)) by exact Hne. now rewrite Hl.
Qed.

(** [generate_path], run within reach: the path is not empty, its
    timestamps never decrease, and it ends at the end point displaced by
    the tremor of two successive normal deviates scaled by 0.1. *)
Lemma generate_path_shape (start end_ : R * R) (target_size : option R) (g : Rng) :
  within_reach start -> within_reach end_ ->
  unit_draws g ->
  exists path g' k,
    generate_path init start end_ target_size g = (Ok path, g')
    /\ unit_draws g'
    /\ path <> []
    /\ StronglySorted Rle (map timestamp path)
    /\ fst (fst (last path (0, 0, 0))) = fst end_ + (0 + normal_tape g k * (1/10))
    /\ snd (fst (last path (0, 0, 0))) = snd end_ + (0 + normal_tape g (S k) * (1/10)).
Proof.
  intros Hws Hwe Hg.
  pose proof (within_reach_close start end_ Hws Hwe) as Hclose.
  rewrite generate_path_unfold by (apply close_near; exact Hclose). cbv zeta.
  set (s := mkPoint (fst start) (snd start)) in *.
  set (e := mkPoint (fst end_) (snd end_)) in *.
  set (d := chord s e).
  assert (Hd : 0 <= d) by apply chord_nonneg.
  set (tw := default_target_size d target_size).
  set (mt := fitts_base d tw * _).
  assert (Hmt : 0 <= mt).
  { pose proof (fitts_base_nonneg d tw Hd). pose proof (Hg 0%nat).
    unfold mt. apply Rmult_le_pos; lra. }
  set (g1 := mkRng (tape_tail (unit_tape g)) (normal_tape g)).
  assert (Hg1 : unit_draws g1) by (apply unit_draws_tail; exact Hg).
  set (g2 := mkRng (tape_tail (unit_tape g1)) (normal_tape g1)).
  assert (Hg2 : unit_draws g2) by (apply unit_draws_tail; exact Hg1).
  destruct (Rlt_dec (unit_tape g1 0) (10/100)) as [Hov|Hno].
  - destruct (generate_overshoot_run s e mt g2 Hclose Hg2)
      as (path1 & path2 & g4 & g5 & Hr & E1 & T1 & E2 & T2 & _ & Hg5 & Erun).
    match type of T1 with context [path_steps init s ?o] => set (over := o) in * end.
    set (g3 := mkRng (tape_tail (unit_tape g2)) (normal_tape g2)) in *.
    assert (Hg3 : unit_draws g3) by (apply unit_draws_tail; exact Hg2).
    pose proof (path_steps_init s over) as Hn1.
    pose proof (path_steps_init over e) as Hn2.
    destruct (close_overshoot s e _ Hclose Hr) as [Hnear1 Hnear2].
    fold over in Hnear1, Hnear2.
    destruct (generate_normal_path_ends s over (mt * (7/10)) g3 Hnear1 Hg3)
      as (p1 & g4' & E1' & Hg4 & _ & _ & _ & Z1).
    rewrite E1 in E1'. injection E1' as <- <-.
    destruct (generate_normal_path_ends over e (mt * (3/10)) g4 Hnear2 Hg4)
      as (p2 & g5' & E2' & _ & _ & _ & L2 & _).
    rewrite E2 in E2'. injection E2' as <- <-.
    assert (N2 : (2 <= length path2)%nat).
    { rewrite <- (length_map timestamp), T2, path_times_length. lia. }
    assert (Hne2 : path2 <> []) by (intros ->; cbn in N2; lia).
    exists (path1 ++ tl (offset_by (mt * (7/10)) path2)), g5,
           (2 * S (Z.to_nat (path_steps init s over))
            + 2 * Z.to_nat (path_steps init over e))%nat.
    split; [exact Erun|]. split; [exact Hg5|].
    assert (Hlast : last (path1 ++ tl (offset_by (mt * (7/10)) path2)) (0, 0, 0)
                    = last (offset_by (mt * (7/10)) path2) (0, 0, 0)).
    { rewrite last_app_right.
      - apply last_tl. unfold offset_by. now rewrite length_map.
      - intros E. apply (f_equal (@length Sample)) in E.
        rewrite length_tl in E. unfold offset_by in E. rewrite length_map in E.
        cbn [length] in E. lia. }
    split.
    { intros E. apply app_eq_nil in E as [-> _].
      apply (f_equal (@length R)) in T1. rewrite path_times_length in T1.
      cbn in T1. lia. }
    split.
    { rewrite map_app, map_tl, timestamp_offset_by, T1, T2.
      apply overshoot_times_sorted; [exact Hmt | lia | lia]. }
    rewrite Hlast, (last_offset_by _ _ _ _ _ Hne2 L2). cbn [fst snd].
    rewrite !Z1. subst g3 g2 g1. cbn [normal_tape e x y].
    split; [reflexivity|].
    match goal with
    | |- _ + (0 + normal_tape g ?i * _) = _ + (0 + normal_tape g ?j * _) =>
        replace i with j by lia
    end. reflexivity.
  - destruct (generate_normal_path_ends s e mt g2 (close_near _ _ Hclose) Hg2)
      as (path & g' & E & Hg' & T & _ & L & _).
    pose proof (path_steps_init s e) as Hn.
    exists path, g', (2 * Z.to_nat (path_steps init s e))%nat.
    split; [exact E|]. split; [exact Hg'|].
    split.
    { intros ->. apply (f_equal (@length R)) in T. rewrite path_times_length in T.
      cbn in T. lia. }
    split; [rewrite T; apply path_times_sorted; [exact Hmt | lia]|].
    rewrite L. subst g2 g1. cbn [fst snd normal_tape e x y].
    split; [reflexivity|].
    match goal with
    | |- _ + (0 + normal_tape g ?i * _) = _ + (0 + normal_tape g ?j * _) =>
        replace i with j by lia
    end. reflexivity.
Qed.

(** X27.  For a start and an end within reach and a target size that
    keeps the movement time finite, the path [generate_path] returns,
    direct or overshooting, is not empty and ends at the end
    point, displaced per axis only by the tremor of a path's end: one of
    two successive standard normal deviates, scaled by 0.1. *)
Theorem path_ends_at_target (start end_ : R * R) (target_size : option R) (g : Rng) :
  within_reach start -> within_reach end_ -> sizeable target_size ->
  unit_draws g ->
  exists path g' k,
    generate_path init start end_ target_size g = (Ok path, g')
    /\ path <> []
    /\ fst (fst (last path (0, 0, 0))) = fst end_ + (0 + normal_tape g k * (1/10))
    /\ snd (fst (last path (0, 0, 0))) = snd end_ + (0 + normal_tape g (S k) * (1/10)).
Proof.
  intros Hs He _ Hg.
  destruct (generate_path_shape start end_ target_size g Hs He Hg)
    as (path & g' & k & E & _ & Hne & _ & Hx & Hy).
  exists path, g', k. auto.
Qed.

Lemma path_ends_at_target_witness :
  (within_reach (0, 0) /\ within_reach (300, 400) /\ sizeable None
   /\ unit_draws overshooter) /\
  exists path g' k,
    generate_path init (0, 0) (300, 400) None overshooter = (Ok path, g')
    /\ path <> []
    /\ fst (fst (last path (0, 0, 0)))
       = fst (300, 400) + (0 + normal_tape overshooter k * (1/10))
    /\ snd (fst (last path (0, 0, 0)))
       = snd (300, 400) + (0 + normal_tape overshooter (S k) * (1/10)).
Proof.
  split; [exact (conj origin_within_reach
                    (conj target_within_reach (conj I overshooter_unit_draws)))|].
  exact (path_ends_at_target (0, 0) (300, 400) None overshooter
           origin_within_reach target_within_reach I overshooter_unit_draws).
Defined.
End PathEnds.

Section Controller.
Import Py PyReal real_random kinematic_mouse kinematic_mouse.HumanMouseMovement
       PlaywrightMouseController.
Local Open Scope R_scope.
Local Open Scope py_scope.







Lemma bind_ok {S A B} (m : M S A) (k : A -> M S B) s a s1 :
  m s = (Ok a, s1) -> bind m k s = k a s1.
Proof. intros H. unfold bind. now rewrite H. Qed.


Lemma mcall_at {A} (f : MousePage -> A) effect d :
  mfaults (mpage d) (mcalls (mpage d)) = None ->
  mcall f effect d
  = (Ok (f (mpage d)),
     mkDesk (rng d)
       (mkMousePage (boxes (effect (mpage d))) (mouseX (effect (mpage d)))
          (mouseY (effect (mpage d))) (mfaults (effect (mpage d)))
          (S (mcalls (mpage d))) (trace (effect (mpage d))))).
Proof. intros H. unfold mcall. now rewrite H. Qed.





(** X28.  [move_to_element] fails before it moves: when the page finds
    nothing under the selector, or finds an element without a bounding box,
    it raises [ValueError] with no mouse event, no position recorded and no
    random draw taken (the calls made up to there succeeding). *)
Theorem move_to_element_fails_fast (selector : string) (duration_override : option R)
    (d : Desk) :
  mfaults (mpage d) (mcalls (mpage d)) = None ->
  boxes (mpage d) selector = None
  \/ (boxes (mpage d) selector = Some None
      /\ mfaults (mpage d) (S (mcalls (mpage d))) = None) ->
  fst (move_to_element selector duration_override d) = Raise ValueError
  /\ rng (snd (move_to_element selector duration_override d)) = rng d
  /\ trace (mpage (snd (move_to_element selector duration_override d)))
     = trace (mpage d)
  /\ mouseX (mpage (snd (move_to_element selector duration_override d)))
     = mouseX (mpage d)
  /\ mouseY (mpage (snd (move_to_element selector duration_override d)))
     = mouseY (mpage d).
Proof.
  intros F0 [Hnone | [Hbox F1]]; unfold move_to_element;
    erewrite bind_ok by (apply mcall_at; exact F0); cbn [unchanged].
  - rewrite Hnone. cbn. auto.
  - rewrite Hbox. erewrite bind_ok by (apply mcall_at; exact F1). cbn. auto.
Qed.

Lemma move_to_element_fails_fast_witness :
  mfaults (mpage (mkDesk steady bare_page)) (mcalls (mpage (mkDesk steady bare_page))) = None
  /\ (boxes (mpage (mkDesk steady bare_page)) "#go" = None
      \/ (boxes (mpage (mkDesk steady bare_page)) "#go" = Some None
          /\ mfaults (mpage (mkDesk steady bare_page))
               (S (mcalls (mpage (mkDesk steady bare_page)))) = None))
  /\ fst (move_to_element "#go" None (mkDesk steady bare_page)) = Raise ValueError
  /\ rng (snd (move_to_element "#go" None (mkDesk steady bare_page)))
     = rng (mkDesk steady bare_page)
  /\ trace (mpage (snd (move_to_element "#go" None (mkDesk steady bare_page))))
     = trace (mpage (mkDesk steady bare_page))
  /\ mouseX (mpage (snd (move_to_element "#go" None (mkDesk steady bare_page))))
     = mouseX (mpage (mkDesk steady bare_page))
  /\ mouseY (mpage (snd (move_to_element "#go" None (mkDesk steady bare_page))))
     = mouseY (mpage (mkDesk steady bare_page)).
Proof.
  split; [reflexivity|]. split; [left; reflexivity|].
  exact (move_to_element_fails_fast "#go" None (mkDesk steady bare_page)
           eq_refl (or_introl eq_refl)).
Defined.


End Controller.
